(** * twitter-app: the relational data layer and the avatar URL helper

    A shallow embedding of
      - [packages/server/src/utils/createImagesUrl.js] ([createUserAvatarUrl]),
      - the SQL schema of BIG_DATA_CONCEPTS.md (tables [users], [tweets],
        [follows], [likes], [retweets] with their constraints),
      - the [homeFeed] resolver and the [validateTweet] middleware of the
        development guide, and the [createTweet] resolver of the README.

    JavaScript strings are sequences of UTF-16 code units, UUIDs are numbers,
    tables are lists of rows in insertion order, and a statement either yields
    the next database or the error the database raises. *)

From Stdlib Require Import String Ascii NArith ZArith QArith Bool Lia List.
From Stdlib Require Import Permutation Sorted.
Import ListNotations.
Close Scope Q_scope.

Set Implicit Arguments.

(** ** Results of fallible code *)

Inductive sql_error : Type :=
| NotNullViolation (column : string)
| UniqueViolation (constraint : string)
| ForeignKeyViolation (constraint : string)
| StringDataRightTruncation
| InvalidRowCount (clause : string).

(** What a resolver can throw ([throw new Error (...)], a URIError of the
    runtime, an error of the database driver) and the error codes of the API
    documentation. *)
Inductive error : Type :=
| Unauthorized
| URIError
| NotFound
| Forbidden
| Duplicate
| DbError (e : sql_error).

Inductive result (A : Type) : Type :=
| Ok (a : A)
| Throw (e : error).

Arguments Ok {A} a.
Arguments Throw {A} e.

Definition bind {A B} (r : result A) (k : A -> result B) : result B :=
  match r with
  | Ok a => k a
  | Throw e => Throw e
  end.

Notation "x <- r ;; k" := (bind r (fun x => k))
  (at level 61, r at next level, right associativity).

(** ** JavaScript strings *)

Module JS.

(** A String value is a finite sequence of 16-bit code units. *)
Definition code_unit := N.
Definition jsstring := list code_unit.

Definition is_code_unit (c : code_unit) : Prop := (c < 65536)%N.

(** An ASCII literal of the source as a sequence of code units. *)
Definition lit (s : string) : jsstring :=
  map N_of_ascii (list_ascii_of_string s).

Local Open Scope N_scope.

Definition in_range (lo hi c : N) : bool := (lo <=? c) && (c <=? hi).

Definition is_alnum (c : code_unit) : bool :=
  in_range 48 57 c || in_range 65 90 c || in_range 97 122 c.

(** The marks left alone by [encodeURIComponent]: [- _ . ! ~ * ' ( )]. *)
Definition uri_marks : jsstring := lit "-_.!~*'()".

Definition is_unreserved (c : code_unit) : bool :=
  is_alnum c || existsb (N.eqb c) uri_marks.

Definition is_high_surrogate (c : code_unit) : bool := in_range 55296 56319 c.
Definition is_low_surrogate (c : code_unit) : bool := in_range 56320 57343 c.

(** UTF-8 octets of a code point. *)
Definition utf8 (cp : N) : list N :=
  if cp <? 128 then [cp]
  else if cp <? 2048 then [192 + cp / 64; 128 + cp mod 64]
  else if cp <? 65536 then
    [224 + cp / 4096; 128 + (cp / 64) mod 64; 128 + cp mod 64]
  else
    [240 + cp / 262144; 128 + (cp / 4096) mod 64;
     128 + (cp / 64) mod 64; 128 + cp mod 64].

Definition hex_digit (n : N) : code_unit :=
  nth (N.to_nat n) (lit "0123456789ABCDEF") 48.

Definition percent : code_unit := 37.

(** ["%" + hex.padStart(2, "0")] with upper-case digits. *)
Definition escape_octet (b : N) : jsstring :=
  [percent; hex_digit (b / 16); hex_digit (b mod 16)].

Definition escape_code_point (cp : N) : jsstring :=
  flat_map escape_octet (utf8 cp).

Definition surrogate_pair (hi lo : code_unit) : N :=
  (hi - 55296) * 1024 + (lo - 56320) + 65536.

(** [encodeURIComponent]: unreserved code units are copied, every other
    code point is replaced by the escapes of its UTF-8 octets, and an
    unpaired surrogate throws a URIError. *)
Fixpoint encodeURIComponent (s : jsstring) : result jsstring :=
  match s with
  | [] => Ok []
  | c :: rest =>
      if is_unreserved c then
        r <- encodeURIComponent rest ;; Ok (c :: r)
      else if is_low_surrogate c then Throw URIError
      else if is_high_surrogate c then
        match rest with
        | d :: rest' =>
            if is_low_surrogate d then
              r <- encodeURIComponent rest' ;;
              Ok (escape_code_point (surrogate_pair c d) ++ r)
            else Throw URIError
        | [] => Throw URIError
        end
      else
        r <- encodeURIComponent rest ;; Ok (escape_code_point c ++ r)
  end.

(** No surrogate code unit stands alone. *)
Fixpoint well_formed (s : jsstring) : bool :=
  match s with
  | [] => true
  | c :: rest =>
      if is_low_surrogate c then false
      else if is_high_surrogate c then
        match rest with
        | d :: rest' => is_low_surrogate d && well_formed rest'
        | [] => false
        end
      else well_formed rest
  end.

(** The characters that can occur in the output of [encodeURIComponent]. *)
Definition is_uri_safe (c : code_unit) : bool :=
  is_unreserved c || (c =? percent).

(** The reserved characters of a URI: [; / ? : @ & = + $ , #]. *)
Definition uri_reserved : jsstring := lit ";/?:@&=+$,#".

End JS.

(** ** createImagesUrl.js *)

Definition avatar_prefix : JS.jsstring :=
  JS.lit "https://api.dicebear.com/7.x/avataaars/svg?seed=".
Definition avatar_suffix : JS.jsstring := JS.lit "&scale=80".

Definition createUserAvatarUrl (email : JS.jsstring) : result JS.jsstring :=
  seed <- JS.encodeURIComponent email ;;
  Ok (avatar_prefix ++ seed ++ avatar_suffix).

(** ** The relational schema (BIG_DATA_CONCEPTS.md, "Tables") *)

Local Open Scope N_scope.

(** UUID columns are 128-bit numbers, timestamps are seconds on the
    database clock, TEXT and VARCHAR values are strings. *)
Definition uuid := N.
Definition timestamp := Z.
Definition text := JS.jsstring.

(** A column declared NOT NULL holds a value, any other column an option.
    [created_at] and [updated_at] are filled by their
    [DEFAULT CURRENT_TIMESTAMP]: no statement of the application supplies
    them. *)
Record user : Type := {
  u_id : uuid;
  u_email : text;
  u_password_hash : text;
  u_name : text;
  u_avatar_url : option text;
  u_bio : option text;
  u_website : option text;
  u_created_at : timestamp;
  u_updated_at : timestamp
}.

Record tweet : Type := {
  t_id : uuid;
  t_user_id : uuid;
  t_content : text;
  t_created_at : timestamp;
  t_updated_at : timestamp
}.

Record follow : Type := {
  f_id : uuid;
  f_follower_id : uuid;
  f_following_id : uuid;
  f_created_at : timestamp
}.

Record like : Type := {
  l_id : uuid;
  l_user_id : uuid;
  l_tweet_id : uuid;
  l_created_at : timestamp
}.

Record retweet : Type := {
  r_id : uuid;
  r_user_id : uuid;
  r_tweet_id : uuid;
  r_created_at : timestamp
}.

(** A table is the list of its rows, oldest insertion first. *)
Record db : Type := {
  users : list user;
  tweets : list tweet;
  follows : list follow;
  likes : list like;
  retweets : list retweet
}.

Definition empty_db : db :=
  {| users := []; tweets := []; follows := []; likes := []; retweets := [] |}.

Definition text_eqb (a b : text) : bool :=
  if list_eq_dec N.eq_dec a b then true else false.

(** [EXISTS (SELECT 1 FROM rows WHERE key = k)] *)
Definition has_key {A} (key : A -> uuid) (rows : list A) (k : uuid) : bool :=
  existsb (fun r => key r =? k) rows.

Definition has_pair {A} (k1 k2 : A -> uuid) (rows : list A) (a b : uuid) : bool :=
  existsb (fun r => (k1 r =? a) && (k2 r =? b)) rows.

(** Rows that survive [DELETE ... WHERE p]. *)
Definition remaining {A} (p : A -> bool) (rows : list A) : list A :=
  filter (fun r => negb (p r)) rows.

(** ** Statements *)

(** The id of an INSERT is the value of [gen_random_uuid()] (or the one the
    statement supplies); a [None] is a NULL. *)
Inductive stmt : Type :=
| InsertUser (id : uuid) (email password_hash name : option text)
             (avatar_url bio website : option text)
| InsertTweet (id : uuid) (user_id : option uuid) (content : option text)
| InsertFollow (id : uuid) (follower_id following_id : option uuid)
| InsertLike (id : uuid) (user_id tweet_id : option uuid)
| InsertRetweet (id : uuid) (user_id tweet_id : option uuid)
| UpdateUser (id : uuid) (name : option text) (bio website : option text)
| UpdateTweet (id : uuid) (content : option text)
| DeleteUsers (p : user -> bool)
| DeleteTweets (p : tweet -> bool)
| DeleteFollows (p : follow -> bool)
| DeleteLikes (p : like -> bool)
| DeleteRetweets (p : retweet -> bool).

Definition check (b : bool) (e : sql_error) : result unit :=
  if b then Ok tt else Throw (DbError e).

Definition not_null {A} (column : string) (v : option A) : result A :=
  match v with
  | Some a => Ok a
  | None => Throw (DbError (NotNullViolation column))
  end.

(** The characters of a string as the database counts them: a surrogate
    pair is one character, any other code unit is one. *)
Fixpoint characters (s : text) : list text :=
  match s with
  | [] => []
  | c :: rest =>
      match rest with
      | d :: rest' =>
          if JS.is_high_surrogate c && JS.is_low_surrogate d
          then [c; d] :: characters rest'
          else [c] :: characters rest
      | [] => [[c]]
      end
  end.

(** A value on its way into a [VARCHAR(n)] column.  A value of more than
    [n] characters is an error ("value too long for type character
    varying(n)", SQLSTATE 22001) unless the characters beyond the [n]th are
    all spaces, which are then cut off; a NULL stays a NULL.  The value is
    converted before any constraint is looked at. *)
Definition varchar (n : nat) (v : option text) : result (option text) :=
  match v with
  | None => Ok None
  | Some s =>
      let cs := characters s in
      if (length cs <=? n)%nat then Ok (Some s)
      else if forallb (fun ch => text_eqb ch [32]) (skipn n cs)
      then Ok (Some (concat (firstn n cs)))
      else Throw (DbError StringDataRightTruncation)
  end.

Definition insert_user (now : timestamp) (id : uuid)
    (email password_hash name avatar_url bio website : option text)
    (d : db) : result db :=
  email <- varchar 255 email ;;
  password_hash <- varchar 255 password_hash ;;
  name <- varchar 255 name ;;
  website <- varchar 255 website ;;
  e <- not_null "email" email ;;
  p <- not_null "password_hash" password_hash ;;
  n <- not_null "name" name ;;
  _ <- check (negb (has_key u_id (users d) id)) (UniqueViolation "users_pkey") ;;
  _ <- check (negb (existsb (fun u => text_eqb (u_email u) e) (users d)))
             (UniqueViolation "users_email_key") ;;
  Ok {| users := users d ++
                 [{| u_id := id; u_email := e; u_password_hash := p;
                     u_name := n; u_avatar_url := avatar_url; u_bio := bio;
                     u_website := website;
                     u_created_at := now; u_updated_at := now |}];
        tweets := tweets d; follows := follows d;
        likes := likes d; retweets := retweets d |}.

Definition insert_tweet (now : timestamp) (id : uuid)
    (user_id : option uuid) (content : option text) (d : db) : result db :=
  u <- not_null "user_id" user_id ;;
  c <- not_null "content" content ;;
  _ <- check (negb (has_key t_id (tweets d) id)) (UniqueViolation "tweets_pkey") ;;
  _ <- check (has_key u_id (users d) u) (ForeignKeyViolation "tweets_user_id_fkey") ;;
  Ok {| users := users d;
        tweets := tweets d ++
                  [{| t_id := id; t_user_id := u; t_content := c;
                      t_created_at := now; t_updated_at := now |}];
        follows := follows d; likes := likes d; retweets := retweets d |}.

Definition insert_follow (now : timestamp) (id : uuid)
    (follower_id following_id : option uuid) (d : db) : result db :=
  a <- not_null "follower_id" follower_id ;;
  b <- not_null "following_id" following_id ;;
  _ <- check (negb (has_key f_id (follows d) id)) (UniqueViolation "follows_pkey") ;;
  _ <- check (negb (has_pair f_follower_id f_following_id (follows d) a b))
             (UniqueViolation "follows_follower_id_following_id_key") ;;
  _ <- check (has_key u_id (users d) a) (ForeignKeyViolation "follows_follower_id_fkey") ;;
  _ <- check (has_key u_id (users d) b) (ForeignKeyViolation "follows_following_id_fkey") ;;
  Ok {| users := users d; tweets := tweets d;
        follows := follows d ++
                   [{| f_id := id; f_follower_id := a; f_following_id := b;
                       f_created_at := now |}];
        likes := likes d; retweets := retweets d |}.

Definition insert_like (now : timestamp) (id : uuid)
    (user_id tweet_id : option uuid) (d : db) : result db :=
  u <- not_null "user_id" user_id ;;
  t <- not_null "tweet_id" tweet_id ;;
  _ <- check (negb (has_key l_id (likes d) id)) (UniqueViolation "likes_pkey") ;;
  _ <- check (negb (has_pair l_user_id l_tweet_id (likes d) u t))
             (UniqueViolation "likes_user_id_tweet_id_key") ;;
  _ <- check (has_key u_id (users d) u) (ForeignKeyViolation "likes_user_id_fkey") ;;
  _ <- check (has_key t_id (tweets d) t) (ForeignKeyViolation "likes_tweet_id_fkey") ;;
  Ok {| users := users d; tweets := tweets d; follows := follows d;
        likes := likes d ++
                 [{| l_id := id; l_user_id := u; l_tweet_id := t;
                     l_created_at := now |}];
        retweets := retweets d |}.

Definition insert_retweet (now : timestamp) (id : uuid)
    (user_id tweet_id : option uuid) (d : db) : result db :=
  u <- not_null "user_id" user_id ;;
  t <- not_null "tweet_id" tweet_id ;;
  _ <- check (negb (has_key r_id (retweets d) id)) (UniqueViolation "retweets_pkey") ;;
  _ <- check (negb (has_pair r_user_id r_tweet_id (retweets d) u t))
             (UniqueViolation "retweets_user_id_tweet_id_key") ;;
  _ <- check (has_key u_id (users d) u) (ForeignKeyViolation "retweets_user_id_fkey") ;;
  _ <- check (has_key t_id (tweets d) t) (ForeignKeyViolation "retweets_tweet_id_fkey") ;;
  Ok {| users := users d; tweets := tweets d; follows := follows d;
        likes := likes d;
        retweets := retweets d ++
                    [{| r_id := id; r_user_id := u; r_tweet_id := t;
                        r_created_at := now |}] |}.

(** [UPDATE users SET name = ?, bio = ?, website = ?, updated_at = now
    WHERE id = ?] *)
Definition update_user (now : timestamp) (id : uuid)
    (name bio website : option text) (d : db) : result db :=
  name <- varchar 255 name ;;
  website <- varchar 255 website ;;
  if has_key u_id (users d) id then
    n <- not_null "name" name ;;
    Ok {| users := map (fun u =>
                     if u_id u =? id then
                       {| u_id := u_id u; u_email := u_email u;
                          u_password_hash := u_password_hash u;
                          u_name := n; u_avatar_url := u_avatar_url u;
                          u_bio := bio; u_website := website;
                          u_created_at := u_created_at u;
                          u_updated_at := now |}
                     else u) (users d);
          tweets := tweets d; follows := follows d;
          likes := likes d; retweets := retweets d |}
  else Ok d.

(** [UPDATE tweets SET content = ?, updated_at = now WHERE id = ?] *)
Definition update_tweet (now : timestamp) (id : uuid)
    (content : option text) (d : db) : result db :=
  if has_key t_id (tweets d) id then
    c <- not_null "content" content ;;
    Ok {| users := users d;
          tweets := map (fun t =>
                      if t_id t =? id then
                        {| t_id := t_id t; t_user_id := t_user_id t;
                           t_content := c;
                           t_created_at := t_created_at t;
                           t_updated_at := now |}
                      else t) (tweets d);
          follows := follows d; likes := likes d; retweets := retweets d |}
  else Ok d.

(** [DELETE FROM tweets WHERE p]: the rows of [likes] and [retweets] whose
    [tweet_id] references a deleted tweet go with it (ON DELETE CASCADE). *)
Definition delete_tweets (p : tweet -> bool) (d : db) : db :=
  let gone := filter p (tweets d) in
  {| users := users d;
     tweets := remaining p (tweets d);
     follows := follows d;
     likes := remaining (fun l => has_key t_id gone (l_tweet_id l)) (likes d);
     retweets := remaining (fun r => has_key t_id gone (r_tweet_id r)) (retweets d) |}.

(** [DELETE FROM users WHERE p]: cascades to the tweets of a deleted user
    (and from there to their likes and retweets), and to the follows, likes
    and retweets that reference the user. *)
Definition delete_users (p : user -> bool) (d : db) : db :=
  let gone := filter p (users d) in
  let d1 := delete_tweets (fun t => has_key u_id gone (t_user_id t)) d in
  {| users := remaining p (users d);
     tweets := tweets d1;
     follows := remaining (fun f => has_key u_id gone (f_follower_id f)
                                    || has_key u_id gone (f_following_id f))
                          (follows d);
     likes := remaining (fun l => has_key u_id gone (l_user_id l)) (likes d1);
     retweets := remaining (fun r => has_key u_id gone (r_user_id r)) (retweets d1) |}.

Definition delete_follows (p : follow -> bool) (d : db) : db :=
  {| users := users d; tweets := tweets d;
     follows := remaining p (follows d);
     likes := likes d; retweets := retweets d |}.

Definition delete_likes (p : like -> bool) (d : db) : db :=
  {| users := users d; tweets := tweets d; follows := follows d;
     likes := remaining p (likes d); retweets := retweets d |}.

Definition delete_retweets (p : retweet -> bool) (d : db) : db :=
  {| users := users d; tweets := tweets d; follows := follows d;
     likes := likes d; retweets := remaining p (retweets d) |}.

(** One statement against the database at time [now]: the next database, or
    the error that aborts the statement. *)
Definition exec (now : timestamp) (s : stmt) (d : db) : result db :=
  match s with
  | InsertUser id e p n a b w => insert_user now id e p n a b w d
  | InsertTweet id u c => insert_tweet now id u c d
  | InsertFollow id a b => insert_follow now id a b d
  | InsertLike id u t => insert_like now id u t d
  | InsertRetweet id u t => insert_retweet now id u t d
  | UpdateUser id n b w => update_user now id n b w d
  | UpdateTweet id c => update_tweet now id c d
  | DeleteUsers p => Ok (delete_users p d)
  | DeleteTweets p => Ok (delete_tweets p d)
  | DeleteFollows p => Ok (delete_follows p d)
  | DeleteLikes p => Ok (delete_likes p d)
  | DeleteRetweets p => Ok (delete_retweets p d)
  end.

(** A statement that fails changes nothing. *)
Definition step (now : timestamp) (s : stmt) (d : db) : db :=
  match exec now s d with
  | Ok d' => d'
  | Throw _ => d
  end.

Fixpoint replay (history : list (timestamp * stmt)) (d : db) : db :=
  match history with
  | [] => d
  | (now, s) :: rest => replay rest (step now s d)
  end.

(** ** The invariants of the schema *)

(** [PRIMARY KEY] *)
Definition primary_key {A} (key : A -> uuid) (rows : list A) : Prop :=
  NoDup (map key rows).

(** [UNIQUE (k1, k2)]: at most one row for each pair of values. *)
Definition rows_with_pair {A} (k1 k2 : A -> uuid) (rows : list A)
    (a b : uuid) : list A :=
  filter (fun r => (k1 r =? a) && (k2 r =? b)) rows.

Definition unique_pair {A} (k1 k2 : A -> uuid) (rows : list A) : Prop :=
  forall a b : uuid, (length (rows_with_pair k1 k2 rows a b) <= 1)%nat.

(** [REFERENCES target (id)] *)
Definition references {A B} (fk : A -> uuid) (rows : list A)
    (key : B -> uuid) (target : list B) : Prop :=
  forall r, In r rows -> exists x, In x target /\ key x = fk r.

Definition likes_unique (d : db) : Prop :=
  unique_pair l_user_id l_tweet_id (likes d).
Definition retweets_unique (d : db) : Prop :=
  unique_pair r_user_id r_tweet_id (retweets d).
Definition follows_unique (d : db) : Prop :=
  unique_pair f_follower_id f_following_id (follows d).

Record wf (d : db) : Prop := {
  users_pkey : primary_key u_id (users d);
  users_email_key : NoDup (map u_email (users d));
  tweets_pkey : primary_key t_id (tweets d);
  tweets_user_id_fkey : references t_user_id (tweets d) u_id (users d);
  follows_pkey : primary_key f_id (follows d);
  follows_key : follows_unique d;
  follows_follower_id_fkey : references f_follower_id (follows d) u_id (users d);
  follows_following_id_fkey : references f_following_id (follows d) u_id (users d);
  likes_pkey : primary_key l_id (likes d);
  likes_key : likes_unique d;
  likes_user_id_fkey : references l_user_id (likes d) u_id (users d);
  likes_tweet_id_fkey : references l_tweet_id (likes d) t_id (tweets d);
  retweets_pkey : primary_key r_id (retweets d);
  retweets_key : retweets_unique d;
  retweets_user_id_fkey : references r_user_id (retweets d) u_id (users d);
  retweets_tweet_id_fkey : references r_tweet_id (retweets d) t_id (tweets d)
}.




(** ** Relational operators *)

Section Operators.
Context {A B : Type}.

(** [xs JOIN ys ON on] *)
Definition inner_join (on : A -> B -> bool) (xs : list A) (ys : list B)
    : list (A * B) :=
  flat_map (fun x => map (pair x) (filter (on x) ys)) xs.

(** [xs LEFT JOIN ys ON on]: a row of [xs] without a match is kept once,
    with NULLs for the columns of [ys]. *)
Definition left_join (on : A -> B -> bool) (xs : list A) (ys : list B)
    : list (A * option B) :=
  flat_map (fun x =>
    match filter (on x) ys with
    | [] => [(x, None)]
    | y :: m => map (fun y' => (x, Some y')) (y :: m)
    end) xs.

(** The values of a column without its NULLs. *)
Definition non_null (vs : list (option B)) : list B :=
  flat_map (fun v => match v with Some b => [b] | None => [] end) vs.

(** [ORDER BY key DESC].  SQL leaves the order of rows with equal keys to
    the engine; here they keep their order. *)
Fixpoint insert_desc (key : A -> Z) (x : A) (l : list A) : list A :=
  match l with
  | [] => [x]
  | y :: l' =>
      if (key y <=? key x)%Z then x :: y :: l'
      else y :: insert_desc key x l'
  end.

Fixpoint order_by_desc (key : A -> Z) (l : list A) : list A :=
  match l with
  | [] => []
  | x :: l' => insert_desc key x (order_by_desc key l')
  end.
End Operators.

Section Grouping.
Context {A K : Type}.
Variable eqb : K -> K -> bool.

(** The distinct values of a list, in order of first occurrence. *)
Fixpoint distinct (ks : list K) : list K :=
  match ks with
  | [] => []
  | k :: ks' => k :: filter (fun k' => negb (eqb k' k)) (distinct ks')
  end.

(** [GROUP BY key]: one group for each distinct key. *)
Definition group_by (key : A -> K) (rows : list A) : list (list A) :=
  map (fun k => filter (fun r => eqb (key r) k) rows)
      (distinct (map key rows)).
End Grouping.

(** [COUNT(DISTINCT column)] *)
Definition count_distinct (column : list (option uuid)) : nat :=
  length (distinct N.eqb (non_null column)).

(** A GraphQL argument as the resolver sees it: left out ([undefined]),
    [null], or a value. *)
Inductive arg (A : Type) : Type :=
| Absent
| Null
| Val (a : A).

Arguments Absent {A}.
Arguments Null {A}.
Arguments Val {A} a.

(** A destructuring default ([{ limit: l = 20 }]) replaces [undefined]
    only; [null] reaches the query as a NULL parameter. *)
Definition with_default {A} (dflt : A) (a : arg A) : option A :=
  match a with
  | Absent => Some dflt
  | Null => None
  | Val v => Some v
  end.

(** A row count of a LIMIT or OFFSET clause: NULL is "no count", a negative
    number is an error. *)
Definition row_count (clause : string) (n : option Z) : result (option nat) :=
  match n with
  | None => Ok None
  | Some z =>
      if (z <? 0)%Z then Throw (DbError (InvalidRowCount clause))
      else Ok (Some (Z.to_nat z))
  end.

(** [LIMIT l OFFSET o]: skip [o] rows, then keep [l]; a NULL limit keeps
    all rows and a NULL offset skips none. *)
Definition limit_offset {A} (l o : option Z) (rows : list A)
    : result (list A) :=
  o' <- row_count "OFFSET" o ;;
  l' <- row_count "LIMIT" l ;;
  let rest := match o' with Some n => skipn n rows | None => rows end in
  Ok (match l' with Some n => firstn n rest | None => rest end).

(** ** resolvers/Query/homeFeed.js *)

(** A row of [tweets t JOIN users u LEFT JOIN likes l LEFT JOIN retweets r]. *)
Definition joined : Type := ((tweet * user) * option like) * option retweet.

Definition row_t (x : joined) : tweet := fst (fst (fst x)).
Definition row_u (x : joined) : user := snd (fst (fst x)).
Definition row_l (x : joined) : option like := snd (fst x).
Definition row_r (x : joined) : option retweet := snd x.

(** A row of the result: [t.*, u.name, u.avatar_url, likes_count,
    retweets_count]. *)
Record feed_row : Type := {
  fr_tweet : tweet;
  fr_name : text;
  fr_avatar_url : option text;
  fr_likes_count : nat;
  fr_retweets_count : nat
}.

Definition feed_from (d : db) : list joined :=
  left_join (fun x r => t_id (fst (fst x)) =? r_tweet_id r)
    (left_join (fun x l => t_id (fst x) =? l_tweet_id l)
       (inner_join (fun t u => t_user_id t =? u_id u) (tweets d) (users d))
       (likes d))
    (retweets d).

(** The rows of the FROM clause that stem from one tweet. *)
Definition tweet_rows (d : db) (t : tweet) : list joined :=
  left_join (fun x r => t_id (fst (fst x)) =? r_tweet_id r)
    (left_join (fun x l => t_id (fst x) =? l_tweet_id l)
       (inner_join (fun t u => t_user_id t =? u_id u) [t] (users d))
       (likes d))
    (retweets d).

(** [t.user_id = ? OR t.user_id IN (SELECT following_id FROM follows
    WHERE follower_id = ?)] *)
Definition feed_where (d : db) (p1 p2 : uuid) (t : tweet) : bool :=
  (t_user_id t =? p1)
  || existsb (N.eqb (t_user_id t))
       (map f_following_id (filter (fun f => f_follower_id f =? p2) (follows d))).

Definition key_eqb (a b : uuid * uuid) : bool :=
  (fst a =? fst b) && (snd a =? snd b).

Definition group_key (x : joined) : uuid * uuid :=
  (t_id (row_t x), u_id (row_u x)).

(** The select list over one group. *)
Definition feed_aggregate (g : list joined) : list feed_row :=
  match g with
  | [] => []
  | x :: _ =>
      [{| fr_tweet := row_t x;
          fr_name := u_name (row_u x);
          fr_avatar_url := u_avatar_url (row_u x);
          fr_likes_count :=
            count_distinct (map (fun y => option_map l_id (row_l y)) g);
          fr_retweets_count :=
            count_distinct (map (fun y => option_map r_id (row_r y)) g) |}]
  end.

(** The query up to and including its ORDER BY. *)
Definition feed_select (d : db) (p1 p2 : uuid) : list feed_row :=
  order_by_desc (fun r => t_created_at (fr_tweet r))
    (flat_map feed_aggregate
       (group_by key_eqb group_key
          (filter (fun x => feed_where d p1 p2 (row_t x)) (feed_from d)))).

Definition feed_query (d : db) (p1 p2 : uuid) (l o : option Z)
    : result (list feed_row) :=
  limit_offset l o (feed_select d p1 p2).

Definition homeFeed (limit offset : arg Z) (d : db) (req_user : option user)
    : result (list feed_row) :=
  let l := with_default 20%Z limit in
  let o := with_default 0%Z offset in
  match req_user with
  | None => Throw Unauthorized
  | Some me => feed_query d (u_id me) (u_id me) l o
  end.

(** [SELECT COUNT( * ) FROM likes WHERE tweet_id = ?] and its twin for
    retweets. *)
Definition count_likes (d : db) (t : uuid) : nat :=
  length (filter (fun l => l_tweet_id l =? t) (likes d)).

Definition count_retweets (d : db) (t : uuid) : nat :=
  length (filter (fun r => r_tweet_id r =? t) (retweets d)).

(** "u follows v": a row of [follows] from [u] to [v]. *)
Definition follows_edge (d : db) (u v : uuid) : Prop :=
  exists f, In f (follows d) /\ f_follower_id f = u /\ f_following_id f = v.

(** ** Middleware: validateTweet *)

(** A Number value.  [JSON.parse] yields a finite double or, for a literal
    out of the range of the doubles, an infinity; [NaN] is what [ToNumber]
    makes of [undefined]. *)
Inductive number : Type :=
| Finite (q : Q)
| Infinite (negative : bool)
| NaN.

(** What [req.body.content] can be: a value of the parsed JSON body, or
    [undefined] when the body has no such property. *)
#[warnings="-register-all"]
Inductive value : Type :=
| VUndefined
| VNull
| VBool (b : bool)
| VNumber (x : number)
| VString (s : JS.jsstring)
| VArray (items : list value)
| VObject (props : list (JS.jsstring * value)).

Definition number_of_nat (n : nat) : number := Finite (inject_Z (Z.of_nat n)).

(** [ToBoolean]: [!v] is the negation of [truthy v]. *)
Definition truthy (v : value) : bool :=
  match v with
  | VUndefined | VNull => false
  | VBool b => b
  | VNumber (Finite q) => negb (Qeq_bool q 0%Q)
  | VNumber (Infinite _) => true
  | VNumber NaN => false
  | VString s => negb (length s =? 0)%nat
  | VArray _ | VObject _ => true
  end.

(** [v.length], for a [v] other than [undefined] and [null]: the length of
    a String or of an Array; the own property of that name of an object
    (the last one, when the JSON text repeats the name); [undefined] for a
    Number or a Boolean, whose prototypes have no such property. *)
Definition get_length (v : value) : value :=
  match v with
  | VString s => VNumber (number_of_nat (length s))
  | VArray items => VNumber (number_of_nat (length items))
  | VObject props =>
      match find (fun kv => text_eqb (fst kv) (JS.lit "length")) (rev props) with
      | Some kv => snd kv
      | None => VUndefined
      end
  | _ => VUndefined
  end.

(** [v === 0] *)
Definition strictly_zero (v : value) : bool :=
  match v with
  | VNumber (Finite q) => Qeq_bool q 0%Q
  | _ => false
  end.

(** [x > n] on Numbers. *)
Definition number_gt (x : number) (n : Q) : bool :=
  match x with
  | Finite q => negb (Qle_bool q n)
  | Infinite negative => negb negative
  | NaN => false
  end.

Inductive middleware_result : Type :=
| Next
| Respond (status : N) (error : string)
| Raise.

Section ValidateTweet.
(** [ToNumber] of the runtime on a String, an Array or an Object (the
    [length] property of an object of the body can be any of them); it
    throws a TypeError on some objects, which is [None] here. *)
Variable ToNumber : value -> option number.

Definition to_number (v : value) : option number :=
  match v with
  | VUndefined => Some NaN
  | VNull => Some (Finite 0%Q)
  | VBool b => Some (Finite (if b then 1%Q else 0%Q))
  | VNumber x => Some x
  | VString _ | VArray _ | VObject _ => ToNumber v
  end.

(** [content] is [req.body.content].  [Raise] stands for an exception that
    leaves the middleware. *)
Definition validateTweet (content : value) : middleware_result :=
  if negb (truthy content) then Respond 400 "Content is required"
  else
    let len := get_length content in
    if strictly_zero len then Respond 400 "Content is required"
    else
      match to_number len with
      | None => Raise
      | Some x =>
          if number_gt x 280%Q then
            Respond 400 "Content must be 280 characters or less"
          else Next
      end.
End ValidateTweet.

(** ** The createTweet resolver (README, "Graphql Resolver Validation") *)

(** WhiteSpace and LineTerminator code points, which [trim] strips. *)
Definition is_white_space (c : JS.code_unit) : bool :=
  existsb (N.eqb c)
    [9; 10; 11; 12; 13; 32; 160; 5760; 8232; 8233; 8239; 8287; 12288; 65279]
  || JS.in_range 8192 8202 c.

Fixpoint trim_start (s : text) : text :=
  match s with
  | [] => []
  | c :: rest => if is_white_space c then trim_start rest else s
  end.

Definition trim (s : text) : text :=
  rev (trim_start (rev (trim_start s))).

Inductive validation : Type :=
| Valid
| Invalid (message : string).

Definition createTweet_validate (value : text) : validation :=
  if (length value =? 0)%nat || (length (trim value) =? 0)%nat then
    Invalid "Content is required"
  else if (280 <? length value)%nat then
    Invalid "Content must be 280 characters or less"
  else Valid.

Section CreateTweet.
(** [sanitizeHTML] is imported from a module that is not among the
    sources. *)
Variable sanitizeHTML : text -> text.

(** [db('tweets').insert({ user_id: req.user.id, content: sanitized })];
    [new_id] is the value of [gen_random_uuid()]. *)
Definition createTweet (content : text) (new_id : uuid) (now : timestamp)
    (d : db) (req_user : option user) : db * result unit :=
  match req_user with
  | None => (d, Throw Unauthorized)
  | Some me =>
      let sanitized := sanitizeHTML content in
      match exec now (InsertTweet new_id (Some (u_id me)) (Some sanitized)) d with
      | Ok d' => (d', Ok tt)
      | Throw e => (d, Throw e)
      end
  end.
End CreateTweet.

(** ** Mutations whose resolvers are not among the sources *)

(** Modelled from the spec: the [likeTweet] resolver is missing from the
    sources (only the API documentation, the feature list and the tests
    mention it).  "Each resolver performs a single parameterized query" and
    inserts "respecting a unique constraint": an authenticated user inserts
    one row into [likes]; a unique violation is reported with the code
    DUPLICATE ("User already liked this tweet"), a tweet that does not exist
    with NOT_FOUND; the answer carries the new [likes_count].  The tests of
    TESTING.md like a user's own tweet, so no check of ownership is part of
    the model. *)
Definition likeTweet (tweetId new_id : uuid) (now : timestamp) (d : db)
    (req_user : option user) : db * result nat :=
  match req_user with
  | None => (d, Throw Unauthorized)
  | Some me =>
      match exec now (InsertLike new_id (Some (u_id me)) (Some tweetId)) d with
      | Ok d' => (d', Ok (count_likes d' tweetId))
      | Throw (DbError (UniqueViolation _)) => (d, Throw Duplicate)
      | Throw (DbError (ForeignKeyViolation "likes_tweet_id_fkey")) =>
          (d, Throw NotFound)
      | Throw e => (d, Throw e)
      end
  end.

(** Modelled from the spec: the [deleteTweet] resolver is missing from the
    sources.  The API documentation says "Only tweet owner can delete" and
    "Deletes associated likes, retweets"; the resolver issues
    [DELETE FROM tweets WHERE id = ?] and the schema cascades. *)
Definition deleteTweet (id : uuid) (now : timestamp) (d : db)
    (req_user : option user) : db * result bool :=
  match req_user with
  | None => (d, Throw Unauthorized)
  | Some me =>
      match find (fun t => t_id t =? id) (tweets d) with
      | None => (d, Throw NotFound)
      | Some t =>
          if t_user_id t =? u_id me then
            match exec now (DeleteTweets (fun t' => t_id t' =? id)) d with
            | Ok d' => (d', Ok true)
            | Throw e => (d, Throw e)
            end
          else (d, Throw Forbidden)
      end
  end.

(** ** Sample data *)

Definition signup_stmt (id : uuid) (name : string) : stmt :=
  InsertUser id (Some (JS.lit (name ++ "@test.com"))) (Some (JS.lit "$2a$10$hash"))
             (Some (JS.lit name)) None None None.

(** Three users; ann follows bob; bob's tweet has two likes and three
    retweets.  The third like repeats a (user, tweet) pair and is refused. *)
Definition sample_history : list (timestamp * stmt) :=
  [ (1%Z, signup_stmt 1 "ann");
    (2%Z, signup_stmt 2 "bob");
    (3%Z, signup_stmt 3 "cy");
    (4%Z, InsertTweet 10 (Some 1) (Some (JS.lit "hello")));
    (5%Z, InsertTweet 11 (Some 2) (Some (JS.lit "from bob")));
    (6%Z, InsertTweet 12 (Some 3) (Some (JS.lit "from cy")));
    (7%Z, InsertFollow 20 (Some 1) (Some 2));
    (8%Z, InsertLike 30 (Some 1) (Some 11));
    (8%Z, InsertLike 31 (Some 3) (Some 11));
    (8%Z, InsertLike 32 (Some 3) (Some 11));
    (9%Z, InsertRetweet 40 (Some 1) (Some 11));
    (9%Z, InsertRetweet 41 (Some 3) (Some 11));
    (9%Z, InsertRetweet 42 (Some 2) (Some 11));
    (10%Z, InsertTweet 13 (Some 1) (Some (JS.lit "again"))) ].

Definition sample_db : db := replay sample_history empty_db.

Definition session_user (id : uuid) (name : string) (since : timestamp) : user :=
  {| u_id := id; u_email := JS.lit (name ++ "@test.com");
     u_password_hash := JS.lit "$2a$10$hash"; u_name := JS.lit name;
     u_avatar_url := None; u_bio := None; u_website := None;
     u_created_at := since; u_updated_at := since |}.

Definition ann : user := session_user 1 "ann" 1%Z.
Definition bob : user := session_user 2 "bob" 2%Z.

(** ann alone, with 21 tweets of her own. *)
Definition busy_history : list (timestamp * stmt) :=
  (1%Z, signup_stmt 1 "ann")
  :: map (fun i => (Z.of_nat (2 + i),
                    InsertTweet (100 + N.of_nat i) (Some 1) (Some (JS.lit "tweet"))))
         (seq 0 21).

Definition busy_db : db := replay busy_history empty_db.


(** The rows of an answer, none if the query failed. *)
Definition rows_of {A} (r : result (list A)) : list A :=
  match r with
  | Ok rows => rows
  | Throw _ => []
  end.

(** The first [k] pages of [l] rows of a user's home timeline. *)
Definition feed_pages (d : db) (me : user) (l : Z) (k : nat) : list feed_row :=
  flat_map (fun i => rows_of (homeFeed (Val l) (Val (Z.of_nat i * l)%Z) d (Some me)))
           (seq 0 k).

(** Recency order: newest first. *)
Definition newer_first (r1 r2 : feed_row) : Prop :=
  (t_created_at (fr_tweet r2) <= t_created_at (fr_tweet r1))%Z.

(** ** Other queries and helpers of the documentation *)

(** "Home Timeline, Query Logic" of the feature list and "User Feed" of
    BIG_DATA_CONCEPTS.md:
    [SELECT t.* FROM tweets t WHERE t.user_id = ? OR t.user_id IN (SELECT
    following_id FROM follows WHERE follower_id = ?)
    ORDER BY t.created_at DESC], before its LIMIT. *)
Definition timeline_select (d : db) (p1 p2 : uuid) : list tweet :=
  order_by_desc t_created_at (filter (feed_where d p1 p2) (tweets d)).

(** [... LIMIT 20 OFFSET ?] *)
Definition timeline_query (d : db) (p1 p2 : uuid) (o : option Z)
    : result (list tweet) :=
  limit_offset (Some 20%Z) o (timeline_select d p1 p2).

(** [SELECT u.* FROM users u JOIN follows f ON u.id = f.following_id
    WHERE f.follower_id = ?] *)
Definition following_query (d : db) (p : uuid) : list user :=
  map fst
    (filter (fun x => f_follower_id (snd x) =? p)
       (inner_join (fun u f => u_id u =? f_following_id f) (users d) (follows d))).

(** [SELECT COUNT( * ) as followers FROM follows WHERE following_id = ?] and
    [SELECT COUNT( * ) as following FROM follows WHERE follower_id = ?] *)
Definition count_followers (d : db) (p : uuid) : nat :=
  length (filter (fun f => f_following_id f =? p) (follows d)).

Definition count_following (d : db) (p : uuid) : nat :=
  length (filter (fun f => f_follower_id f =? p) (follows d)).

(** [SELECT * FROM tweets WHERE user_id = ?] *)
Definition user_tweets (d : db) (p : uuid) : list tweet :=
  filter (fun t => t_user_id t =? p) (tweets d).

(** [SELECT EXISTS(SELECT 1 FROM follows WHERE follower_id = ? AND
    following_id = ?)] *)
Definition is_following (d : db) (a b : uuid) : bool :=
  has_pair f_follower_id f_following_id (follows d) a b.

(** [SELECT EXISTS(SELECT 1 FROM likes WHERE user_id = ? AND tweet_id = ?)] *)
Definition is_liked_by (d : db) (u t : uuid) : bool :=
  has_pair l_user_id l_tweet_id (likes d) u t.

(** "Get User Profile with Stats":
    [SELECT u.*, COUNT(DISTINCT t.id), COUNT(DISTINCT f1.id),
    COUNT(DISTINCT f2.id) FROM users u LEFT JOIN tweets t ON u.id = t.user_id
    LEFT JOIN follows f1 ON u.id = f1.following_id
    LEFT JOIN follows f2 ON u.id = f2.follower_id
    WHERE u.id = ? GROUP BY u.id] *)
Definition profile_joined : Type :=
  ((user * option tweet) * option follow) * option follow.

Definition prow_u (x : profile_joined) : user := fst (fst (fst x)).
Definition prow_t (x : profile_joined) : option tweet := snd (fst (fst x)).
Definition prow_f1 (x : profile_joined) : option follow := snd (fst x).
Definition prow_f2 (x : profile_joined) : option follow := snd x.

Record profile_row : Type := {
  pr_user : user;
  pr_tweets_count : nat;
  pr_followers_count : nat;
  pr_following_count : nat
}.

Definition profile_joins (us : list user) (d : db) : list profile_joined :=
  left_join (fun x f2 => u_id (fst (fst x)) =? f_follower_id f2)
    (left_join (fun x f1 => u_id (fst x) =? f_following_id f1)
       (left_join (fun u t => u_id u =? t_user_id t) us (tweets d))
       (follows d))
    (follows d).

Definition profile_aggregate (g : list profile_joined) : list profile_row :=
  match g with
  | [] => []
  | x :: _ =>
      [{| pr_user := prow_u x;
          pr_tweets_count :=
            count_distinct (map (fun y => option_map t_id (prow_t y)) g);
          pr_followers_count :=
            count_distinct (map (fun y => option_map f_id (prow_f1 y)) g);
          pr_following_count :=
            count_distinct (map (fun y => option_map f_id (prow_f2 y)) g) |}]
  end.

Definition profile_query (d : db) (p : uuid) : list profile_row :=
  flat_map profile_aggregate
    (group_by N.eqb (fun x => u_id (prow_u x))
       (filter (fun x => u_id (prow_u x) =? p) (profile_joins (users d) d))).

(** The batch function of the DataLoader (development guide and
    BIG_DATA_CONCEPTS.md): [users] is
    [SELECT * FROM users WHERE id IN (userIds)], and the answer is
    [userIds.map(id => users.find(u => u.id === id))], where [None] stands
    for [undefined]. *)
Definition users_whereIn (d : db) (userIds : list uuid) : list user :=
  filter (fun u => existsb (N.eqb (u_id u)) userIds) (users d).

Definition userLoader_batch (d : db) (userIds : list uuid) : list (option user) :=
  let found := users_whereIn d userIds in
  map (fun id => find (fun u => u_id u =? id) found) userIds.

(** [isAuthenticated] of the development guide. *)
Definition isAuthenticated (req_user : option user) : middleware_result :=
  match req_user with
  | None => Respond 401 "Unauthorized"
  | Some _ => Next
  end.


(** The answer of a query under a projection of its rows. *)
Definition result_map {A B} (f : A -> B) (r : result A) : result B :=
  match r with
  | Ok a => Ok (f a)
  | Throw e => Throw e
  end.

(** [DELETE FROM follows WHERE follower_id = ? AND following_id = ?] and its
    twin for likes. *)
Definition unfollow_stmt (a b : uuid) : stmt :=
  DeleteFollows (fun f => (f_follower_id f =? a) && (f_following_id f =? b)).

Definition unlike_stmt (u t : uuid) : stmt :=
  DeleteLikes (fun l => (l_user_id l =? u) && (l_tweet_id l =? t)).

(** [DELETE FROM users WHERE id = ?] *)
Definition delete_user_stmt (p : uuid) : stmt :=
  DeleteUsers (fun u => u_id u =? p).

(** ** More queries of BIG_DATA_CONCEPTS.md *)

(** "Get all users who liked a tweet":
    [SELECT u.* FROM users u JOIN likes l ON u.id = l.user_id
    WHERE l.tweet_id = ? ORDER BY l.created_at DESC] *)
Definition likers_query (d : db) (t : uuid) : list user :=
  map fst
    (order_by_desc (fun x => l_created_at (snd x))
       (filter (fun x => l_tweet_id (snd x) =? t)
          (inner_join (fun u l => u_id u =? l_user_id l) (users d) (likes d)))).

(** "Get Mutual Followers":
    [SELECT u.* FROM users u WHERE EXISTS(SELECT 1 FROM follows f1 WHERE
    f1.follower_id = ? AND f1.following_id = u.id) AND EXISTS(SELECT 1 FROM
    follows f2 WHERE f2.follower_id = u.id AND f2.following_id = ?)] *)
Definition mutual_followers (d : db) (p1 p2 : uuid) : list user :=
  filter (fun u => is_following d p1 (u_id u) && is_following d (u_id u) p2)
    (users d).

(** [ORDER BY k1 DESC, k2 DESC]: rows are compared by the first key and,
    where it is the same, by the second; rows equal in both keep their
    order. *)
Section OrderByTwo.
Context {A : Type}.
Variables k1 k2 : A -> Z.

(** [y] does not sort before [x]. *)
Definition desc2_leb (y x : A) : bool :=
  (k1 y <? k1 x)%Z || ((k1 y =? k1 x)%Z && (k2 y <=? k2 x)%Z).

Fixpoint insert_desc2 (x : A) (l : list A) : list A :=
  match l with
  | [] => [x]
  | y :: l' =>
      if desc2_leb y x then x :: y :: l'
      else y :: insert_desc2 x l'
  end.

Fixpoint order_by_desc2 (l : list A) : list A :=
  match l with
  | [] => []
  | x :: l' => insert_desc2 x (order_by_desc2 l')
  end.
End OrderByTwo.

(** "Get Trending Tweets (Last 24 Hours)":
    [SELECT t.*, u.name, u.avatar_url, COUNT(l.id) as like_count
    FROM tweets t JOIN users u ON t.user_id = u.id
    LEFT JOIN likes l ON t.id = l.tweet_id
    WHERE t.created_at > NOW() - INTERVAL '24 hours'
    GROUP BY t.id, u.id
    ORDER BY like_count DESC, t.created_at DESC LIMIT 50] *)
Definition trending_joined : Type := (tweet * user) * option like.

Record trending_row : Type := {
  tr_tweet : tweet;
  tr_name : text;
  tr_avatar_url : option text;
  tr_like_count : nat
}.

Definition trending_from (ts : list tweet) (d : db) : list trending_joined :=
  left_join (fun x l => t_id (fst x) =? l_tweet_id l)
    (inner_join (fun t u => t_user_id t =? u_id u) ts (users d))
    (likes d).

(** [t.created_at > NOW() - INTERVAL '24 hours'], in seconds. *)
Definition trending_where (now : timestamp) (t : tweet) : bool :=
  (now - 86400 <? t_created_at t)%Z.

Definition trending_key (x : trending_joined) : uuid * uuid :=
  (t_id (fst (fst x)), u_id (snd (fst x))).

(** [COUNT(l.id)] counts the rows of the group whose [l.id] is not NULL. *)
Definition trending_aggregate (g : list trending_joined) : list trending_row :=
  match g with
  | [] => []
  | x :: _ =>
      [{| tr_tweet := fst (fst x);
          tr_name := u_name (snd (fst x));
          tr_avatar_url := u_avatar_url (snd (fst x));
          tr_like_count :=
            length (non_null (map (fun y => option_map l_id (snd y)) g)) |}]
  end.

(** The query up to and including its ORDER BY. *)
Definition trending_select (now : timestamp) (d : db) : list trending_row :=
  order_by_desc2 (fun r => Z.of_nat (tr_like_count r))
                 (fun r => t_created_at (tr_tweet r))
    (flat_map trending_aggregate
       (group_by key_eqb trending_key
          (filter (fun x => trending_where now (fst (fst x)))
             (trending_from (tweets d) d)))).

Definition trending_query (now : timestamp) (d : db) : list trending_row :=
  firstn 50 (trending_select now d).

(** The order of the trending list: more likes first, the newer tweet first
    among tweets with as many likes. *)
Definition more_trending (r1 r2 : trending_row) : Prop :=
  (tr_like_count r2 < tr_like_count r1)%nat
  \/ (tr_like_count r2 = tr_like_count r1
      /\ (t_created_at (tr_tweet r2) <= t_created_at (tr_tweet r1))%Z).

(** ** What ORDER BY leaves open *)

(** What [ORDER BY key DESC] allows: the rows, in any order in which the
    keys do not grow.  The order of rows with equal keys is the choice of
    the engine, made anew for every query; [order_by_desc] is one such
    choice. *)
Definition ordered_by_desc {A} (key : A -> Z) (rows out : list A) : Prop :=
  Permutation rows out /\ StronglySorted (fun x y => (key y <= key x)%Z) out.

(** The rows of the query of [homeFeed] before its ORDER BY. *)
Definition feed_rows (d : db) (p1 p2 : uuid) : list feed_row :=
  flat_map feed_aggregate
    (group_by key_eqb group_key
       (filter (fun x => feed_where d p1 p2 (row_t x)) (feed_from d))).

(** The results that the query can have up to and including its ORDER BY;
    [feed_select] is one of them. *)
Definition feed_select_any (d : db) (p1 p2 : uuid) (full : list feed_row)
    : Prop :=
  ordered_by_desc (fun r => t_created_at (fr_tweet r)) (feed_rows d p1 p2) full.

(** The answers that [homeFeed] can give; [homeFeed] above computes the one
    of an engine that keeps rows with equal [created_at] in the order of
    their insertion. *)
Definition homeFeed_returns (limit offset : arg Z) (d : db)
    (req_user : option user) (answer : result (list feed_row)) : Prop :=
  match req_user with
  | None => answer = Throw Unauthorized
  | Some me =>
      exists full,
        feed_select_any d (u_id me) (u_id me) full
        /\ answer = limit_offset (with_default 20%Z limit)
                                 (with_default 0%Z offset) full
  end.

(** The same for the "Query Logic" query of the home timeline. *)
Definition timeline_select_any (d : db) (p1 p2 : uuid) (ts : list tweet)
    : Prop :=
  ordered_by_desc t_created_at (filter (feed_where d p1 p2) (tweets d)) ts.

Definition timeline_query_returns (d : db) (p1 p2 : uuid) (o : option Z)
    (answer : result (list tweet)) : Prop :=
  exists ts,
    timeline_select_any d p1 p2 ts
    /\ answer = limit_offset (Some 20%Z) o ts.

(** No two tweets of the home timeline of [p] have the same [created_at]. *)
Definition distinct_created_at (d : db) (p : uuid) : Prop :=
  NoDup (map t_created_at (filter (feed_where d p p) (tweets d))).

(** ann with two tweets of the same second. *)
Definition tied_history : list (timestamp * stmt) :=
  [ (1%Z, signup_stmt 1 "ann");
    (2%Z, InsertTweet 10 (Some 1) (Some (JS.lit "one")));
    (2%Z, InsertTweet 11 (Some 1) (Some (JS.lit "two"))) ].

Definition tied_db : db := replay tied_history empty_db.

(** * Properties *)

(** ** Lists *)

Lemma existsb_false_filter {A} (q : A -> bool) (xs : list A) :
  existsb q xs = false -> filter q xs = [].
Proof.
  induction xs as [|x xs IH]; simpl; [reflexivity|].
  intros H. apply orb_false_iff in H as [Hx Hxs].
  rewrite Hx. auto.
Qed.

Lemma filter_remaining_le {A} (q p : A -> bool) (xs : list A) :
  (length (filter q (remaining p xs)) <= length (filter q xs))%nat.
Proof.
  unfold remaining.
  induction xs as [|x xs IH]; simpl; [lia|].
  destruct (p x); simpl; destruct (q x); simpl; lia.
Qed.

Lemma remaining_In {A} (p : A -> bool) (xs : list A) (x : A) :
  In x (remaining p xs) <-> In x xs /\ p x = false.
Proof.
  unfold remaining. rewrite filter_In, negb_true_iff. reflexivity.
Qed.

Lemma NoDup_snoc {A} (l : list A) (x : A) :
  NoDup l -> ~ In x l -> NoDup (l ++ [x]).
Proof.
  induction l as [|y l IH]; simpl; intros Hnd Hin.
  - constructor; [intros []|constructor].
  - inversion Hnd as [|y' l' Hy Hl]; subst.
    constructor.
    + rewrite in_app_iff. simpl. intuition congruence.
    + apply IH; tauto.
Qed.

Lemma NoDup_map_remaining {A B} (f : A -> B) (p : A -> bool) (xs : list A) :
  NoDup (map f xs) -> NoDup (map f (remaining p xs)).
Proof.
  unfold remaining.
  induction xs as [|x xs IH]; simpl; intros Hnd; [constructor|].
  inversion Hnd as [|y l Hy Hl]; subst.
  destruct (p x); simpl; auto.
  constructor; auto.
  rewrite in_map_iff in *. intros (z & Hz & Hin).
  apply Hy. exists z. apply filter_In in Hin. tauto.
Qed.

Lemma has_key_true {A} (key : A -> uuid) (rows : list A) (k : uuid) :
  has_key key rows k = true <-> exists r, In r rows /\ key r = k.
Proof.
  unfold has_key. rewrite existsb_exists.
  split; intros (r & Hin & H); exists r; split; auto; now apply N.eqb_eq.
Qed.

Lemma has_key_false {A} (key : A -> uuid) (rows : list A) (k : uuid) :
  has_key key rows k = false <-> ~ In k (map key rows).
Proof.
  rewrite <- not_true_iff_false, has_key_true, in_map_iff.
  split; intros H (r & H1 & H2); apply H; exists r; auto.
Qed.

Lemma remaining_remaining {A} (p1 p2 : A -> bool) (xs : list A) :
  remaining p2 (remaining p1 xs) = remaining (fun x => p1 x || p2 x) xs.
Proof.
  unfold remaining.
  induction xs as [|x xs IH]; simpl; [reflexivity|].
  destruct (p1 x); simpl; [assumption|].
  destruct (p2 x); simpl; congruence.
Qed.

(** ** Constraints under insertion, deletion and update *)

Lemma primary_key_insert {A} (key : A -> uuid) (rows : list A) (r : A) :
  primary_key key rows -> has_key key rows (key r) = false ->
  primary_key key (rows ++ [r]).
Proof.
  unfold primary_key. intros Hnd Hk.
  rewrite map_app. simpl. apply NoDup_snoc; auto.
  now apply has_key_false.
Qed.

Lemma primary_key_remaining {A} (key : A -> uuid) (p : A -> bool) (rows : list A) :
  primary_key key rows -> primary_key key (remaining p rows).
Proof. apply NoDup_map_remaining. Qed.

Lemma primary_key_map {A} (key : A -> uuid) (f : A -> A) (rows : list A) :
  (forall x, key (f x) = key x) ->
  primary_key key rows -> primary_key key (map f rows).
Proof.
  unfold primary_key. intros Hf H.
  rewrite map_map. erewrite map_ext; eauto.
Qed.

Lemma unique_pair_insert {A} (k1 k2 : A -> uuid) (rows : list A) (r : A) :
  unique_pair k1 k2 rows ->
  has_pair k1 k2 rows (k1 r) (k2 r) = false ->
  unique_pair k1 k2 (rows ++ [r]).
Proof.
  unfold unique_pair, rows_with_pair, has_pair. intros Hu Hp a b.
  rewrite filter_app, length_app. simpl.
  destruct ((k1 r =? a) && (k2 r =? b)) eqn:E; simpl; [|specialize (Hu a b); lia].
  apply andb_true_iff in E as [Ea Eb].
  apply N.eqb_eq in Ea, Eb. subst a b.
  rewrite (existsb_false_filter _ _ Hp). simpl. lia.
Qed.

Lemma unique_pair_remaining {A} (k1 k2 : A -> uuid) (p : A -> bool) (rows : list A) :
  unique_pair k1 k2 rows -> unique_pair k1 k2 (remaining p rows).
Proof.
  unfold unique_pair, rows_with_pair. intros Hu a b.
  specialize (Hu a b).
  pose proof (filter_remaining_le (fun r => (k1 r =? a) && (k2 r =? b)) p rows).
  lia.
Qed.

Lemma references_insert_source {A B} (fk : A -> uuid) (rows : list A)
    (key : B -> uuid) (target : list B) (r : A) :
  references fk rows key target -> has_key key target (fk r) = true ->
  references fk (rows ++ [r]) key target.
Proof.
  unfold references. intros H Hk x Hin.
  apply in_app_iff in Hin as [Hin|[<-|[]]]; auto.
  now apply has_key_true.
Qed.

Lemma references_insert_target {A B} (fk : A -> uuid) (rows : list A)
    (key : B -> uuid) (target : list B) (x : B) :
  references fk rows key target -> references fk rows key (target ++ [x]).
Proof.
  unfold references. intros H r Hin.
  destruct (H r Hin) as (y & Hy & E).
  exists y. rewrite in_app_iff. auto.
Qed.

Lemma references_remaining_source {A B} (fk : A -> uuid) (rows : list A)
    (key : B -> uuid) (target : list B) (p : A -> bool) :
  references fk rows key target -> references fk (remaining p rows) key target.
Proof.
  unfold references. intros H r Hin.
  apply remaining_In in Hin. apply H. tauto.
Qed.

Lemma references_map_source {A B} (fk : A -> uuid) (rows : list A)
    (key : B -> uuid) (target : list B) (f : A -> A) :
  (forall x, fk (f x) = fk x) ->
  references fk rows key target -> references fk (map f rows) key target.
Proof.
  unfold references. intros Hf H r Hin.
  apply in_map_iff in Hin as (x & <- & Hin).
  rewrite Hf. auto.
Qed.

Lemma references_map_target {A B} (fk : A -> uuid) (rows : list A)
    (key : B -> uuid) (target : list B) (f : B -> B) :
  (forall x, key (f x) = key x) ->
  references fk rows key target -> references fk rows key (map f target).
Proof.
  unfold references. intros Hf H r Hin.
  destruct (H r Hin) as (y & Hy & E).
  exists (f y). split; [now apply in_map|]. now rewrite Hf.
Qed.

(** ON DELETE CASCADE: when the rows that reference a deleted row are
    deleted too, every reference that remains still has its target. *)
Lemma references_cascade {A B} (fk : A -> uuid) (rows : list A)
    (key : B -> uuid) (target : list B) (p : B -> bool) (q : A -> bool) :
  references fk rows key target ->
  (forall r, has_key key (filter p target) (fk r) = true -> q r = true) ->
  references fk (remaining q rows) key (remaining p target).
Proof.
  unfold references. intros H Hq r Hin.
  apply remaining_In in Hin as [Hin Hk].
  destruct (H r Hin) as (y & Hy & E).
  exists y. split; auto.
  apply remaining_In. split; auto.
  destruct (p y) eqn:Hp; auto.
  rewrite Hq in Hk; [discriminate|].
  apply has_key_true. exists y. rewrite filter_In. auto.
Qed.

Lemma email_fresh (users0 : list user) (e : text) :
  existsb (fun u => text_eqb (u_email u) e) users0 = false ->
  ~ In e (map u_email users0).
Proof.
  intros H Hin. apply in_map_iff in Hin as (u & <- & Hin).
  assert (existsb (fun u0 => text_eqb (u_email u0) (u_email u)) users0 = true)
    as Ht; [|congruence].
  apply existsb_exists. exists u. split; auto.
  unfold text_eqb. destruct (list_eq_dec _ _ _); congruence.
Qed.

(** ** What a successful statement did *)

Ltac inv_exec H :=
  unfold insert_user, insert_tweet, insert_follow, insert_like, insert_retweet,
         update_user, update_tweet, not_null, check in H;
  repeat match type of H with
  | context [varchar ?n ?v] =>
      let o := fresh "o" in
      destruct (varchar n v) as [o|?]; simpl in H; try discriminate H
  | context [match ?o with Some _ => _ | None => _ end] =>
      destruct o; simpl in H; try discriminate H
  | context [if ?b then _ else _] =>
      let E := fresh "E" in destruct b eqn:E; simpl in H; try discriminate H
  end;
  injection H as <-;
  repeat match goal with
  | E : negb _ = true |- _ => apply negb_true_iff in E
  end.

Lemma exec_likes (now : timestamp) (s : stmt) (d d' : db) :
  exec now s d = Ok d' ->
  likes d' = likes d
  \/ (exists p, likes d' = remaining p (likes d))
  \/ (exists l, likes d' = likes d ++ [l]
        /\ has_key l_id (likes d) (l_id l) = false
        /\ has_pair l_user_id l_tweet_id (likes d) (l_user_id l) (l_tweet_id l) = false
        /\ has_key u_id (users d) (l_user_id l) = true
        /\ has_key t_id (tweets d) (l_tweet_id l) = true).
Proof.
  intros H. destruct s; simpl in H; try (inv_exec H; simpl; auto; fail).
  - inv_exec H. simpl. right. right. eexists. split; [reflexivity|]. simpl. auto.
  - inv_exec H. simpl. right. left. eexists. apply remaining_remaining.
  - inv_exec H. simpl. right. left. eexists. reflexivity.
  - inv_exec H. simpl. right. left. eexists. reflexivity.
Qed.

(** ** Every statement keeps the schema's constraints *)

Ltac keep_constraint :=
  solve
    [ assumption
    | apply primary_key_insert; assumption
    | apply primary_key_remaining; assumption
    | apply primary_key_map; [intros ?; destruct (_ =? _); reflexivity | assumption]
    | apply unique_pair_insert; assumption
    | apply unique_pair_remaining; assumption
    | apply references_insert_source; assumption
    | apply references_insert_target; assumption
    | apply references_remaining_source; assumption
    | apply references_map_source;
        [intros ?; destruct (_ =? _); reflexivity | assumption]
    | apply references_map_target;
        [intros ?; destruct (_ =? _); reflexivity | assumption]
    | apply references_cascade;
        [assumption | intros ? Hc; try rewrite Hc; auto using orb_true_r]
    | apply references_remaining_source; apply references_cascade;
        [assumption | intros ? Hc; try rewrite Hc; auto using orb_true_r]
    | apply references_cascade;
        [apply references_remaining_source; assumption
        | intros ? Hc; try rewrite Hc; auto using orb_true_r]
    | apply NoDup_map_remaining; assumption
    | do 2 apply primary_key_remaining; assumption
    | do 2 apply unique_pair_remaining; assumption
    | rewrite map_app; apply NoDup_snoc;
        [assumption | apply email_fresh; assumption]
    | rewrite map_map; erewrite map_ext;
        [eassumption | intros ?; destruct (_ =? _); reflexivity] ].

Lemma exec_wf (now : timestamp) (s : stmt) (d d' : db) :
  wf d -> exec now s d = Ok d' -> wf d'.
Proof.
  intros [] H.
  destruct s; simpl in H; inv_exec H;
    unfold likes_unique, retweets_unique, follows_unique in *;
    constructor;
    unfold likes_unique, retweets_unique, follows_unique,
           delete_users, delete_tweets, delete_follows, delete_likes,
           delete_retweets;
    simpl; keep_constraint.
Qed.

Lemma wf_empty : wf empty_db.
Proof.
  constructor;
    unfold likes_unique, retweets_unique, follows_unique, unique_pair,
           primary_key, references;
    simpl; solve [constructor | intros ? [] | intros; lia].
Qed.

Lemma step_wf (now : timestamp) (s : stmt) (d : db) :
  wf d -> wf (step now s d).
Proof.
  intros H. unfold step.
  destruct (exec now s d) eqn:E; [eapply exec_wf; eauto|assumption].
Qed.

Lemma replay_wf (history : list (timestamp * stmt)) (d : db) :
  wf d -> wf (replay history d).
Proof.
  revert d. induction history as [|[now s] rest IH]; simpl; intros d H; auto.
  apply IH. now apply step_wf.
Qed.

Lemma sample_db_wf : wf sample_db.
Proof. apply replay_wf, wf_empty. Qed.

Lemma busy_db_wf : wf busy_db.
Proof. apply replay_wf, wf_empty. Qed.

(** ** Likes: one row for each (user, tweet) *)

Lemma exec_likes_unique (now : timestamp) (s : stmt) (d d' : db) :
  likes_unique d -> exec now s d = Ok d' -> likes_unique d'.
Proof.
  intros Hu H. unfold likes_unique in *.
  destruct (exec_likes _ _ _ H) as [E|[(p & E)|(l & E & _ & Hp & _)]];
    rewrite E.
  - assumption.
  - now apply unique_pair_remaining.
  - now apply unique_pair_insert.
Qed.

Lemma step_likes_unique (now : timestamp) (s : stmt) (d : db) :
  likes_unique d -> likes_unique (step now s d).
Proof.
  intros H. unfold step.
  destruct (exec now s d) eqn:E; [eapply exec_likes_unique; eauto|assumption].
Qed.

Lemma replay_likes_unique (history : list (timestamp * stmt)) (d : db) :
  likes_unique d -> likes_unique (replay history d).
Proof.
  revert d. induction history as [|[now s] rest IH]; simpl; intros d H; auto.
  apply IH. now apply step_likes_unique.
Qed.

(** C2: for every user [u] and tweet [t] the likes table holds at most one
    row with [user_id = u] and [tweet_id = t]: this holds in every database
    that a history of statements builds from the empty one, and every
    statement (whether it succeeds or is refused) preserves it. *)
Theorem likes_at_most_once (now : timestamp) (s : stmt) (d : db) (u t : uuid) :
  (forall history, likes_unique (replay history empty_db)) /\
  (likes_unique d ->
   likes_unique (step now s d) /\
   (length (rows_with_pair l_user_id l_tweet_id (likes (step now s d)) u t)
    <= 1)%nat).
Proof.
  split.
  - intros history. apply replay_likes_unique, wf_empty.
  - intros H. pose proof (step_likes_unique now s H) as H'.
    split; [assumption|]. apply (H' u t).
Qed.

Lemma likes_at_most_once_witness :
  likes_unique (step 11%Z (InsertLike 33 (Some 3) (Some 12)) sample_db)
  /\ (length (rows_with_pair l_user_id l_tweet_id
                (likes (step 11%Z (InsertLike 33 (Some 3) (Some 12)) sample_db))
                3 12)%N <= 1)%nat.
Proof.
  apply (proj2 (likes_at_most_once 11%Z (InsertLike 33 (Some 3) (Some 12))
                                   sample_db 3 12)).
  apply (likes_key sample_db_wf).
Defined.

(** ** Follows: directed edges *)

Lemma exec_follows (now : timestamp) (s : stmt) (d d' : db) :
  exec now s d = Ok d' ->
  follows d' = follows d
  \/ (exists p, follows d' = remaining p (follows d))
  \/ (exists f, follows d' = follows d ++ [f]
        /\ has_pair f_follower_id f_following_id (follows d)
                    (f_follower_id f) (f_following_id f) = false).
Proof.
  intros H. destruct s; simpl in H; try (inv_exec H; simpl; auto; fail).
  - inv_exec H. simpl. right. right. eexists. split; [reflexivity|]. simpl. auto.
  - inv_exec H. simpl. right. left. eexists. reflexivity.
  - inv_exec H. simpl. right. left. eexists. reflexivity.
Qed.

Lemma step_follows_unique (now : timestamp) (s : stmt) (d : db) :
  follows_unique d -> follows_unique (step now s d).
Proof.
  intros Hu. unfold step.
  destruct (exec now s d) as [d'|] eqn:H; [|assumption].
  unfold follows_unique in *.
  destruct (exec_follows _ _ _ H) as [E|[(p & E)|(f & E & Hp)]]; rewrite E.
  - assumption.
  - now apply unique_pair_remaining.
  - now apply unique_pair_insert.
Qed.

Lemma has_pair_true {A} (k1 k2 : A -> uuid) (rows : list A) (a b : uuid) :
  has_pair k1 k2 rows a b = true <->
  exists r, In r rows /\ k1 r = a /\ k2 r = b.
Proof.
  unfold has_pair. rewrite existsb_exists.
  split; intros (r & Hin & H); exists r; split; auto.
  - apply andb_true_iff in H. now rewrite !N.eqb_eq in H.
  - apply andb_true_iff. now rewrite !N.eqb_eq.
Qed.

Lemma follows_edge_has_pair (d : db) (a b : uuid) :
  follows_edge d a b <->
  has_pair f_follower_id f_following_id (follows d) a b = true.
Proof. unfold follows_edge. now rewrite has_pair_true. Qed.

Lemma insert_follow_other_edge (now : timestamp) (id a b : uuid) (d : db) (x y : uuid) :
  (x, y) <> (a, b) ->
  (follows_edge (step now (InsertFollow id (Some a) (Some b)) d) x y
   <-> follows_edge d x y).
Proof.
  intros Hne. unfold step.
  destruct (exec now (InsertFollow id (Some a) (Some b)) d) as [d'|] eqn:H;
    [|reflexivity].
  simpl in H. inv_exec H. unfold follows_edge. simpl.
  split; intros (f & Hin & Hx & Hy).
  - apply in_app_iff in Hin as [Hin|[<-|[]]]; [eauto|].
    simpl in *. congruence.
  - exists f. rewrite in_app_iff. auto.
Qed.

(** C6: a follow is a directed edge.  The follows table holds at most one
    row for each ordered pair (follower, following), and every statement
    keeps it so; inserting the edge from [a] to [b] does not change whether
    the edge from [b] to [a] exists; and the edge from [a] to [b] does not
    stand in the way of the edge from [b] to [a], which the schema accepts
    as a row of its own. *)
Theorem follows_directed (now : timestamp) (s : stmt) (d : db) (id a b : uuid) :
  follows_unique d ->
  a <> b ->
  (follows_unique (step now s d)
   /\ (length (rows_with_pair f_follower_id f_following_id
                              (follows (step now s d)) a b) <= 1)%nat)
  /\ (follows_edge (step now (InsertFollow id (Some a) (Some b)) d) b a
      <-> follows_edge d b a)
  /\ (has_key u_id (users d) a = true ->
      has_key u_id (users d) b = true ->
      has_key f_id (follows d) id = false ->
      ~ follows_edge d b a ->
      exists d', exec now (InsertFollow id (Some b) (Some a)) d = Ok d'
                 /\ follows_edge d' b a
                 /\ (follows_edge d' a b <-> follows_edge d a b)).
Proof.
  intros Hu Hab. split; [|split].
  - pose proof (step_follows_unique now s Hu) as H'. split; [assumption|apply H'].
  - apply insert_follow_other_edge. congruence.
  - intros Ha Hb Hid Hedge.
    assert (has_pair f_follower_id f_following_id (follows d) b a = false) as Hp.
    { apply not_true_iff_false. now rewrite <- follows_edge_has_pair. }
    assert (exists d', exec now (InsertFollow id (Some b) (Some a)) d = Ok d')
      as [d' E].
    { simpl. unfold insert_follow, not_null, check. simpl.
      rewrite Hid, Hp, Ha, Hb. simpl. eauto. }
    exists d'. split; [assumption|].
    pose proof (@insert_follow_other_edge now id b a d a b) as Hother.
    unfold step in Hother. rewrite E in Hother.
    split; [|apply Hother; congruence].
    simpl in E. inv_exec E. unfold follows_edge. simpl.
    eexists. rewrite in_app_iff. simpl. eauto.
Qed.

Lemma follows_directed_witness :
  follows_edge sample_db 1 2 /\ ~ follows_edge sample_db 2 1
  /\ exists d', exec 11%Z (InsertFollow 21 (Some 2) (Some 1)) sample_db = Ok d'
                /\ follows_edge d' 2 1
                /\ (follows_edge d' 1 2 <-> follows_edge sample_db 1 2).
Proof.
  assert (~ follows_edge sample_db 2 1) as Hno.
  { rewrite follows_edge_has_pair. vm_compute. discriminate. }
  split; [|split; [exact Hno|]].
  - rewrite follows_edge_has_pair. vm_compute. reflexivity.
  - apply (proj2 (proj2 (follows_directed 11%Z (DeleteLikes (fun _ => false))
                           21 (follows_key sample_db_wf)
                           (a:=1) (b:=2) ltac:(discriminate))));
      solve [vm_compute; reflexivity | exact Hno].
Defined.

(** ** Tweets and their owners *)

Lemma NoDup_map_eq {A B} (f : A -> B) (l : list A) (x y : A) :
  NoDup (map f l) -> In x l -> In y l -> f x = f y -> x = y.
Proof.
  induction l as [|z l IH]; simpl; intros Hnd Hx Hy E; [contradiction|].
  inversion Hnd as [|? ? Hz Hl]; subst.
  destruct Hx as [->|Hx], Hy as [->|Hy]; auto.
  - exfalso. apply Hz. rewrite E. now apply in_map.
  - exfalso. apply Hz. rewrite <- E. now apply in_map.
Qed.

Lemma wf_owner (d : db) (t : tweet) :
  wf d -> In t (tweets d) ->
  exists! u, In u (users d) /\ u_id u = t_user_id t.
Proof.
  intros Hwf Hin.
  destruct (tweets_user_id_fkey Hwf t Hin) as (u & Hu & E).
  exists u. split; [auto|].
  intros u' [Hu' E'].
  eapply NoDup_map_eq; [apply (users_pkey Hwf)| | |]; congruence.
Qed.

Lemma createTweet_owner (sanitizeHTML : text -> text) (content : text)
    (new_id : uuid) (now : timestamp) (d d' : db) (me : user) :
  createTweet sanitizeHTML content new_id now d (Some me) = (d', Ok tt) ->
  tweets d' = tweets d ++
              [{| t_id := new_id; t_user_id := u_id me;
                  t_content := sanitizeHTML content;
                  t_created_at := now; t_updated_at := now |}]
  /\ users d' = users d
  /\ has_key u_id (users d) (u_id me) = true.
Proof.
  unfold createTweet. intros H.
  destruct (exec now _ d) as [d1|e] eqn:E; [|discriminate].
  injection H as <-. simpl in E. inv_exec E. simpl. auto.
Qed.

(** C7: every tweet is owned by exactly one user.  After any statement,
    each row of the tweets table carries one [user_id] (a value, never a
    NULL) and exactly one row of the users table has that id; an insert
    without a [user_id] is refused, and so is one whose [user_id] names no
    user; a tweet that [createTweet] stores belongs to the user of the
    session. *)
Theorem tweet_owned_by_one_user (now : timestamp) (s : stmt) (d : db) :
  wf d ->
  (forall t, In t (tweets (step now s d)) ->
     exists! u, In u (users (step now s d)) /\ u_id u = t_user_id t)
  /\ (forall id content,
        exec now (InsertTweet id None content) d
        = Throw (DbError (NotNullViolation "user_id")))
  /\ (forall id u content,
        has_key u_id (users d) u = false ->
        forall d', exec now (InsertTweet id (Some u) content) d <> Ok d')
  /\ (forall sanitizeHTML content new_id me d',
        createTweet sanitizeHTML content new_id now d (Some me) = (d', Ok tt) ->
        exists t, tweets d' = tweets d ++ [t]
                  /\ t_user_id t = u_id me
                  /\ exists! u, In u (users d') /\ u_id u = u_id me).
Proof.
  intros Hwf. split; [|split; [|split]].
  - intros t Hin. apply wf_owner; [now apply step_wf|assumption].
  - reflexivity.
  - intros id u content Hu d' H. simpl in H.
    unfold insert_tweet, not_null, check in H.
    destruct content; simpl in H; [|discriminate].
    destruct (negb _); simpl in H; [|discriminate].
    rewrite Hu in H. discriminate.
  - intros sanitizeHTML content new_id me d' H.
    destruct (createTweet_owner _ _ _ _ _ _ H) as (Ht & Hu & Hk).
    eexists. split; [exact Ht|]. split; [reflexivity|].
    apply has_key_true in Hk as (u & Hin & E).
    exists u. rewrite Hu. split; [auto|].
    intros u' [Hin' E'].
    eapply NoDup_map_eq; [apply (users_pkey Hwf)| | |]; congruence.
Qed.

Lemma tweet_owned_by_one_user_witness :
  exists! u,
    In u (users (step 11%Z (InsertTweet 14 (Some 2) (Some (JS.lit "hi"))) sample_db))
    /\ u_id u = 2.
Proof.
  apply (proj1 (tweet_owned_by_one_user 11%Z
                  (InsertTweet 14 (Some 2) (Some (JS.lit "hi"))) sample_db_wf)
               {| t_id := 14; t_user_id := 2; t_content := JS.lit "hi";
                  t_created_at := 11%Z; t_updated_at := 11%Z |}).
  vm_compute. tauto.
Defined.

(** ** What the schema enforces and what it leaves to the application *)

Lemma strictly_zero_of_nat (n : nat) :
  strictly_zero (VNumber (number_of_nat n)) = (n =? 0)%nat.
Proof.
  unfold strictly_zero, number_of_nat, Qeq_bool, inject_Z. simpl.
  rewrite Z.mul_1_r. destruct n; reflexivity.
Qed.

Lemma number_gt_of_nat (n : nat) :
  number_gt (number_of_nat n) 280%Q = (280 <? n)%nat.
Proof.
  unfold number_gt, number_of_nat.
  destruct (Nat.ltb_spec 280 n) as [L|L].
  - apply negb_true_iff, not_true_iff_false. intros H.
    apply Qle_bool_iff in H.
    change 280%Q with (inject_Z 280) in H. rewrite <- Zle_Qle in H. lia.
  - apply negb_false_iff, Qle_bool_iff.
    change 280%Q with (inject_Z 280). rewrite <- Zle_Qle. lia.
Qed.

(** The middleware on a length that is a Number: the length of a String or
    of an Array. *)
Lemma validateTweet_length (ToNumber : value -> option number)
    (content : value) (n : nat) :
  truthy content = true ->
  get_length content = VNumber (number_of_nat n) ->
  (validateTweet ToNumber content = Next <-> (1 <= n <= 280)%nat).
Proof.
  intros T G. unfold validateTweet. rewrite T, G, strictly_zero_of_nat.
  cbn [negb to_number]. rewrite number_gt_of_nat.
  destruct (Nat.eqb_spec n 0) as [E|E].
  - split; [discriminate|lia].
  - destruct (Nat.ltb_spec 280 n) as [L|L].
    + split; [discriminate|lia].
    + split; [lia|reflexivity].
Qed.

Lemma validateTweet_next (ToNumber : value -> option number) (c : text) :
  validateTweet ToNumber (VString c) = Next <-> (1 <= length c <= 280)%nat.
Proof.
  destruct c as [|u c].
  - split; [discriminate|simpl; lia].
  - now apply validateTweet_length.
Qed.




Lemma createTweet_validate_valid (c : text) :
  createTweet_validate c = Valid -> (1 <= length c <= 280)%nat.
Proof.
  unfold createTweet_validate.
  destruct (Nat.eqb_spec (length c) 0) as [E|E]; simpl; [discriminate|].
  destruct (length (trim c) =? 0)%nat; [discriminate|].
  destruct (Nat.ltb_spec 280 (length c)); [discriminate|]. lia.
Qed.





(** ** deleteTweet *)

Lemma has_key_filter_eqb {A} (key : A -> uuid) (rows : list A) (id k : uuid) :
  has_key key rows id = true ->
  has_key key (filter (fun r => key r =? id) rows) k = (k =? id).
Proof.
  intros H. destruct (N.eqb_spec k id) as [->|Hne].
  - apply has_key_true in H as (r & Hin & E).
    apply has_key_true. exists r. split; auto.
    apply filter_In. split; auto. now apply N.eqb_eq.
  - apply has_key_false. intros Hin.
    apply in_map_iff in Hin as (r & E & Hin).
    apply filter_In in Hin as [_ Hin]. apply N.eqb_eq in Hin. congruence.
Qed.

Lemma remaining_ext {A} (p q : A -> bool) (rows : list A) :
  (forall r, p r = q r) -> remaining p rows = remaining q rows.
Proof.
  intros H. unfold remaining. apply filter_ext. intros r. now rewrite H.
Qed.

(** C4: when [deleteTweet id] succeeds, the tweet with that id is gone, and
    so is every row of the likes and retweets tables that references it;
    exactly those rows are removed. *)
Theorem deleteTweet_cascades (id : uuid) (now : timestamp) (d d' : db)
    (me : user) (b : bool) :
  deleteTweet id now d (Some me) = (d', Ok b) ->
  (forall t, In t (tweets d') -> t_id t <> id)
  /\ (forall l, In l (likes d') -> l_tweet_id l <> id)
  /\ (forall r, In r (retweets d') -> r_tweet_id r <> id)
  /\ tweets d' = remaining (fun t => t_id t =? id) (tweets d)
  /\ likes d' = remaining (fun l => l_tweet_id l =? id) (likes d)
  /\ retweets d' = remaining (fun r => r_tweet_id r =? id) (retweets d).
Proof.
  unfold deleteTweet. intros H.
  destruct (find _ (tweets d)) as [t|] eqn:F; [|discriminate].
  destruct (t_user_id t =? u_id me); [|discriminate].
  simpl in H. injection H as <- _.
  assert (has_key t_id (tweets d) id = true) as Hk.
  { apply find_some in F as [Hin E]. apply has_key_true.
    exists t. split; auto. now apply N.eqb_eq. }
  assert (forall A (key : A -> uuid) rows,
            remaining (fun r => has_key t_id
                                  (filter (fun t' => t_id t' =? id) (tweets d))
                                  (key r)) rows
            = remaining (fun r => key r =? id) rows) as Hrem.
  { intros A key rows. apply remaining_ext. intros r.
    now apply has_key_filter_eqb. }
  unfold delete_tweets. simpl. rewrite !Hrem.
  repeat split; try reflexivity;
    intros r Hin E; apply remaining_In in Hin as [_ Hin];
    apply N.eqb_neq in Hin; contradiction.
Qed.

Lemma deleteTweet_cascades_witness :
  (forall l, In l (likes (fst (deleteTweet 11 11%Z sample_db (Some bob)))) ->
             l_tweet_id l <> 11)
  /\ (forall r, In r (retweets (fst (deleteTweet 11 11%Z sample_db (Some bob)))) ->
                r_tweet_id r <> 11).
Proof.
  pose proof (@deleteTweet_cascades 11 11%Z sample_db
                (fst (deleteTweet 11 11%Z sample_db (Some bob))) bob true
                ltac:(vm_compute; reflexivity)) as (_ & Hl & Hr & _).
  split; assumption.
Defined.

(** ** likeTweet *)

(** C10: when a user who has already liked a tweet invokes [likeTweet] on
    it again, the operation fails with the DUPLICATE error and the database,
    the likes table included, is what it was. *)
Theorem likeTweet_twice_duplicate (tweetId new_id : uuid) (now : timestamp)
    (d : db) (me : user) :
  (exists l, In l (likes d) /\ l_user_id l = u_id me /\ l_tweet_id l = tweetId) ->
  likeTweet tweetId new_id now d (Some me) = (d, Throw Duplicate)
  /\ likes (fst (likeTweet tweetId new_id now d (Some me))) = likes d.
Proof.
  intros Hliked.
  assert (likeTweet tweetId new_id now d (Some me) = (d, Throw Duplicate)) as E.
  { apply has_pair_true in Hliked.
    unfold likeTweet. simpl. unfold insert_like, not_null, check. simpl.
    destruct (has_key l_id (likes d) new_id); simpl; [reflexivity|].
    rewrite Hliked. reflexivity. }
  rewrite E. auto.
Qed.

Lemma likeTweet_twice_duplicate_witness :
  likeTweet 11 33 11%Z sample_db (Some ann) = (sample_db, Throw Duplicate)
  /\ likes (fst (likeTweet 11 33 11%Z sample_db (Some ann))) = likes sample_db.
Proof.
  apply likeTweet_twice_duplicate.
  exists {| l_id := 30; l_user_id := 1; l_tweet_id := 11; l_created_at := 8%Z |}.
  vm_compute. auto.
Defined.

(** ** createUserAvatarUrl *)

Module JSFacts.
Import JS.

(** Induction that follows [encodeURIComponent]: one code unit, or a
    surrogate pair, at a time. *)
Lemma jsstring_ind2 (P : jsstring -> Prop) :
  P [] ->
  (forall c, P [c]) ->
  (forall c d s, P s -> P (d :: s) -> P (c :: d :: s)) ->
  forall s, P s.
Proof.
  intros H0 H1 H2 s.
  assert (P s /\ forall c, P (c :: s)) as [H _]; [|exact H].
  induction s as [|d s [IH1 IH2]]; split; auto.
Qed.

Lemma is_unreserved_ascii (c : code_unit) :
  is_unreserved c = true -> c < 128.
Proof.
  unfold is_unreserved, is_alnum, in_range.
  set (marks := uri_marks). vm_compute in marks. subst marks. simpl.
  rewrite !orb_true_iff, !andb_true_iff, !N.leb_le, !N.eqb_eq. lia.
Qed.

Lemma unreserved_not_surrogate (c : code_unit) :
  is_unreserved c = true ->
  is_low_surrogate c = false /\ is_high_surrogate c = false.
Proof.
  intros H. apply is_unreserved_ascii in H.
  unfold is_low_surrogate, is_high_surrogate, in_range.
  rewrite !andb_false_iff, !N.leb_gt. lia.
Qed.

Lemma hex_digit_alnum (n : N) : is_alnum (hex_digit n) = true.
Proof.
  unfold hex_digit.
  set (digits := lit "0123456789ABCDEF"). vm_compute in digits. subst digits.
  generalize (N.to_nat n). intros m.
  do 16 (destruct m as [|m]; [reflexivity|]).
  simpl. destruct m; reflexivity.
Qed.

Lemma escape_octet_safe (b : N) : forallb is_uri_safe (escape_octet b) = true.
Proof.
  unfold escape_octet, is_uri_safe, is_unreserved. simpl.
  rewrite !hex_digit_alnum. reflexivity.
Qed.

Lemma forallb_flat_map {A B} (p : B -> bool) (f : A -> list B) (l : list A) :
  (forall x, forallb p (f x) = true) -> forallb p (flat_map f l) = true.
Proof.
  intros H. induction l as [|x l IH]; simpl; [reflexivity|].
  rewrite forallb_app, H, IH. reflexivity.
Qed.

Lemma escape_code_point_safe (cp : N) :
  forallb is_uri_safe (escape_code_point cp) = true.
Proof. apply forallb_flat_map, escape_octet_safe. Qed.

Lemma encodeURIComponent_cons (c : code_unit) (rest : jsstring) :
  encodeURIComponent (c :: rest) =
  if is_unreserved c then
    r <- encodeURIComponent rest ;; Ok (c :: r)
  else if is_low_surrogate c then Throw URIError
  else if is_high_surrogate c then
    match rest with
    | d :: rest' =>
        if is_low_surrogate d then
          r <- encodeURIComponent rest' ;;
          Ok (escape_code_point (surrogate_pair c d) ++ r)
        else Throw URIError
    | [] => Throw URIError
    end
  else
    r <- encodeURIComponent rest ;; Ok (escape_code_point c ++ r).
Proof. reflexivity. Qed.

Lemma well_formed_cons (c : code_unit) (rest : jsstring) :
  well_formed (c :: rest) =
  if is_low_surrogate c then false
  else if is_high_surrogate c then
    match rest with
    | d :: rest' => is_low_surrogate d && well_formed rest'
    | [] => false
    end
  else well_formed rest.
Proof. reflexivity. Qed.

Ltac bind_case H :=
  match type of H with
  | bind ?e _ = Ok _ =>
      let E := fresh "E" in
      destruct e eqn:E; unfold bind in H; [|discriminate H];
      injection H as <-
  end.

(** The output of [encodeURIComponent] is made of unreserved characters and
    percent signs. *)
Lemma encodeURIComponent_safe (s r : jsstring) :
  encodeURIComponent s = Ok r -> forallb is_uri_safe r = true.
Proof.
  revert r. induction s as [| c | c d s IH1 IH2] using jsstring_ind2; intros r H.
  - injection H as <-. reflexivity.
  - rewrite encodeURIComponent_cons in H. destruct (is_unreserved c) eqn:U.
    + injection H as <-. simpl. unfold is_uri_safe at 1. now rewrite U.
    + destruct (is_low_surrogate c); [discriminate|].
      destruct (is_high_surrogate c); [discriminate|].
      injection H as <-. rewrite app_nil_r. apply escape_code_point_safe.
  - rewrite encodeURIComponent_cons in H.
    destruct (is_unreserved c) eqn:U.
    + bind_case H. simpl. unfold is_uri_safe at 1. rewrite U. now apply IH2.
    + destruct (is_low_surrogate c); [discriminate|].
      destruct (is_high_surrogate c).
      * destruct (is_low_surrogate d); [|discriminate].
        bind_case H.
        rewrite forallb_app, escape_code_point_safe. now apply IH1.
      * bind_case H.
        rewrite forallb_app, escape_code_point_safe. now apply IH2.
Qed.

(** [encodeURIComponent] returns exactly on the well-formed strings. *)
Lemma encodeURIComponent_returns (s : jsstring) :
  (well_formed s = true -> exists r, encodeURIComponent s = Ok r)
  /\ (well_formed s = false -> encodeURIComponent s = Throw URIError).
Proof.
  induction s as [| c | c d s [IH1 IH1'] [IH2 IH2']] using jsstring_ind2.
  - split; [intros _; eexists; reflexivity|discriminate].
  - rewrite encodeURIComponent_cons, well_formed_cons.
    destruct (is_unreserved c) eqn:U.
    + destruct (unreserved_not_surrogate _ U) as [-> ->]. split; [intros _; eexists; reflexivity|discriminate].
    + destruct (is_low_surrogate c); [split; [discriminate|reflexivity]|].
      destruct (is_high_surrogate c); split;
        first [discriminate | reflexivity | intros _; eexists; reflexivity].
  - rewrite encodeURIComponent_cons, well_formed_cons.
    destruct (is_unreserved c) eqn:U.
    + destruct (unreserved_not_surrogate _ U) as [-> ->].
      split; intros W.
      * destruct (IH2 W) as [r ->]. simpl. eauto.
      * rewrite (IH2' W). reflexivity.
    + destruct (is_low_surrogate c); [split; [discriminate|reflexivity]|].
      destruct (is_high_surrogate c).
      * destruct (is_low_surrogate d); simpl; [|split; [discriminate|reflexivity]].
        split; intros W.
        -- destruct (IH1 W) as [r ->]. simpl. eauto.
        -- rewrite (IH1' W). reflexivity.
      * split; intros W.
        -- destruct (IH2 W) as [r ->]. simpl. eauto.
        -- rewrite (IH2' W). reflexivity.
Qed.

Lemma reserved_not_safe (c : code_unit) :
  In c uri_reserved -> is_uri_safe c = false.
Proof.
  set (reserved := uri_reserved). vm_compute in reserved. subst reserved.
  intros H. repeat (destruct H as [<-|H]; [reflexivity|]). contradiction.
Qed.

(** Every octet of the UTF-8 form of a code point is a byte. *)
Lemma utf8_octets (cp b : N) :
  cp < 1114112 -> In b (utf8 cp) -> b < 256.
Proof.
  unfold utf8. intros Hcp.
  pose proof (N.mod_lt cp 64 ltac:(lia)) as M0.
  pose proof (N.mod_lt (cp / 64) 64 ltac:(lia)) as M1.
  pose proof (N.mod_lt (cp / 4096) 64 ltac:(lia)) as M2.
  assert (cp < 2048 -> cp / 64 < 32) as D1
    by (intros; apply N.Div0.div_lt_upper_bound; lia).
  assert (cp < 65536 -> cp / 4096 < 16) as D2
    by (intros; apply N.Div0.div_lt_upper_bound; lia).
  assert (cp / 262144 < 8) as D3
    by (apply N.Div0.div_lt_upper_bound; lia).
  destruct (N.ltb_spec cp 128); [|destruct (N.ltb_spec cp 2048);
    [|destruct (N.ltb_spec cp 65536)]];
    cbn [In]; intros Hin;
    repeat (destruct Hin as [<-|Hin]; [lia|]); contradiction.
Qed.

Lemma reserved_ascii (c : code_unit) :
  In c uri_reserved -> c < 128 /\ is_unreserved c = false.
Proof.
  set (reserved := uri_reserved). vm_compute in reserved. subst reserved.
  intros H.
  repeat (destruct H as [<-|H]; [split; [lia|reflexivity]|]). contradiction.
Qed.

Lemma nth_hex_digits (m : nat) :
  (m < 16)%nat ->
  nth m (lit "0123456789ABCDEF") 48
  = if N.of_nat m <? 10 then 48 + N.of_nat m else 55 + N.of_nat m.
Proof.
  intros H. do 16 (destruct m as [|m]; [reflexivity|]). lia.
Qed.

(** The digits of an escape: ['0'] to ['9'], then ['A'] to ['F']. *)
Lemma hex_digit_upper (n : N) :
  n < 16 -> hex_digit n = if n <? 10 then 48 + n else 55 + n.
Proof.
  intros H. unfold hex_digit. rewrite nth_hex_digits by lia.
  now rewrite N2Nat.id.
Qed.

(** The escape of an ASCII character: ["%"] and the two digits of its
    code. *)
Lemma escape_ascii (c : code_unit) :
  c < 128 ->
  escape_code_point c
  = [37; if c / 16 <? 10 then 48 + c / 16 else 55 + c / 16;
         if c mod 16 <? 10 then 48 + c mod 16 else 55 + c mod 16].
Proof.
  intros H. unfold escape_code_point, utf8.
  destruct (N.ltb_spec c 128); [|lia].
  cbn [flat_map]. rewrite app_nil_r. unfold escape_octet, percent.
  rewrite !hex_digit_upper; [reflexivity| |].
  - apply N.mod_lt. lia.
  - apply N.Div0.div_lt_upper_bound. lia.
Qed.

(** The encoding of a string is the encoding of what precedes a character
    followed by the encoding of the rest, for a character that is not the
    second half of a surrogate pair. *)
Lemma encodeURIComponent_split (pre : jsstring) :
  forall c post seed,
    encodeURIComponent (pre ++ c :: post) = Ok seed ->
    is_low_surrogate c = false ->
    exists s1 s2,
      encodeURIComponent pre = Ok s1
      /\ encodeURIComponent (c :: post) = Ok s2
      /\ seed = s1 ++ s2.
Proof.
  induction pre as [| a | a b pre IH1 IH2] using jsstring_ind2;
    intros c post seed H Lc.
  - exists [], seed. auto.
  - change ([a] ++ c :: post) with (a :: c :: post) in H.
    rewrite encodeURIComponent_cons in H.
    rewrite encodeURIComponent_cons.
    destruct (is_unreserved a) eqn:U.
    + bind_case H. exists [a]. eexists. cbn [encodeURIComponent bind]. auto.
    + destruct (is_low_surrogate a); [discriminate|].
      destruct (is_high_surrogate a).
      * rewrite Lc in H. discriminate.
      * bind_case H. eexists. eexists. cbn [encodeURIComponent bind].
        split; [reflexivity|]. split; [reflexivity|].
        now rewrite app_nil_r.
  - change ((a :: b :: pre) ++ c :: post) with (a :: b :: pre ++ c :: post) in H.
    rewrite encodeURIComponent_cons in H.
    rewrite (encodeURIComponent_cons a).
    destruct (is_unreserved a) eqn:U.
    + bind_case H.
      destruct (IH2 c post _ E Lc) as (s1 & s2 & E1 & E2 & ->).
      exists (a :: s1), s2. rewrite E1. auto.
    + destruct (is_low_surrogate a); [discriminate|].
      destruct (is_high_surrogate a).
      * destruct (is_low_surrogate b); [|discriminate].
        bind_case H.
        destruct (IH1 c post _ E Lc) as (s1 & s2 & E1 & E2 & ->).
        eexists. exists s2. rewrite E1. cbn [bind].
        split; [reflexivity|]. split; [assumption|]. now rewrite app_assoc.
      * bind_case H.
        destruct (IH2 c post _ E Lc) as (s1 & s2 & E1 & E2 & ->).
        eexists. exists s2. rewrite E1. cbn [bind].
        split; [reflexivity|]. split; [assumption|]. now rewrite app_assoc.
Qed.

(** What becomes of one ASCII character of the input. *)
Lemma encodeURIComponent_ascii (pre post seed : jsstring) (c : code_unit) :
  encodeURIComponent (pre ++ c :: post) = Ok seed ->
  c < 128 ->
  exists s1 s2,
    encodeURIComponent pre = Ok s1
    /\ encodeURIComponent post = Ok s2
    /\ seed = s1 ++ (if is_unreserved c then [c] else escape_code_point c) ++ s2.
Proof.
  intros H Hc.
  assert (is_low_surrogate c = false /\ is_high_surrogate c = false) as [Lc Hi].
  { unfold is_low_surrogate, is_high_surrogate, in_range.
    rewrite !andb_false_iff, !N.leb_gt. lia. }
  destruct (@encodeURIComponent_split pre c post seed H Lc)
    as (s1 & s2 & E1 & E2 & ->).
  rewrite encodeURIComponent_cons, Lc, Hi in E2.
  destruct (is_unreserved c); bind_case E2; exists s1; eexists; eauto.
Qed.

End JSFacts.

(** C9, as stated, fails: [createUserAvatarUrl] is not total.  On the
    one-unit string made of the high surrogate U+D800, a String value like
    any other, [encodeURIComponent] throws a URIError and no URL is
    returned. *)
Lemma createUserAvatarUrl_lone_surrogate :
  Forall JS.is_code_unit [55296]
  /\ createUserAvatarUrl [55296] = Throw URIError.
Proof.
  split; [|reflexivity].
  constructor; [unfold JS.is_code_unit; lia|constructor].
Qed.

(** C9, amended: for every email without an unpaired surrogate
    [createUserAvatarUrl] returns
    ["https://api.dicebear.com/7.x/avataaars/svg?seed="], then
    [encodeURIComponent email], then ["&scale=80"].  In the seed every
    unreserved character of the email stands as it is and every other ASCII
    character, so each reserved character [; / ? : @ & = + $ , #], is
    replaced by ["%"] and the two upper-case hexadecimal digits of its code;
    the seed is made of unreserved characters and percent signs only.  For
    an email with an unpaired surrogate the function throws a URIError. *)
Theorem createUserAvatarUrl_encodes (email : JS.jsstring) :
  (JS.well_formed email = true ->
   exists seed,
     JS.encodeURIComponent email = Ok seed
     /\ createUserAvatarUrl email
        = Ok (JS.lit "https://api.dicebear.com/7.x/avataaars/svg?seed="
              ++ seed ++ JS.lit "&scale=80")
     /\ forallb JS.is_uri_safe seed = true
     /\ (forall c, In c seed -> ~ In c JS.uri_reserved)
     /\ (forall pre c post,
           email = pre ++ c :: post -> c < 128 -> JS.is_unreserved c = false ->
           exists s1 s2,
             JS.encodeURIComponent pre = Ok s1
             /\ JS.encodeURIComponent post = Ok s2
             /\ seed
                = s1
                  ++ [37;
                      if c / 16 <? 10 then 48 + c / 16 else 55 + c / 16;
                      if c mod 16 <? 10 then 48 + c mod 16 else 55 + c mod 16]
                  ++ s2)
     /\ (forall pre c post,
           email = pre ++ c :: post -> JS.is_unreserved c = true ->
           exists s1 s2,
             JS.encodeURIComponent pre = Ok s1
             /\ JS.encodeURIComponent post = Ok s2
             /\ seed = s1 ++ c :: s2))
  /\ (forall c, In c JS.uri_reserved -> c < 128 /\ JS.is_unreserved c = false)
  /\ (JS.well_formed email = false -> createUserAvatarUrl email = Throw URIError).
Proof.
  destruct (JSFacts.encodeURIComponent_returns email) as [Hok Herr].
  split; [|split].
  - intros W. destruct (Hok W) as [seed E].
    pose proof (JSFacts.encodeURIComponent_safe _ E) as Hsafe.
    exists seed. split; [assumption|].
    split; [unfold createUserAvatarUrl; rewrite E; reflexivity|].
    split; [assumption|]. split; [|split].
    + intros c Hin Hres.
      rewrite forallb_forall in Hsafe. specialize (Hsafe c Hin).
      rewrite (JSFacts.reserved_not_safe Hres) in Hsafe. discriminate.
    + intros pre c post -> Hc U.
      destruct (@JSFacts.encodeURIComponent_ascii pre post seed c E Hc)
        as (s1 & s2 & E1 & E2 & ->).
      exists s1, s2. rewrite U, (JSFacts.escape_ascii Hc). auto.
    + intros pre c post -> U.
      destruct (@JSFacts.encodeURIComponent_ascii pre post seed c E
                  (JSFacts.is_unreserved_ascii _ U))
        as (s1 & s2 & E1 & E2 & ->).
      exists s1, s2. rewrite U. auto.
  - apply JSFacts.reserved_ascii.
  - intros W. unfold createUserAvatarUrl. rewrite (Herr W). reflexivity.
Qed.

Lemma createUserAvatarUrl_encodes_witness :
  JS.encodeURIComponent (JS.lit "a+b@x.io") = Ok (JS.lit "a%2Bb%40x.io")
  /\ createUserAvatarUrl (JS.lit "a+b@x.io")
     = Ok (JS.lit "https://api.dicebear.com/7.x/avataaars/svg?seed=a%2Bb%40x.io&scale=80").
Proof.
  destruct (proj1 (createUserAvatarUrl_encodes (JS.lit "a+b@x.io")))
    as (seed & E & Hurl & _ & _ & Hesc & _); [vm_compute; reflexivity|].
  destruct (Hesc (JS.lit "a") 43 (JS.lit "b@x.io"))
    as (s1 & s2 & E1 & E2 & Hseed);
    [vm_compute; reflexivity|lia|vm_compute; reflexivity|].
  vm_compute in E1. injection E1 as <-.
  vm_compute in E2. injection E2 as <-.
  vm_compute in Hseed. subst seed.
  split; [exact E|]. rewrite Hurl. vm_compute. reflexivity.
Defined.

Example createUserAvatarUrl_plus_at :
  createUserAvatarUrl (JS.lit "a+b@x.io")
  = Ok (JS.lit "https://api.dicebear.com/7.x/avataaars/svg?seed=a%2Bb%40x.io&scale=80").
Proof. vm_compute. reflexivity. Qed.

(** U+00E9 and the pair D83D DE00 (U+1F600):
    ["%C3%A9"] and ["%F0%9F%98%80"]. *)
Example encodeURIComponent_utf8 :
  JS.encodeURIComponent [233; 55357; 56832] = Ok (JS.lit "%C3%A9%F0%9F%98%80").
Proof. vm_compute. reflexivity. Qed.

(** ** Joins, groups and order *)

Lemma flat_map_flat_map {A B C} (f : A -> list B) (g : B -> list C) (xs : list A) :
  flat_map g (flat_map f xs) = flat_map (fun x => flat_map g (f x)) xs.
Proof.
  induction xs as [|x xs IH]; simpl; [reflexivity|].
  now rewrite flat_map_app, IH.
Qed.

Lemma filter_flat_map {A B} (p : B -> bool) (f : A -> list B) (xs : list A) :
  filter p (flat_map f xs) = flat_map (fun x => filter p (f x)) xs.
Proof.
  induction xs as [|x xs IH]; simpl; [reflexivity|].
  now rewrite filter_app, IH.
Qed.

Lemma flat_map_where {A B} (q : A -> bool) (f : A -> list B) (xs : list A) :
  flat_map (fun x => if q x then f x else []) xs = flat_map f (filter q xs).
Proof.
  induction xs as [|x xs IH]; simpl; [reflexivity|].
  destruct (q x); simpl; now rewrite IH.
Qed.

Lemma filter_all {A} (p : A -> bool) (xs : list A) :
  (forall x, In x xs -> p x = true) -> filter p xs = xs.
Proof.
  induction xs as [|x xs IH]; simpl; intros H; [reflexivity|].
  rewrite (H x) by auto. f_equal. auto.
Qed.

Lemma filter_none {A} (p : A -> bool) (xs : list A) :
  (forall x, In x xs -> p x = false) -> filter p xs = [].
Proof.
  induction xs as [|x xs IH]; simpl; intros H; [reflexivity|].
  rewrite (H x) by auto. auto.
Qed.

Section JoinFacts.
Context {A B : Type}.
Variable on : A -> B -> bool.

Lemma left_join_flat_map {T} (g : T -> list A) (ts : list T) (ys : list B) :
  left_join on (flat_map g ts) ys = flat_map (fun t => left_join on (g t) ys) ts.
Proof. unfold left_join. apply flat_map_flat_map. Qed.

Lemma inner_join_each (xs : list A) (ys : list B) :
  inner_join on xs ys = flat_map (fun x => inner_join on [x] ys) xs.
Proof.
  unfold inner_join. apply flat_map_ext. intros x. simpl. now rewrite app_nil_r.
Qed.

Lemma in_inner_join (xs : list A) (ys : list B) (x : A) (y : B) :
  In (x, y) (inner_join on xs ys) <-> In x xs /\ In y ys /\ on x y = true.
Proof.
  unfold inner_join. rewrite in_flat_map. split.
  - intros (x' & Hx & Hin). apply in_map_iff in Hin as (y' & E & Hy).
    injection E as -> ->. apply filter_In in Hy. tauto.
  - intros (Hx & Hy & Hon). exists x. split; auto.
    apply in_map. apply filter_In. auto.
Qed.

Lemma in_left_join_some (xs : list A) (ys : list B) (x : A) (y : B) :
  In (x, Some y) (left_join on xs ys) <-> In x xs /\ In y ys /\ on x y = true.
Proof.
  unfold left_join. rewrite in_flat_map. split.
  - intros (x' & Hx & Hin).
    destruct (filter (on x') ys) as [|y0 m] eqn:F.
    + destruct Hin as [E|[]]. discriminate.
    + apply in_map_iff in Hin as (y' & E & Hy). injection E as -> ->.
      rewrite <- F in Hy. apply filter_In in Hy. tauto.
  - intros (Hx & Hy & Hon). exists x. split; auto.
    assert (In y (filter (on x) ys)) as Hf by (apply filter_In; auto).
    destruct (filter (on x) ys) as [|y0 m]; [contradiction|].
    apply (in_map (fun y' => (x, Some y'))). assumption.
Qed.

Lemma in_left_join_fst (xs : list A) (ys : list B) (x : A) (o : option B) :
  In (x, o) (left_join on xs ys) -> In x xs.
Proof.
  unfold left_join. rewrite in_flat_map. intros (x' & Hx & Hin).
  destruct (filter (on x') ys) as [|y0 m].
  - destruct Hin as [E|[]]. now injection E as -> _.
  - apply in_map_iff in Hin as (y' & E & _). now injection E as -> _.
Qed.

Lemma left_join_total (xs : list A) (ys : list B) (x : A) :
  In x xs -> exists o, In (x, o) (left_join on xs ys).
Proof.
  intros Hx. unfold left_join.
  destruct (filter (on x) ys) as [|y0 m] eqn:F.
  - exists None. apply in_flat_map. exists x. rewrite F. simpl. auto.
  - exists (Some y0). apply in_flat_map. exists x. rewrite F. simpl. auto.
Qed.

End JoinFacts.

Lemma in_non_null {B} (vs : list (option B)) (b : B) :
  In b (non_null vs) <-> In (Some b) vs.
Proof.
  unfold non_null. rewrite in_flat_map. split.
  - intros ([b'|] & Hin & H); simpl in H; [|contradiction].
    destruct H as [->|[]]. assumption.
  - intros H. exists (Some b). simpl. auto.
Qed.

Section GroupFacts.
Context {A K : Type}.
Variable eqb : K -> K -> bool.
Hypothesis eqb_eq : forall a b, eqb a b = true <-> a = b.

Lemma in_distinct (ks : list K) (k : K) : In k (distinct eqb ks) <-> In k ks.
Proof.
  induction ks as [|k0 ks IH]; simpl; [reflexivity|].
  rewrite filter_In, IH, negb_true_iff.
  split.
  - tauto.
  - intros [->|H]; auto.
    destruct (eqb k k0) eqn:E; [left; symmetry; now apply eqb_eq|auto].
Qed.

Lemma NoDup_distinct (ks : list K) : NoDup (distinct eqb ks).
Proof.
  induction ks as [|k0 ks IH]; simpl; constructor.
  - rewrite filter_In, negb_true_iff. intros [_ H].
    assert (eqb k0 k0 = true) by now apply eqb_eq. congruence.
  - now apply NoDup_filter.
Qed.

(** Distinct values counted against a duplicate-free list of the same
    values. *)
Lemma length_distinct (ks ks' : list K) :
  NoDup ks' -> (forall k, In k ks <-> In k ks') ->
  length (distinct eqb ks) = length ks'.
Proof.
  intros Hnd Hiff. apply Permutation_length.
  apply NoDup_Permutation; auto using NoDup_distinct.
  intros k. now rewrite in_distinct.
Qed.

Lemma filter_filter_same (p : K -> bool) (ks : list K) :
  filter p (filter p ks) = filter p ks.
Proof.
  apply filter_all. intros k H. apply filter_In in H. tauto.
Qed.

Lemma distinct_run (k : K) (run rest : list K) :
  (forall x, In x run -> x = k) ->
  filter (fun k' => negb (eqb k' k)) (distinct eqb (run ++ rest))
  = filter (fun k' => negb (eqb k' k)) (distinct eqb rest).
Proof.
  induction run as [|x run IH]; simpl; intros H; [reflexivity|].
  rewrite (H x) by auto.
  assert (eqb k k = true) as -> by now apply eqb_eq. simpl.
  rewrite filter_filter_same. auto.
Qed.

Variable T : Type.
Variable key : A -> K.
Variable k : T -> K.
Variable f : T -> list A.

(** Grouping the rows of [flat_map f ts], where the rows of each [f t] share
    the key [k t] and the keys [k t] differ, gives back the lists [f t]. *)
Lemma group_by_flat_map (ts : list T) :
  NoDup (map k ts) ->
  (forall t, In t ts -> f t <> [] /\ forall x, In x (f t) -> key x = k t) ->
  group_by eqb key (flat_map f ts) = map f ts.
Proof.
  intros Hnd Hf. unfold group_by.
  assert (distinct eqb (map key (flat_map f ts)) = map k ts) as ->.
  { induction ts as [|t ts IH]; simpl; [reflexivity|].
    inversion Hnd as [|? ? Hk Hnd']; subst.
    destruct (Hf t (or_introl eq_refl)) as [Hne Hkey].
    rewrite map_app.
    destruct (f t) as [|x xs] eqn:F; [congruence|].
    simpl. rewrite (Hkey x) by (simpl; auto). f_equal.
    rewrite distinct_run.
    - rewrite IH; auto.
      + apply filter_all. intros k' Hin. apply negb_true_iff.
        destruct (eqb k' (k t)) eqn:E; auto.
        apply eqb_eq in E. congruence.
      + intros t' Hin. apply Hf. simpl. auto.
    - intros k' Hin. apply in_map_iff in Hin as (x' & <- & Hin).
      apply Hkey. simpl. auto. }
  rewrite map_map. apply map_ext_in. intros t Hin.
  clear - eqb_eq Hnd Hf Hin.
  induction ts as [|t0 ts IH]; [contradiction|].
  inversion Hnd as [|? ? Hk Hnd']; subst.
  simpl. rewrite filter_app.
  destruct Hin as [->|Hin].
  - rewrite filter_all, filter_none; [apply app_nil_r| |].
    + intros x Hx. apply in_flat_map in Hx as (t' & Ht' & Hx).
      destruct (Hf t' (or_intror Ht')) as [_ Hkey].
      rewrite (Hkey x Hx).
      destruct (eqb (k t') (k t)) eqn:E; auto.
      apply eqb_eq in E. exfalso. apply Hk. rewrite <- E. now apply in_map.
    + intros x Hx. destruct (Hf t (or_introl eq_refl)) as [_ Hkey].
      rewrite (Hkey x Hx). now apply eqb_eq.
  - rewrite filter_none; simpl.
    + apply IH; auto. intros t' Ht'. apply Hf. simpl. auto.
    + intros x Hx. destruct (Hf t0 (or_introl eq_refl)) as [_ Hkey].
      rewrite (Hkey x Hx).
      destruct (eqb (k t0) (k t)) eqn:E; auto.
      apply eqb_eq in E. exfalso. apply Hk. rewrite E. now apply in_map.
Qed.

End GroupFacts.

Section OrderFacts.
Context {A : Type}.
Variable key : A -> Z.

Lemma insert_desc_perm (x : A) (l : list A) :
  Permutation (insert_desc key x l) (x :: l).
Proof.
  induction l as [|y l IH]; simpl; [reflexivity|].
  destruct (key y <=? key x)%Z; [reflexivity|].
  rewrite IH. apply perm_swap.
Qed.

Lemma order_by_desc_perm (l : list A) : Permutation (order_by_desc key l) l.
Proof.
  induction l as [|x l IH]; simpl; [reflexivity|].
  rewrite insert_desc_perm. now constructor.
Qed.

Lemma insert_desc_sorted (x : A) (l : list A) :
  StronglySorted (fun x y => (key y <= key x)%Z) l -> StronglySorted (fun x y => (key y <= key x)%Z) (insert_desc key x l).
Proof.
  induction l as [|y l IH]; simpl; intros Hs.
  - constructor; constructor.
  - inversion Hs as [|? ? Hl Hy]; subst.
    destruct (Z.leb_spec (key y) (key x)) as [L|L].
    + constructor; [assumption|].
      constructor; [exact L|].
      rewrite Forall_forall in *. intros z Hz.
      specialize (Hy z Hz). simpl in *. lia.
    + constructor; [auto|].
      rewrite Forall_forall in *. intros z Hz.
      apply (Permutation_in _ (insert_desc_perm x l)) in Hz.
      destruct Hz as [<-|Hz]; [lia|auto].
Qed.

Lemma order_by_desc_sorted (l : list A) :
  StronglySorted (fun x y => (key y <= key x)%Z) (order_by_desc key l).
Proof.
  induction l as [|x l IH]; simpl; [constructor|].
  now apply insert_desc_sorted.
Qed.

(** Where no two rows have the same key there is one descending order. *)
Lemma desc_order_unique (l1 l2 : list A) :
  NoDup (map key l2) ->
  Permutation l1 l2 ->
  StronglySorted (fun x y => (key y <= key x)%Z) l1 ->
  StronglySorted (fun x y => (key y <= key x)%Z) l2 ->
  l1 = l2.
Proof.
  revert l2. induction l1 as [|a l1 IH]; intros l2 Hnd Hp H1 H2.
  - apply Permutation_nil in Hp. now subst.
  - destruct l2 as [|b l2].
    + apply Permutation_sym, Permutation_nil in Hp. discriminate.
    + inversion H1 as [|? ? H1' Ha]; subst.
      inversion H2 as [|? ? H2' Hb]; subst.
      assert (a = b) as ->.
      { assert (In a (b :: l2)) as Ia
          by (apply (Permutation_in _ Hp); simpl; auto).
        assert (In b (a :: l1)) as Ib
          by (apply (Permutation_in _ (Permutation_sym Hp)); simpl; auto).
        destruct Ia as [->|Ia]; [reflexivity|].
        destruct Ib as [->|Ib]; [reflexivity|].
        rewrite Forall_forall in Ha, Hb.
        specialize (Ha b Ib). specialize (Hb a Ia). simpl in Ha, Hb.
        assert (key a = key b) as E by lia.
        simpl in Hnd. inversion Hnd as [|? ? Hnb _]; subst.
        exfalso. apply Hnb. rewrite <- E. now apply in_map. }
      f_equal. apply IH; auto.
      * simpl in Hnd. now inversion Hnd.
      * now apply Permutation_cons_inv in Hp.
Qed.

End OrderFacts.

(** ** The home timeline *)

Lemma feed_where_spec (d : db) (p1 p2 : uuid) (t : tweet) :
  feed_where d p1 p2 t = true <->
  t_user_id t = p1 \/ follows_edge d p2 (t_user_id t).
Proof.
  unfold feed_where, follows_edge.
  rewrite orb_true_iff, N.eqb_eq, existsb_exists.
  split; intros [H|H]; auto; right.
  - destruct H as (v & Hin & E). apply N.eqb_eq in E. subst v.
    apply in_map_iff in Hin as (f & E & Hin).
    apply filter_In in Hin as [Hin Hf]. apply N.eqb_eq in Hf.
    exists f. auto.
  - destruct H as (f & Hin & Hf & E).
    exists (t_user_id t). split; [|apply N.eqb_refl].
    apply in_map_iff. exists f. split; auto.
    apply filter_In. split; auto. now apply N.eqb_eq.
Qed.

Lemma feed_from_tweets (d : db) :
  feed_from d = flat_map (tweet_rows d) (tweets d).
Proof.
  unfold feed_from, tweet_rows.
  rewrite (inner_join_each _ (tweets d)).
  now rewrite !left_join_flat_map.
Qed.

(** What a row of [tweet_rows d t] is made of. *)
Lemma in_tweet_rows (d : db) (t : tweet) (x : joined) :
  In x (tweet_rows d t) ->
  row_t x = t
  /\ In (row_u x) (users d) /\ u_id (row_u x) = t_user_id t
  /\ (forall l, row_l x = Some l -> In l (likes d) /\ l_tweet_id l = t_id t)
  /\ (forall r, row_r x = Some r -> In r (retweets d) /\ r_tweet_id r = t_id t).
Proof.
  destruct x as [[[t' u] ol] or]. unfold tweet_rows, row_t, row_u, row_l, row_r.
  cbn [fst snd]. intros Hin.
  pose proof (in_left_join_fst _ _ _ _ _ Hin) as Hl.
  pose proof (in_left_join_fst _ _ _ _ _ Hl) as Hu.
  apply in_inner_join in Hu as ([<-|[]] & Hu & E).
  apply N.eqb_eq in E.
  split; [reflexivity|]. split; [assumption|]. split; [auto|]. split.
  - intros l ->. apply in_left_join_some in Hl as (_ & Hl & E').
    cbn [fst] in E'. apply N.eqb_eq in E'. auto.
  - intros r ->. apply in_left_join_some in Hin as (_ & Hr & E').
    cbn [fst] in E'. apply N.eqb_eq in E'. auto.
Qed.

Lemma tweet_rows_like (d : db) (t : tweet) (u : user) (l : like) :
  In u (users d) -> u_id u = t_user_id t ->
  In l (likes d) -> l_tweet_id l = t_id t ->
  exists x, In x (tweet_rows d t) /\ row_l x = Some l.
Proof.
  intros Hu Eu Hl El.
  assert (In (t, u, Some l)
             (left_join (fun x l => t_id (fst x) =? l_tweet_id l)
                (inner_join (fun t u => t_user_id t =? u_id u) [t] (users d))
                (likes d))) as H1.
  { apply in_left_join_some. split; [|split; auto].
    - apply in_inner_join. simpl. rewrite N.eqb_eq. auto.
    - simpl. now apply N.eqb_eq. }
  destruct (left_join_total (fun x r => t_id (fst (fst x)) =? r_tweet_id r)
              _ (retweets d) _ H1) as [o Ho].
  exists (t, u, Some l, o). auto.
Qed.

Lemma tweet_rows_retweet (d : db) (t : tweet) (u : user) (r : retweet) :
  In u (users d) -> u_id u = t_user_id t ->
  In r (retweets d) -> r_tweet_id r = t_id t ->
  exists x, In x (tweet_rows d t) /\ row_r x = Some r.
Proof.
  intros Hu Eu Hr Er.
  assert (In (t, u) (inner_join (fun t u => t_user_id t =? u_id u) [t] (users d)))
    as H0.
  { apply in_inner_join. simpl. rewrite N.eqb_eq. auto. }
  destruct (left_join_total (fun x l => t_id (fst x) =? l_tweet_id l)
              _ (likes d) _ H0) as [o Ho].
  exists (t, u, o, Some r). split; [|reflexivity].
  unfold tweet_rows. apply in_left_join_some. split; [assumption|].
  split; [assumption|]. simpl. now apply N.eqb_eq.
Qed.

Lemma tweet_rows_nonempty (d : db) (t : tweet) (u : user) :
  In u (users d) -> u_id u = t_user_id t -> tweet_rows d t <> [].
Proof.
  intros Hu Eu.
  assert (In (t, u) (inner_join (fun t u => t_user_id t =? u_id u) [t] (users d)))
    as H0.
  { apply in_inner_join. simpl. rewrite N.eqb_eq. auto. }
  destruct (left_join_total (fun x l => t_id (fst x) =? l_tweet_id l)
              _ (likes d) _ H0) as [o Ho].
  destruct (left_join_total (fun x r => t_id (fst (fst x)) =? r_tweet_id r)
              _ (retweets d) _ Ho) as [o' Ho'].
  intros E. unfold tweet_rows in E. rewrite E in Ho'. contradiction.
Qed.

Lemma key_eqb_eq (a b : uuid * uuid) : key_eqb a b = true <-> a = b.
Proof.
  destruct a as [a1 a2], b as [b1 b2]. unfold key_eqb. simpl.
  rewrite andb_true_iff, !N.eqb_eq. split; [intros [-> ->]|intros [= -> ->]]; auto.
Qed.

Lemma feed_where_rows (d : db) (p1 p2 : uuid) :
  filter (fun x => feed_where d p1 p2 (row_t x)) (feed_from d)
  = flat_map (tweet_rows d) (filter (feed_where d p1 p2) (tweets d)).
Proof.
  rewrite feed_from_tweets, filter_flat_map, <- flat_map_where.
  apply flat_map_ext. intros t.
  destruct (feed_where d p1 p2 t) eqn:W.
  - apply filter_all. intros x Hx.
    apply in_tweet_rows in Hx as (-> & _). assumption.
  - apply filter_none. intros x Hx.
    apply in_tweet_rows in Hx as (-> & _). assumption.
Qed.

Lemma NoDup_map_filter {A B} (f : A -> B) (p : A -> bool) (xs : list A) :
  NoDup (map f xs) -> NoDup (map f (filter p xs)).
Proof.
  induction xs as [|x xs IH]; simpl; intros Hnd; [constructor|].
  inversion Hnd as [|y l Hy Hl]; subst.
  destruct (p x); simpl; auto.
  constructor; auto.
  rewrite in_map_iff in *. intros (z & Hz & Hin).
  apply Hy. exists z. apply filter_In in Hin. tauto.
Qed.

Lemma feed_groups (d : db) (q : tweet -> bool) :
  wf d ->
  group_by key_eqb group_key (flat_map (tweet_rows d) (filter q (tweets d)))
  = map (tweet_rows d) (filter q (tweets d)).
Proof.
  intros Hwf.
  apply group_by_flat_map with (k := fun t => (t_id t, t_user_id t)).
  - apply key_eqb_eq.
  - apply (NoDup_map_inv fst). rewrite map_map. simpl.
    apply NoDup_map_filter, (tweets_pkey Hwf).
  - intros t Hin. apply filter_In in Hin as [Hin _].
    destruct (tweets_user_id_fkey Hwf t Hin) as (u & Hu & E).
    split; [eapply tweet_rows_nonempty; eauto|].
    intros x Hx. apply in_tweet_rows in Hx as (Ht & _ & Eu & _).
    unfold group_key. now rewrite Ht, Eu.
Qed.

(** [COUNT(DISTINCT l.id)] over the rows of one tweet counts its likes, and
    [COUNT(DISTINCT r.id)] its retweets: the product of the two left joins
    repeats a like once for each retweet, and DISTINCT undoes it. *)
Lemma tweet_rows_likes_count (d : db) (t : tweet) :
  wf d -> In t (tweets d) ->
  count_distinct (map (fun y => option_map l_id (row_l y)) (tweet_rows d t))
  = count_likes d (t_id t).
Proof.
  intros Hwf Hin. unfold count_distinct, count_likes.
  destruct (tweets_user_id_fkey Hwf t Hin) as (u & Hu & Eu).
  rewrite <- (length_map l_id).
  apply length_distinct; [apply N.eqb_eq| |].
  - apply NoDup_map_filter, (likes_pkey Hwf).
  - intros i. rewrite in_non_null, !in_map_iff. split.
    + intros (x & E & Hx). destruct (row_l x) as [l|] eqn:R; [|discriminate].
      injection E as <-.
      apply in_tweet_rows in Hx as (_ & _ & _ & Hl & _).
      destruct (Hl l R) as [Hl1 Hl2].
      exists l. split; auto. apply filter_In. split; auto. now apply N.eqb_eq.
    + intros (l & <- & Hl). apply filter_In in Hl as [Hl El].
      apply N.eqb_eq in El.
      destruct (tweet_rows_like d t u l Hu Eu Hl El) as (x & Hx & R).
      exists x. rewrite R. auto.
Qed.

Lemma tweet_rows_retweets_count (d : db) (t : tweet) :
  wf d -> In t (tweets d) ->
  count_distinct (map (fun y => option_map r_id (row_r y)) (tweet_rows d t))
  = count_retweets d (t_id t).
Proof.
  intros Hwf Hin. unfold count_distinct, count_retweets.
  destruct (tweets_user_id_fkey Hwf t Hin) as (u & Hu & Eu).
  rewrite <- (length_map r_id).
  apply length_distinct; [apply N.eqb_eq| |].
  - apply NoDup_map_filter, (retweets_pkey Hwf).
  - intros i. rewrite in_non_null, !in_map_iff. split.
    + intros (x & E & Hx). destruct (row_r x) as [r|] eqn:R; [|discriminate].
      injection E as <-.
      apply in_tweet_rows in Hx as (_ & _ & _ & _ & Hr).
      destruct (Hr r R) as [Hr1 Hr2].
      exists r. split; auto. apply filter_In. split; auto. now apply N.eqb_eq.
    + intros (r & <- & Hr). apply filter_In in Hr as [Hr Er].
      apply N.eqb_eq in Er.
      destruct (tweet_rows_retweet d t u r Hu Eu Hr Er) as (x & Hx & R).
      exists x. rewrite R. auto.
Qed.

(** The select list over the group of one tweet: one row, for that tweet,
    with its exact counts. *)
Lemma feed_aggregate_tweet (d : db) (t : tweet) :
  wf d -> In t (tweets d) ->
  exists r, feed_aggregate (tweet_rows d t) = [r]
            /\ fr_tweet r = t
            /\ fr_likes_count r = count_likes d (t_id t)
            /\ fr_retweets_count r = count_retweets d (t_id t).
Proof.
  intros Hwf Hin.
  pose proof (tweet_rows_likes_count t Hwf Hin) as HL.
  pose proof (tweet_rows_retweets_count t Hwf Hin) as HR.
  destruct (tweets_user_id_fkey Hwf t Hin) as (u & Hu & Eu).
  pose proof (tweet_rows_nonempty d t u Hu Eu) as Hne.
  pose proof (in_tweet_rows d t) as Hrows.
  destruct (tweet_rows d t) as [|x rows]; [congruence|].
  unfold feed_aggregate. eexists. split; [reflexivity|]. simpl.
  destruct (Hrows x (or_introl eq_refl)) as (-> & _). auto.
Qed.

(** The rows of the query before ORDER BY, under the schema's constraints. *)
Lemma feed_select_rows (d : db) (p1 p2 : uuid) :
  wf d ->
  feed_select d p1 p2
  = order_by_desc (fun r => t_created_at (fr_tweet r))
      (flat_map (fun t => feed_aggregate (tweet_rows d t))
                (filter (feed_where d p1 p2) (tweets d))).
Proof.
  intros Hwf. unfold feed_select.
  rewrite feed_where_rows, feed_groups by assumption.
  now rewrite flat_map_concat_map, map_map, <- flat_map_concat_map.
Qed.

Lemma feed_select_tweets (d : db) (p1 p2 : uuid) :
  wf d ->
  Permutation (map fr_tweet (feed_select d p1 p2))
              (filter (feed_where d p1 p2) (tweets d)).
Proof.
  intros Hwf. rewrite feed_select_rows by assumption.
  rewrite order_by_desc_perm.
  assert (forall ts, (forall t, In t ts -> In t (tweets d)) ->
            map fr_tweet (flat_map (fun t => feed_aggregate (tweet_rows d t)) ts)
            = ts) as H.
  { induction ts as [|t ts IH]; simpl; intros Hts; [reflexivity|].
    destruct (feed_aggregate_tweet t Hwf (Hts t (or_introl eq_refl)))
      as (r & -> & <- & _).
    simpl. f_equal. rewrite IH at 1; auto. }
  rewrite H; [reflexivity|].
  intros t Hin. apply filter_In in Hin. tauto.
Qed.

Lemma feed_select_counts (d : db) (p1 p2 : uuid) (r : feed_row) :
  wf d -> In r (feed_select d p1 p2) ->
  fr_likes_count r = count_likes d (t_id (fr_tweet r))
  /\ fr_retweets_count r = count_retweets d (t_id (fr_tweet r)).
Proof.
  intros Hwf Hin. rewrite feed_select_rows in Hin by assumption.
  apply (Permutation_in _ (order_by_desc_perm _ _)) in Hin.
  apply in_flat_map in Hin as (t & Ht & Hin).
  apply filter_In in Ht as [Ht _].
  destruct (feed_aggregate_tweet t Hwf Ht) as (r' & E & <- & HL & HR).
  rewrite E in Hin. destruct Hin as [<-|[]]. auto.
Qed.

Lemma feed_select_sorted (d : db) (p1 p2 : uuid) :
  StronglySorted newer_first (feed_select d p1 p2).
Proof. apply order_by_desc_sorted. Qed.

(** With pairwise distinct [created_at] the result does not depend on how
    ties are broken: every newest-first arrangement of its rows is the
    result itself. *)
Lemma feed_select_order_unique (d : db) (p1 p2 : uuid) (rows : list feed_row) :
  NoDup (map (fun r => t_created_at (fr_tweet r)) (feed_select d p1 p2)) ->
  Permutation rows (feed_select d p1 p2) ->
  StronglySorted newer_first rows ->
  rows = feed_select d p1 p2.
Proof.
  intros Hnd Hp Hs.
  apply (desc_order_unique (fun r => t_created_at (fr_tweet r))); auto.
  apply feed_select_sorted.
Qed.

Lemma feed_select_ids (d : db) (p1 p2 : uuid) :
  wf d -> NoDup (map (fun r => t_id (fr_tweet r)) (feed_select d p1 p2)).
Proof.
  intros Hwf. rewrite <- (map_map fr_tweet t_id).
  eapply Permutation_NoDup.
  - symmetry. apply Permutation_map, feed_select_tweets. assumption.
  - apply NoDup_map_filter, (tweets_pkey Hwf).
Qed.

(** ** LIMIT and OFFSET *)

Lemma NoDup_app_disjoint {A} (l1 l2 : list A) (x : A) :
  NoDup (l1 ++ l2) -> In x l1 -> In x l2 -> False.
Proof.
  induction l1 as [|y l1 IH]; simpl; intros Hnd H1 H2; [contradiction|].
  inversion Hnd as [|? ? Hy Hl]; subst.
  destruct H1 as [->|H1]; auto.
  apply Hy. apply in_or_app. auto.
Qed.

Section PageFacts.
Context {A : Type}.

Lemma in_firstn (n : nat) (l : list A) (x : A) : In x (firstn n l) -> In x l.
Proof.
  intros H. rewrite <- (firstn_skipn n l). apply in_or_app. auto.
Qed.

Lemma in_skipn (n : nat) (l : list A) (x : A) : In x (skipn n l) -> In x l.
Proof.
  intros H. rewrite <- (firstn_skipn n l). apply in_or_app. auto.
Qed.

Lemma firstn_plus (n m : nat) (l : list A) :
  firstn (n + m) l = firstn n l ++ firstn m (skipn n l).
Proof.
  revert l. induction n as [|n IH]; intros l; simpl; [reflexivity|].
  destruct l as [|x l]; simpl.
  - now rewrite firstn_nil.
  - now rewrite IH.
Qed.

(** Two consecutive pages of a list without duplicate keys share no key. *)
Lemma pages_disjoint {K} (f : A -> K) (n o : nat) (l : list A) (a b : A) :
  NoDup (map f l) ->
  In a (firstn n (skipn o l)) -> In b (firstn n (skipn (o + n) l)) ->
  f a <> f b.
Proof.
  intros Hnd Ha Hb E.
  rewrite Nat.add_comm, <- skipn_skipn in Hb. apply in_firstn in Hb.
  set (rest := skipn o l) in *.
  assert (NoDup (map f rest)) as Hrest.
  { rewrite <- (firstn_skipn o l), map_app in Hnd.
    now apply NoDup_app_remove_l in Hnd. }
  rewrite <- (firstn_skipn n rest), map_app in Hrest.
  apply (NoDup_app_disjoint _ _ (f a) Hrest).
  - now apply in_map.
  - rewrite E. now apply in_map.
Qed.

(** The first [k] pages of [n] rows, one after the other, are the first
    [k * n] rows. *)
Lemma pages_prefix (n k : nat) (l : list A) :
  flat_map (fun i => firstn n (skipn (i * n) l)) (seq 0 k) = firstn (k * n) l.
Proof.
  induction k as [|k IH]; [reflexivity|].
  rewrite seq_S, flat_map_app, IH. simpl flat_map.
  rewrite app_nil_r. simpl Nat.mul.
  rewrite (Nat.add_comm n (k * n)). symmetry. apply firstn_plus.
Qed.

Lemma limit_offset_page (l o : Z) (rows : list A) :
  (0 <= l)%Z -> (0 <= o)%Z ->
  limit_offset (Some l) (Some o) rows
  = Ok (firstn (Z.to_nat l) (skipn (Z.to_nat o) rows)).
Proof.
  intros Hl Ho. unfold limit_offset, row_count.
  destruct (Z.ltb_spec o 0); [lia|].
  destruct (Z.ltb_spec l 0); [lia|]. reflexivity.
Qed.

Lemma limit_offset_incl (l o : option Z) (rows page : list A) :
  limit_offset l o rows = Ok page -> incl page rows.
Proof.
  unfold limit_offset, row_count. intros H x Hx.
  destruct o as [o|]; [destruct (o <? 0)%Z; [discriminate|]|];
    (destruct l as [l|]; [destruct (l <? 0)%Z; [discriminate|]|]);
    simpl in H; injection H as <-;
    repeat first [apply in_firstn in Hx | apply in_skipn in Hx]; assumption.
Qed.

End PageFacts.

Lemma homeFeed_page (l o : Z) (d : db) (me : user) :
  (0 <= l)%Z -> (0 <= o)%Z ->
  homeFeed (Val l) (Val o) d (Some me)
  = Ok (firstn (Z.to_nat l) (skipn (Z.to_nat o) (feed_select d (u_id me) (u_id me)))).
Proof.
  intros Hl Ho. unfold homeFeed, feed_query. simpl.
  now apply limit_offset_page.
Qed.


(** ** The answers that ORDER BY allows *)

Section OrderedFacts.
Context {A : Type}.
Variable key : A -> Z.

Lemma ordered_by_desc_model (rows : list A) :
  ordered_by_desc key rows (order_by_desc key rows).
Proof.
  split; [symmetry; apply order_by_desc_perm|apply order_by_desc_sorted].
Qed.

(** With pairwise distinct keys ORDER BY leaves nothing open. *)
Lemma ordered_by_desc_unique (rows out : list A) :
  NoDup (map key rows) ->
  ordered_by_desc key rows out -> out = order_by_desc key rows.
Proof.
  intros Hnd [Hp Hs].
  apply (desc_order_unique key); auto.
  - eapply Permutation_NoDup; [|exact Hnd].
    apply Permutation_map. symmetry. apply order_by_desc_perm.
  - rewrite <- Hp. symmetry. apply order_by_desc_perm.
  - apply order_by_desc_sorted.
Qed.

End OrderedFacts.

Lemma StronglySorted_map {A B} (f : A -> B) (R : B -> B -> Prop) (l : list A) :
  StronglySorted (fun x y => R (f x) (f y)) l <-> StronglySorted R (map f l).
Proof.
  induction l as [|x l IH]; simpl.
  - split; constructor.
  - split; intros H; inversion H as [|? ? Hs Hx]; subst;
      (constructor; [now apply IH|]).
    + rewrite Forall_forall in *. intros y Hy.
      apply in_map_iff in Hy as (z & <- & Hz). auto.
    + rewrite Forall_forall in *. intros y Hy. apply Hx. now apply in_map.
Qed.

Lemma ordered_by_desc_map {A B} (f : A -> B) (key : B -> Z) (rows out : list A) :
  ordered_by_desc (fun x => key (f x)) rows out ->
  ordered_by_desc key (map f rows) (map f out).
Proof.
  intros [Hp Hs]. split; [now apply Permutation_map|].
  now apply (StronglySorted_map f (fun x y => (key y <= key x)%Z)).
Qed.

Lemma feed_rows_by_tweet (d : db) (p1 p2 : uuid) :
  wf d ->
  feed_rows d p1 p2
  = flat_map (fun t => feed_aggregate (tweet_rows d t))
             (filter (feed_where d p1 p2) (tweets d)).
Proof.
  intros Hwf. unfold feed_rows.
  rewrite feed_where_rows, feed_groups by assumption.
  now rewrite flat_map_concat_map, map_map, <- flat_map_concat_map.
Qed.

Lemma tweets_of_rows (d : db) (ts : list tweet) :
  wf d -> (forall t, In t ts -> In t (tweets d)) ->
  map fr_tweet (flat_map (fun t => feed_aggregate (tweet_rows d t)) ts) = ts.
Proof.
  intros Hwf. induction ts as [|t ts IH]; simpl; intros Hts; [reflexivity|].
  destruct (feed_aggregate_tweet t Hwf (Hts t (or_introl eq_refl)))
    as (r & -> & <- & _).
  simpl. f_equal. apply IH. auto.
Qed.

Lemma feed_rows_tweets_eq (d : db) (p1 p2 : uuid) :
  wf d ->
  map fr_tweet (feed_rows d p1 p2) = filter (feed_where d p1 p2) (tweets d).
Proof.
  intros Hwf. rewrite feed_rows_by_tweet by assumption.
  apply tweets_of_rows; [assumption|].
  intros t Hin. apply filter_In in Hin. tauto.
Qed.

Lemma feed_select_model (d : db) (p1 p2 : uuid) :
  feed_select_any d p1 p2 (feed_select d p1 p2).
Proof. apply ordered_by_desc_model. Qed.

(** The model computes one of the answers. *)
Lemma homeFeed_returns_model (limit offset : arg Z) (d : db)
    (req_user : option user) :
  homeFeed_returns limit offset d req_user (homeFeed limit offset d req_user).
Proof.
  destruct req_user as [me|]; simpl; [|reflexivity].
  exists (feed_select d (u_id me) (u_id me)).
  split; [apply feed_select_model|reflexivity].
Qed.

(** Whatever the order of ties, a result holds the tweets of the timeline,
    each once, newest first. *)
Lemma feed_select_any_spec (d : db) (p1 p2 : uuid) (full : list feed_row) :
  wf d -> feed_select_any d p1 p2 full ->
  (forall t, In t (map fr_tweet full) <->
             In t (tweets d)
             /\ (t_user_id t = p1 \/ follows_edge d p2 (t_user_id t)))
  /\ NoDup (map fr_tweet full)
  /\ NoDup (map (fun r => t_id (fr_tweet r)) full)
  /\ StronglySorted newer_first full.
Proof.
  intros Hwf [Hp Hs].
  assert (Permutation (filter (feed_where d p1 p2) (tweets d))
                      (map fr_tweet full)) as Hts.
  { rewrite <- (feed_rows_tweets_eq p1 p2 Hwf). now apply Permutation_map. }
  split; [|split; [|split]].
  - intros t. rewrite <- feed_where_spec, <- filter_In. split; intros H.
    + now apply (Permutation_in _ (Permutation_sym Hts)).
    + now apply (Permutation_in _ Hts).
  - apply (Permutation_NoDup Hts).
    apply NoDup_filter. apply (NoDup_map_inv t_id), (tweets_pkey Hwf).
  - rewrite <- (map_map fr_tweet t_id).
    eapply Permutation_NoDup; [apply Permutation_map, Hts|].
    apply NoDup_map_filter, (tweets_pkey Hwf).
  - exact Hs.
Qed.

(** Where no two tweets of the timeline have the same [created_at], the
    query has one result. *)
Lemma feed_select_any_unique (d : db) (p : uuid) (full : list feed_row) :
  wf d -> distinct_created_at d p ->
  (feed_select_any d p p full <-> full = feed_select d p p).
Proof.
  intros Hwf Hnd. split; [|intros ->; apply feed_select_model].
  intros H.
  apply (@ordered_by_desc_unique _ (fun r => t_created_at (fr_tweet r))
           (feed_rows d p p) full); [|exact H].
  rewrite <- (map_map fr_tweet t_created_at).
  now rewrite feed_rows_tweets_eq.
Qed.

Lemma homeFeed_returns_unique (limit offset : arg Z) (d : db) (me : user)
    (answer : result (list feed_row)) :
  wf d -> distinct_created_at d (u_id me) ->
  (homeFeed_returns limit offset d (Some me) answer <->
   answer = homeFeed limit offset d (Some me)).
Proof.
  intros Hwf Hnd. split; [|intros ->; apply homeFeed_returns_model].
  intros (full & Hfull & ->).
  apply (feed_select_any_unique full Hwf Hnd) in Hfull. now subst full.
Qed.

Lemma homeFeed_returns_page (l o : Z) (d : db) (me : user)
    (answer : result (list feed_row)) :
  (0 <= l)%Z -> (0 <= o)%Z ->
  (homeFeed_returns (Val l) (Val o) d (Some me) answer <->
   exists full,
     feed_select_any d (u_id me) (u_id me) full
     /\ answer = Ok (firstn (Z.to_nat l) (skipn (Z.to_nat o) full))).
Proof.
  intros Hl Ho. simpl.
  split; intros (full & Hfull & ->); exists full; (split; [assumption|]);
    now rewrite limit_offset_page.
Qed.

(** C1, as stated, fails: [homeFeed] answers with one page.  ann has 21
    tweets of her own; with the default arguments the answer has 20 rows and
    her oldest tweet is not among them. *)
Lemma homeFeed_default_page_omits_own_tweet :
  In {| t_id := 100; t_user_id := 1; t_content := JS.lit "tweet";
        t_created_at := 2%Z; t_updated_at := 2%Z |} (tweets busy_db)
  /\ u_id ann = 1
  /\ exists rows,
       homeFeed Absent Absent busy_db (Some ann) = Ok rows
       /\ length rows = 20%nat
       /\ ~ In 100 (map (fun r => t_id (fr_tweet r)) rows).
Proof.
  split; [vm_compute; auto|]. split; [reflexivity|].
  eexists. split; [vm_compute; reflexivity|]. split; [reflexivity|].
  intros H. vm_compute in H.
  repeat (destruct H as [H|H]; [discriminate H|]). contradiction.
Qed.

(** C1, amended: for an authenticated user [u] and row counts [l] and [o]
    ([0 <= l], [0 <= o]), [homeFeed (limit: l, offset: o)] returns the rows
    at positions [o] to [o + l - 1] (by default the first 20) of a list that
    holds exactly the tweets whose author is [u] or a user that [u] follows,
    each once and nothing else, ordered by [created_at], newest first,
    whatever order the engine gives to tweets of the same [created_at].  The
    answer is that whole list exactly when [l] is at least its length and
    [o] is 0 or the list is empty.  Without a user the resolver throws
    "Unauthorized". *)
Theorem homeFeed_timeline (l o : Z) (d : db) (me : user) :
  wf d -> (0 <= l)%Z -> (0 <= o)%Z ->
  homeFeed (Val l) (Val o) d (Some me)
  = Ok (firstn (Z.to_nat l)
          (skipn (Z.to_nat o) (feed_select d (u_id me) (u_id me))))
  /\ homeFeed Absent Absent d (Some me)
     = Ok (firstn 20 (feed_select d (u_id me) (u_id me)))
  /\ (forall t, In t (map fr_tweet (feed_select d (u_id me) (u_id me))) <->
                In t (tweets d)
                /\ (t_user_id t = u_id me
                    \/ follows_edge d (u_id me) (t_user_id t)))
  /\ NoDup (map fr_tweet (feed_select d (u_id me) (u_id me)))
  /\ StronglySorted newer_first (feed_select d (u_id me) (u_id me))
  /\ ((length (feed_select d (u_id me) (u_id me)) <= Z.to_nat l)%nat ->
      homeFeed (Val l) (Val 0%Z) d (Some me)
      = Ok (feed_select d (u_id me) (u_id me)))
  /\ (forall limit offset, homeFeed limit offset d None = Throw Unauthorized)
  /\ (homeFeed (Val l) (Val o) d (Some me)
      = Ok (feed_select d (u_id me) (u_id me))
      <-> (length (feed_select d (u_id me) (u_id me)) <= Z.to_nat l)%nat
          /\ (o = 0%Z \/ feed_select d (u_id me) (u_id me) = []))
  /\ (forall answer,
        homeFeed_returns (Val l) (Val o) d (Some me) answer ->
        exists full,
          answer = Ok (firstn (Z.to_nat l) (skipn (Z.to_nat o) full))
          /\ (forall t, In t (map fr_tweet full) <->
                        In t (tweets d)
                        /\ (t_user_id t = u_id me
                            \/ follows_edge d (u_id me) (t_user_id t)))
          /\ NoDup (map fr_tweet full)
          /\ StronglySorted newer_first full).
Proof.
  intros Hwf Hl Ho.
  pose proof (feed_select_tweets (u_id me) (u_id me) Hwf) as Hperm.
  split; [now apply homeFeed_page|].
  split; [reflexivity|].
  split; [|split; [|split; [|split; [|split; [|split]]]]].
  - intros t. split.
    + intros H. apply (Permutation_in _ Hperm) in H.
      apply filter_In in H. now rewrite feed_where_spec in H.
    + intros H. apply (Permutation_in _ (Permutation_sym Hperm)).
      apply filter_In. now rewrite feed_where_spec.
  - apply (Permutation_NoDup (Permutation_sym Hperm)).
    apply NoDup_filter. apply (NoDup_map_inv t_id), (tweets_pkey Hwf).
  - apply feed_select_sorted.
  - intros Hlen. rewrite homeFeed_page by lia. simpl skipn.
    now rewrite firstn_all2.
  - reflexivity.
  - rewrite homeFeed_page by assumption.
    generalize (feed_select d (u_id me) (u_id me)). intros full. split.
    + intros [= E].
      assert (length (firstn (Z.to_nat l) (skipn (Z.to_nat o) full))
              = length full) as L by now rewrite E.
      rewrite length_firstn, length_skipn in L.
      split; [lia|]. destruct full as [|r full]; [now right|left].
      cbn [length] in L. lia.
    + intros [L [-> | ->]].
      * simpl skipn. now rewrite firstn_all2.
      * now rewrite skipn_nil, firstn_nil.
  - intros answer H.
    apply homeFeed_returns_page in H as (full & Hfull & ->); [|assumption..].
    exists full. split; [reflexivity|].
    destruct (feed_select_any_spec Hwf Hfull) as (H1 & H2 & _ & H4). auto.
Qed.

Lemma homeFeed_timeline_witness :
  homeFeed (Val 2%Z) (Val 1%Z) sample_db (Some ann)
  = Ok (firstn 2 (skipn 1 (feed_select sample_db 1 1)))
  /\ map (fun r => t_id (fr_tweet r)) (feed_select sample_db 1 1) = [13; 11; 10]
  /\ StronglySorted newer_first (feed_select sample_db 1 1).
Proof.
  destruct (@homeFeed_timeline 2%Z 1%Z sample_db ann sample_db_wf
              ltac:(lia) ltac:(lia)) as (Hpage & _ & _ & _ & Hsorted & _).
  split; [exact Hpage|]. split; [vm_compute; reflexivity|exact Hsorted].
Defined.

(** C5: for every tweet [t] that [homeFeed] returns, [likes_count] is the
    number of rows of the likes table with [tweet_id = t] and
    [retweets_count] the number of rows of the retweets table with
    [tweet_id = t]; both agree with the stand-alone
    [SELECT COUNT( * ) ... WHERE tweet_id = ?] queries. *)
Theorem homeFeed_counts_exact (limit offset : arg Z) (d : db) (me : user)
    (rows : list feed_row) (r : feed_row) :
  wf d ->
  homeFeed limit offset d (Some me) = Ok rows ->
  In r rows ->
  fr_likes_count r
  = length (filter (fun l => l_tweet_id l =? t_id (fr_tweet r)) (likes d))
  /\ fr_retweets_count r
     = length (filter (fun x => r_tweet_id x =? t_id (fr_tweet r)) (retweets d))
  /\ fr_likes_count r = count_likes d (t_id (fr_tweet r))
  /\ fr_retweets_count r = count_retweets d (t_id (fr_tweet r)).
Proof.
  intros Hwf H Hin. unfold homeFeed, feed_query in H.
  apply limit_offset_incl in H. apply H in Hin.
  destruct (feed_select_counts _ _ _ Hwf Hin) as [HL HR].
  unfold count_likes, count_retweets in *. auto.
Qed.

Lemma homeFeed_counts_exact_witness :
  map (fun r => (t_id (fr_tweet r), fr_likes_count r, fr_retweets_count r))
      (rows_of (homeFeed Absent Absent sample_db (Some ann)))
  = [(13, 0%nat, 0%nat); (11, 2%nat, 3%nat); (10, 0%nat, 0%nat)]
  /\ (2%nat = count_likes sample_db 11 /\ 3%nat = count_retweets sample_db 11).
Proof.
  split; [vm_compute; reflexivity|].
  pose proof (@homeFeed_counts_exact Absent Absent sample_db ann
                (rows_of (homeFeed Absent Absent sample_db (Some ann)))
                (nth 1 (rows_of (homeFeed Absent Absent sample_db (Some ann)))
                     {| fr_tweet := {| t_id := 0; t_user_id := 0; t_content := [];
                                       t_created_at := 0%Z; t_updated_at := 0%Z |};
                        fr_name := []; fr_avatar_url := None;
                        fr_likes_count := 0; fr_retweets_count := 0 |})
                sample_db_wf
                ltac:(vm_compute; reflexivity)
                ltac:(vm_compute; tauto)) as (_ & _ & HL & HR).
  split; [exact HL|exact HR].
Defined.

(** C8, as stated, fails: SQL leaves the order of rows with the same
    [created_at] to the engine, and each page is a query of its own.  ann
    has two tweets of the same second; the first page of one row can hold
    tweet 10 (the engine putting it first) and the second page can hold
    tweet 10 again (the engine putting it last): the two pages are not
    disjoint and tweet 11 is on neither. *)
Lemma homeFeed_pages_overlap_on_ties :
  exists r : feed_row,
    t_id (fr_tweet r) = 10
    /\ t_created_at (fr_tweet r) = 2%Z
    /\ homeFeed_returns (Val 1%Z) (Val 0%Z) tied_db (Some ann) (Ok [r])
    /\ homeFeed_returns (Val 1%Z) (Val (0 + 1)%Z) tied_db (Some ann) (Ok [r]).
Proof.
  pose (r10 := {| fr_tweet := {| t_id := 10; t_user_id := 1;
                                 t_content := JS.lit "one";
                                 t_created_at := 2%Z; t_updated_at := 2%Z |};
                  fr_name := JS.lit "ann"; fr_avatar_url := None;
                  fr_likes_count := 0; fr_retweets_count := 0 |}).
  pose (r11 := {| fr_tweet := {| t_id := 11; t_user_id := 1;
                                 t_content := JS.lit "two";
                                 t_created_at := 2%Z; t_updated_at := 2%Z |};
                  fr_name := JS.lit "ann"; fr_avatar_url := None;
                  fr_likes_count := 0; fr_retweets_count := 0 |}).
  assert (feed_rows tied_db (u_id ann) (u_id ann) = [r10; r11]) as Hrows
    by (vm_compute; reflexivity).
  exists r10. split; [reflexivity|]. split; [reflexivity|]. split.
  - exists [r10; r11]. split; [|reflexivity].
    split; [rewrite Hrows; reflexivity|].
    repeat (constructor; try (simpl; lia)).
  - exists [r11; r10]. split; [|reflexivity].
    split; [rewrite Hrows; apply perm_swap|].
    repeat (constructor; try (simpl; lia)).
Qed.

(** C8, amended: for row counts [l] and [o] ([0 <= l], [0 <= o]) and a
    timeline whose tweets have pairwise distinct [created_at], the query of
    [homeFeed] has one full result, the tweets of the timeline newest
    first; [homeFeed (limit: l, offset: o)] returns at most [l] rows, the
    rows at positions [o] to [o + l - 1] of that result; the page and the
    page after it share no tweet, together they are the [2 l] rows from
    position [o] on, and the first [k] pages, one after the other, are the
    first [k l] rows of the full result. *)
Theorem homeFeed_pagination (l o : Z) (k : nat) (d : db) (me : user) :
  wf d -> (0 <= l)%Z -> (0 <= o)%Z -> distinct_created_at d (u_id me) ->
  (forall rows, feed_select_any d (u_id me) (u_id me) rows <->
                rows = feed_select d (u_id me) (u_id me))
  /\ (forall t, In t (map fr_tweet (feed_select d (u_id me) (u_id me))) <->
                In t (tweets d)
                /\ (t_user_id t = u_id me
                    \/ follows_edge d (u_id me) (t_user_id t)))
  /\ StronglySorted newer_first (feed_select d (u_id me) (u_id me))
  /\ (forall answer,
        homeFeed_returns (Val l) (Val o) d (Some me) answer <->
        answer = Ok (firstn (Z.to_nat l)
                       (skipn (Z.to_nat o) (feed_select d (u_id me) (u_id me)))))
  /\ (forall page next,
        homeFeed_returns (Val l) (Val o) d (Some me) (Ok page) ->
        homeFeed_returns (Val l) (Val (o + l)%Z) d (Some me) (Ok next) ->
        (length page <= Z.to_nat l)%nat
        /\ (forall i, (i < Z.to_nat l)%nat ->
              nth_error page i
              = nth_error (feed_select d (u_id me) (u_id me)) (Z.to_nat o + i))
        /\ (forall r1 r2, In r1 page -> In r2 next ->
              t_id (fr_tweet r1) <> t_id (fr_tweet r2))
        /\ page ++ next
           = firstn (2 * Z.to_nat l)
               (skipn (Z.to_nat o) (feed_select d (u_id me) (u_id me))))
  /\ feed_pages d me l k
     = firstn (k * Z.to_nat l) (feed_select d (u_id me) (u_id me)).
Proof.
  intros Hwf Hl Ho Hnd.
  set (full := feed_select d (u_id me) (u_id me)).
  assert (forall l' o' answer, (0 <= l')%Z -> (0 <= o')%Z ->
            (homeFeed_returns (Val l') (Val o') d (Some me) answer <->
             answer = Ok (firstn (Z.to_nat l') (skipn (Z.to_nat o') full))))
    as Hanswer.
  { intros l' o' answer Hl' Ho'.
    rewrite (@homeFeed_returns_unique (Val l') (Val o') d me answer Hwf Hnd).
    now rewrite homeFeed_page. }
  split; [intros rows; now apply feed_select_any_unique|].
  split.
  { destruct (feed_select_any_spec Hwf
                (feed_select_model d (u_id me) (u_id me))) as [H _].
    exact H. }
  split; [apply feed_select_sorted|].
  split; [intros answer; now apply Hanswer|].
  split.
  - intros page next Hpage Hnext.
    apply Hanswer in Hpage; [|assumption..]. injection Hpage as ->.
    apply Hanswer in Hnext; [|lia..]. injection Hnext as ->.
    rewrite Z2Nat.inj_add by lia.
    split; [apply firstn_le_length|].
    split; [|split].
    + intros i Hi. rewrite nth_error_firstn, nth_error_skipn.
      destruct (Nat.ltb_spec i (Z.to_nat l)); [reflexivity|lia].
    + intros r1 r2 H1 H2.
      eapply (@pages_disjoint _ _ (fun r => t_id (fr_tweet r)));
        [|exact H1|exact H2].
      unfold full. now apply feed_select_ids.
    + replace (2 * Z.to_nat l)%nat with (Z.to_nat l + Z.to_nat l)%nat by lia.
      rewrite firstn_plus, skipn_skipn.
      now rewrite (Nat.add_comm (Z.to_nat l) (Z.to_nat o)).
  - unfold feed_pages. rewrite <- pages_prefix.
    apply flat_map_ext. intros i.
    rewrite homeFeed_page by lia. simpl.
    now rewrite Z2Nat.inj_mul, Nat2Z.id by lia.
Qed.

Lemma homeFeed_pagination_witness :
  map (fun r => t_id (fr_tweet r)) (feed_select sample_db (u_id ann) (u_id ann))
  = [13; 11; 10]
  /\ StronglySorted newer_first (feed_select sample_db (u_id ann) (u_id ann))
  /\ feed_pages sample_db ann 2%Z 2
     = firstn (2 * Z.to_nat 2) (feed_select sample_db (u_id ann) (u_id ann)).
Proof.
  assert (distinct_created_at sample_db (u_id ann)) as Hnd.
  { unfold distinct_created_at. vm_compute.
    repeat (constructor;
            [simpl; intros H;
             repeat (destruct H as [H|H]; [discriminate H|]); exact H|]).
    constructor. }
  destruct (@homeFeed_pagination 2%Z 0%Z 2 sample_db ann sample_db_wf
              ltac:(lia) ltac:(lia) Hnd) as (_ & _ & Hsorted & _ & _ & Hpages).
  split; [vm_compute; reflexivity|]. split; [exact Hsorted|exact Hpages].
Defined.

Example homeFeed_pages_of_two :
  map (fun r => t_id (fr_tweet r))
      (rows_of (homeFeed (Val 2%Z) (Val 0%Z) sample_db (Some ann))) = [13; 11]
  /\ map (fun r => t_id (fr_tweet r))
         (rows_of (homeFeed (Val 2%Z) (Val 2%Z) sample_db (Some ann))) = [10].
Proof. split; vm_compute; reflexivity. Qed.

Example homeFeed_negative_limit :
  homeFeed (Val (-1)%Z) Absent sample_db (Some ann)
  = Throw (DbError (InvalidRowCount "LIMIT")).
Proof. vm_compute. reflexivity. Qed.

Example deleteTweet_sample :
  let d' := fst (deleteTweet 11 11%Z sample_db (Some bob)) in
  map t_id (tweets d') = [10; 12; 13] /\ likes d' = [] /\ retweets d' = [].
Proof. vm_compute. auto. Qed.

Example sample_third_like_refused :
  map l_id (likes sample_db) = [30; 31].
Proof. vm_compute. reflexivity. Qed.

(** The integration test of TESTING.md: sign up, create a tweet, like it;
    the answer carries [likes_count = 1]. *)
Example likeTweet_first_like :
  let d0 := step 1%Z (signup_stmt 1 "ann") empty_db in
  let d1 := fst (createTweet (fun c => c) (JS.lit "Hello!") 10 2%Z d0 (Some ann)) in
  snd (likeTweet 10 30 3%Z d1 (Some ann)) = Ok 1%nat.
Proof. vm_compute. reflexivity. Qed.

Example createTweet_validate_blank :
  createTweet_validate (JS.lit "   ") = Invalid "Content is required"
  /\ validateTweet (fun _ => None) (VString (JS.lit "   ")) = Next.
Proof. split; vm_compute; reflexivity. Qed.

(** * More about the data layer *)

(** ** The timeline and the simpler query of the feature list *)

Lemma map_insert_desc {A B} (f : A -> B) (k : B -> Z) (x : A) (l : list A) :
  map f (insert_desc (fun y => k (f y)) x l) = insert_desc k (f x) (map f l).
Proof.
  induction l as [|y l IH]; simpl; [reflexivity|].
  destruct (k (f y) <=? k (f x))%Z; simpl; [reflexivity|]. now rewrite IH.
Qed.

Lemma map_order_by_desc {A B} (f : A -> B) (k : B -> Z) (l : list A) :
  map f (order_by_desc (fun y => k (f y)) l) = order_by_desc k (map f l).
Proof.
  induction l as [|x l IH]; simpl; [reflexivity|].
  now rewrite map_insert_desc, IH.
Qed.

Lemma feed_rows_tweets (d : db) (ts : list tweet) :
  wf d -> (forall t, In t ts -> In t (tweets d)) ->
  map fr_tweet (flat_map (fun t => feed_aggregate (tweet_rows d t)) ts) = ts.
Proof.
  intros Hwf. induction ts as [|t ts IH]; simpl; intros Hts; [reflexivity|].
  destruct (feed_aggregate_tweet t Hwf (Hts t (or_introl eq_refl)))
    as (r & -> & <- & _).
  simpl. f_equal. rewrite IH at 1; auto.
Qed.

Lemma feed_select_timeline (d : db) (p1 p2 : uuid) :
  wf d -> map fr_tweet (feed_select d p1 p2) = timeline_select d p1 p2.
Proof.
  intros Hwf. rewrite feed_select_rows by assumption.
  rewrite (map_order_by_desc fr_tweet t_created_at).
  unfold timeline_select. f_equal.
  apply feed_rows_tweets; auto.
  intros t Hin. apply filter_In in Hin. tauto.
Qed.

Lemma limit_offset_map {A B} (f : A -> B) (l o : option Z) (rows : list A) :
  result_map (map f) (limit_offset l o rows) = limit_offset l o (map f rows).
Proof.
  unfold limit_offset, row_count.
  destruct o as [o|]; [destruct (o <? 0)%Z; [reflexivity|]|];
    (destruct l as [l|]; [destruct (l <? 0)%Z; [reflexivity|]|]);
    simpl; now rewrite ?skipn_map, ?firstn_map.
Qed.

Lemma feed_select_In (d : db) (p1 p2 : uuid) (t : tweet) :
  wf d ->
  (In t (map fr_tweet (feed_select d p1 p2)) <->
   In t (tweets d) /\ (t_user_id t = p1 \/ follows_edge d p2 (t_user_id t))).
Proof.
  intros Hwf.
  pose proof (feed_select_tweets p1 p2 Hwf) as Hperm.
  rewrite <- feed_where_spec, <- filter_In. split; intros H.
  - now apply (Permutation_in _ Hperm).
  - now apply (Permutation_in _ (Permutation_sym Hperm)).
Qed.

(** A result of the query of [homeFeed], stripped of its added columns, is
    a result of the simpler query, and every result of the simpler query
    arises so. *)
Lemma feed_select_any_timeline (d : db) (p1 p2 : uuid) (ts : list tweet) :
  wf d ->
  (timeline_select_any d p1 p2 ts <->
   exists full, feed_select_any d p1 p2 full /\ map fr_tweet full = ts).
Proof.
  intros Hwf. split.
  - intros [Hp Hs].
    assert (forall t, In t ts -> In t (tweets d)) as Hts.
    { intros t Hin. apply (Permutation_in _ (Permutation_sym Hp)) in Hin.
      apply filter_In in Hin. tauto. }
    exists (flat_map (fun t => feed_aggregate (tweet_rows d t)) ts).
    split; [|now apply tweets_of_rows].
    split.
    + rewrite feed_rows_by_tweet by assumption.
      now apply Permutation_flat_map.
    + apply (StronglySorted_map fr_tweet
               (fun x y => (t_created_at y <= t_created_at x)%Z)).
      now rewrite tweets_of_rows.
  - intros (full & Hfull & <-).
    unfold timeline_select_any. rewrite <- (feed_rows_tweets_eq p1 p2 Hwf).
    now apply (ordered_by_desc_map fr_tweet t_created_at).
Qed.

(** X1: on every database that satisfies the schema's constraints, the
    answers that [homeFeed] can give, stripped of the columns it adds, are
    exactly the answers that the simpler query of the feature list (the
    "Query Logic" of the home timeline) can give: the joins, the grouping
    and the counts of the resolver neither drop nor repeat a tweet nor
    change the order.  Where no two tweets of the timeline have the same
    [created_at] each query has one answer, and the two agree; otherwise
    each query orders the tweets of one [created_at] as its engine
    pleases. *)
Theorem homeFeed_refines_timeline_query (offset : arg Z) (d : db) (me : user) :
  wf d ->
  (forall answer,
     homeFeed_returns Absent offset d (Some me) answer ->
     timeline_query_returns d (u_id me) (u_id me) (with_default 0%Z offset)
       (result_map (map fr_tweet) answer))
  /\ (forall tweets_answer,
        timeline_query_returns d (u_id me) (u_id me) (with_default 0%Z offset)
          tweets_answer ->
        exists answer,
          homeFeed_returns Absent offset d (Some me) answer
          /\ result_map (map fr_tweet) answer = tweets_answer)
  /\ (distinct_created_at d (u_id me) ->
      forall answer tweets_answer,
        homeFeed_returns Absent offset d (Some me) answer ->
        timeline_query_returns d (u_id me) (u_id me) (with_default 0%Z offset)
          tweets_answer ->
        result_map (map fr_tweet) answer = tweets_answer)
  /\ (distinct_created_at d (u_id me) ->
      result_map (map fr_tweet) (homeFeed Absent offset d (Some me))
      = timeline_query d (u_id me) (u_id me) (with_default 0%Z offset)).
Proof.
  intros Hwf.
  assert (forall answer,
            homeFeed_returns Absent offset d (Some me) answer ->
            timeline_query_returns d (u_id me) (u_id me)
              (with_default 0%Z offset) (result_map (map fr_tweet) answer))
    as Hto.
  { intros answer (full & Hfull & ->).
    exists (map fr_tweet full). split.
    - apply feed_select_any_timeline; eauto.
    - apply limit_offset_map. }
  assert (distinct_created_at d (u_id me) ->
          forall answer tweets_answer,
            homeFeed_returns Absent offset d (Some me) answer ->
            timeline_query_returns d (u_id me) (u_id me)
              (with_default 0%Z offset) tweets_answer ->
            result_map (map fr_tweet) answer = tweets_answer) as Hsame.
  { intros Hnd answer tweets_answer Ha (ts & [Hp Hs] & ->).
    destruct (Hto answer Ha) as (ts' & [Hp' Hs'] & ->).
    f_equal.
    rewrite (@ordered_by_desc_unique _ t_created_at _ ts Hnd (conj Hp Hs)).
    now rewrite (@ordered_by_desc_unique _ t_created_at _ ts' Hnd (conj Hp' Hs')). }
  split; [exact Hto|]. split; [|split; [exact Hsame|]].
  - intros tweets_answer (ts & Hts & ->).
    apply feed_select_any_timeline in Hts as (full & Hfull & <-);
      [|assumption].
    exists (limit_offset (Some 20%Z) (with_default 0%Z offset) full).
    split; [exists full; auto|apply limit_offset_map].
  - intros Hnd. apply Hsame; [assumption|apply homeFeed_returns_model|].
    exists (timeline_select d (u_id me) (u_id me)).
    split; [apply ordered_by_desc_model|reflexivity].
Qed.

Lemma homeFeed_refines_timeline_query_witness :
  timeline_query_returns sample_db (u_id ann) (u_id ann)
    (with_default 0%Z (Val 1%Z))
    (result_map (map fr_tweet)
       (homeFeed Absent (Val 1%Z) sample_db (Some ann)))
  /\ map t_id (rows_of (result_map (map fr_tweet)
                          (homeFeed Absent (Val 1%Z) sample_db (Some ann))))
     = [11; 10].
Proof.
  split; [|vm_compute; reflexivity].
  destruct (@homeFeed_refines_timeline_query (Val 1%Z) sample_db ann
              sample_db_wf) as [H _].
  apply H. apply homeFeed_returns_model.
Defined.

(** ** Following, unfollowing and the timeline *)

Lemma exec_follow_db (now : timestamp) (id a b : uuid) (d d' : db) :
  exec now (InsertFollow id (Some a) (Some b)) d = Ok d' ->
  d' = {| users := users d; tweets := tweets d;
          follows := follows d ++
                     [{| f_id := id; f_follower_id := a; f_following_id := b;
                         f_created_at := now |}];
          likes := likes d; retweets := retweets d |}
  /\ has_key f_id (follows d) id = false
  /\ has_pair f_follower_id f_following_id (follows d) a b = false
  /\ has_key u_id (users d) a = true
  /\ has_key u_id (users d) b = true.
Proof.
  intros H. simpl in H. inv_exec H. auto.
Qed.

(** X2: the integration test "follow user and see their tweets in feed".
    Once the insert of the follow from [a] to [b] has succeeded, every tweet
    of [b] is in the home timeline of [a], whatever was in it before stays,
    and the "does [a] follow [b]" query answers yes. *)
Theorem follow_then_feed (now : timestamp) (id a b : uuid) (d d' : db) :
  wf d ->
  exec now (InsertFollow id (Some a) (Some b)) d = Ok d' ->
  (forall t, In t (tweets d) -> t_user_id t = b ->
             In t (map fr_tweet (feed_select d' a a)))
  /\ (forall t, In t (map fr_tweet (feed_select d a a)) ->
                In t (map fr_tweet (feed_select d' a a)))
  /\ is_following d' a b = true.
Proof.
  intros Hwf H.
  pose proof (exec_wf _ _ Hwf H) as Hwf'.
  destruct (exec_follow_db _ _ _ _ _ H) as (-> & _).
  assert (forall x y, follows_edge d x y ->
            follows_edge {| users := users d; tweets := tweets d;
                            follows := follows d ++
                              [{| f_id := id; f_follower_id := a;
                                  f_following_id := b; f_created_at := now |}];
                            likes := likes d; retweets := retweets d |} x y)
    as Hmono.
  { intros x y (f & Hin & E). exists f. simpl. rewrite in_app_iff. auto. }
  assert (follows_edge {| users := users d; tweets := tweets d;
                          follows := follows d ++
                            [{| f_id := id; f_follower_id := a;
                                f_following_id := b; f_created_at := now |}];
                          likes := likes d; retweets := retweets d |} a b)
    as Hedge.
  { eexists. simpl. rewrite in_app_iff. simpl. eauto. }
  split; [|split].
  - intros t Hin Hb. apply feed_select_In; [assumption|].
    simpl. split; [assumption|]. right. now rewrite Hb.
  - intros t Hin. apply feed_select_In in Hin as [Hin Hv]; [|assumption].
    apply feed_select_In; [assumption|]. simpl. split; [assumption|].
    destruct Hv as [Hv|Hv]; auto.
  - unfold is_following. now apply follows_edge_has_pair.
Qed.

Lemma follow_then_feed_witness :
  In {| t_id := 12; t_user_id := 3; t_content := JS.lit "from cy";
        t_created_at := 6%Z; t_updated_at := 6%Z |}
     (map fr_tweet
        (feed_select (step 11%Z (InsertFollow 21 (Some 1) (Some 3)) sample_db) 1 1))
  /\ is_following (step 11%Z (InsertFollow 21 (Some 1) (Some 3)) sample_db) 1 3
     = true.
Proof.
  destruct (@follow_then_feed 11%Z 21 1 3 sample_db
              (step 11%Z (InsertFollow 21 (Some 1) (Some 3)) sample_db)
              sample_db_wf ltac:(vm_compute; reflexivity)) as (H1 & _ & H3).
  split; [|exact H3].
  apply H1; [vm_compute; tauto|reflexivity].
Defined.

Lemma unfollow_edges (now : timestamp) (a b : uuid) (d : db) (x y : uuid) :
  follows_edge (step now (unfollow_stmt a b) d) x y <->
  follows_edge d x y /\ (x, y) <> (a, b).
Proof.
  unfold step, unfollow_stmt, follows_edge. simpl.
  split.
  - intros (f & Hin & <- & <-). apply remaining_In in Hin as [Hin Hp].
    split; [eauto|]. intros [= Ha Hb].
    rewrite Ha, Hb, !N.eqb_refl in Hp. discriminate.
  - intros [(f & Hin & <- & <-) Hne]. exists f. split; [|auto].
    apply remaining_In. split; [assumption|].
    apply andb_false_iff.
    destruct (N.eqb_spec (f_follower_id f) a) as [Ea|Ea]; [|auto].
    destruct (N.eqb_spec (f_following_id f) b) as [Eb|Eb]; [|auto].
    congruence.
Qed.

(** X3: unfollowing.  After
    [DELETE FROM follows WHERE follower_id = a AND following_id = b], with
    [a] and [b] two users, the home timeline of [a] holds what it held,
    without the tweets of [b]; the timeline of every other user holds what
    it held; and [a] no longer follows [b]. *)
Theorem unfollow_then_feed (now : timestamp) (a b c : uuid) (d : db) (t : tweet) :
  wf d -> a <> b ->
  (In t (map fr_tweet (feed_select (step now (unfollow_stmt a b) d) a a)) <->
   In t (map fr_tweet (feed_select d a a)) /\ t_user_id t <> b)
  /\ (c <> a ->
      (In t (map fr_tweet (feed_select (step now (unfollow_stmt a b) d) c c)) <->
       In t (map fr_tweet (feed_select d c c))))
  /\ is_following (step now (unfollow_stmt a b) d) a b = false.
Proof.
  intros Hwf Hab.
  pose proof (step_wf now (unfollow_stmt a b) Hwf) as Hwf'.
  assert (tweets (step now (unfollow_stmt a b) d) = tweets d) as Ht
    by reflexivity.
  split; [|split].
  - rewrite !feed_select_In, Ht, unfollow_edges by assumption.
    split.
    + intros [Hin [E|[He Hne]]].
      * split; [auto|]. congruence.
      * split; [auto|]. intros E. apply Hne. now rewrite E.
    + intros [[Hin [E|He]] Hne]; split; auto.
      right. split; [assumption|]. congruence.
  - intros Hc. rewrite !feed_select_In, Ht, unfollow_edges by assumption.
    split.
    + intros [Hin [E|[He _]]]; auto.
    + intros [Hin [E|He]]; split; auto.
      right. split; [assumption|]. congruence.
  - unfold is_following. apply not_true_iff_false.
    rewrite <- follows_edge_has_pair, unfollow_edges. tauto.
Qed.

Lemma unfollow_then_feed_witness :
  ~ In {| t_id := 11; t_user_id := 2; t_content := JS.lit "from bob";
          t_created_at := 5%Z; t_updated_at := 5%Z |}
       (map fr_tweet (feed_select (step 11%Z (unfollow_stmt 1 2) sample_db) 1 1))
  /\ is_following (step 11%Z (unfollow_stmt 1 2) sample_db) 1 2 = false.
Proof.
  destruct (@unfollow_then_feed 11%Z 1 2 3 sample_db
              {| t_id := 11; t_user_id := 2; t_content := JS.lit "from bob";
                 t_created_at := 5%Z; t_updated_at := 5%Z |}
              sample_db_wf ltac:(discriminate)) as ([H1 _] & _ & H3).
  split; [|exact H3].
  intros H. destruct (H1 H) as [_ Hne]. exact (Hne eq_refl).
Defined.

(** ** The rows of the timeline *)

Lemma feed_aggregate_author (d : db) (t : tweet) (r : feed_row) :
  In r (feed_aggregate (tweet_rows d t)) ->
  exists u, In u (users d) /\ u_id u = t_user_id t
            /\ fr_tweet r = t
            /\ fr_name r = u_name u /\ fr_avatar_url r = u_avatar_url u.
Proof.
  pose proof (in_tweet_rows d t) as Hrows.
  destruct (tweet_rows d t) as [|x rows]; [intros []|].
  simpl. intros [<-|[]].
  destruct (Hrows x (or_introl eq_refl)) as (Ht & Hu & Eu & _).
  exists (row_u x). simpl. auto.
Qed.

(** X4: every row that [homeFeed] returns is a tweet of the database
    together with the name and the avatar of its author: the one row of the
    users table that the tweet's [user_id] references. *)
Theorem homeFeed_rows_show_author (limit offset : arg Z) (d : db) (me : user)
    (rows : list feed_row) (r : feed_row) :
  wf d ->
  homeFeed limit offset d (Some me) = Ok rows ->
  In r rows ->
  In (fr_tweet r) (tweets d)
  /\ (exists! u, In u (users d) /\ u_id u = t_user_id (fr_tweet r))
  /\ (forall u, In u (users d) -> u_id u = t_user_id (fr_tweet r) ->
       fr_name r = u_name u /\ fr_avatar_url r = u_avatar_url u).
Proof.
  intros Hwf H Hin. unfold homeFeed, feed_query in H.
  apply limit_offset_incl in H. apply H in Hin.
  rewrite feed_select_rows in Hin by assumption.
  apply (Permutation_in _ (order_by_desc_perm _ _)) in Hin.
  apply in_flat_map in Hin as (t & Ht & Hin).
  apply filter_In in Ht as [Ht _].
  destruct (feed_aggregate_author _ _ _ Hin) as (u & Hu & Eu & -> & Hn & Ha).
  split; [assumption|]. split.
  - exists u. split; [auto|].
    intros u' [Hu' Eu'].
    eapply NoDup_map_eq; [apply (users_pkey Hwf)| | |]; congruence.
  - intros u' Hu' Eu'.
    assert (u' = u) as ->; [|auto].
    eapply NoDup_map_eq; [apply (users_pkey Hwf)| | |]; congruence.
Qed.

Lemma homeFeed_rows_show_author_witness :
  map (fun r => (t_id (fr_tweet r), fr_name r))
      (rows_of (homeFeed Absent Absent sample_db (Some ann)))
  = [(13, JS.lit "ann"); (11, JS.lit "bob"); (10, JS.lit "ann")]
  /\ In {| t_id := 11; t_user_id := 2; t_content := JS.lit "from bob";
           t_created_at := 5%Z; t_updated_at := 5%Z |} (tweets sample_db).
Proof.
  split; [vm_compute; reflexivity|].
  pose proof (@homeFeed_rows_show_author Absent Absent sample_db ann
                (rows_of (homeFeed Absent Absent sample_db (Some ann)))
                {| fr_tweet := {| t_id := 11; t_user_id := 2;
                                  t_content := JS.lit "from bob";
                                  t_created_at := 5%Z; t_updated_at := 5%Z |};
                   fr_name := JS.lit "bob"; fr_avatar_url := None;
                   fr_likes_count := 2; fr_retweets_count := 3 |}
                sample_db_wf
                ltac:(vm_compute; reflexivity)
                ltac:(vm_compute; tauto)) as [Hin _].
  exact Hin.
Defined.

(** ** A new tweet in its author's timeline *)

Section OrderNewest.
Context {A : Type}.
Variable key : A -> Z.

Lemma order_by_desc_In (l : list A) (x : A) :
  In x (order_by_desc key l) <-> In x l.
Proof.
  split; intros H.
  - now apply (Permutation_in _ (order_by_desc_perm key l)).
  - now apply (Permutation_in _ (Permutation_sym (order_by_desc_perm key l))).
Qed.

(** A row newer than all the others, appended last, sorts first. *)
Lemma order_by_desc_newest (l : list A) (x : A) :
  (forall y, In y l -> (key y < key x)%Z) ->
  order_by_desc key (l ++ [x]) = x :: order_by_desc key l.
Proof.
  induction l as [|y l IH]; simpl; intros H; [reflexivity|].
  rewrite IH by auto. simpl.
  destruct (Z.leb_spec (key x) (key y)) as [L|L]; [|reflexivity].
  specialize (H y (or_introl eq_refl)). lia.
Qed.

End OrderNewest.



Section OrderedNewest.
Context {A : Type}.
Variable key : A -> Z.


End OrderedNewest.





(** ** Likes: insert, count, delete *)

Lemma exec_like_db (now : timestamp) (id u t : uuid) (d d' : db) :
  exec now (InsertLike id (Some u) (Some t)) d = Ok d' ->
  d' = {| users := users d; tweets := tweets d; follows := follows d;
          likes := likes d ++
                   [{| l_id := id; l_user_id := u; l_tweet_id := t;
                       l_created_at := now |}];
          retweets := retweets d |}
  /\ has_pair l_user_id l_tweet_id (likes d) u t = false.
Proof.
  intros H. simpl in H. inv_exec H. auto.
Qed.

Lemma remaining_none {A} (p : A -> bool) (rows : list A) :
  existsb p rows = false -> remaining p rows = rows.
Proof.
  intros H. unfold remaining. apply filter_all. intros x Hin.
  apply negb_true_iff. destruct (p x) eqn:E; [|reflexivity].
  assert (existsb p rows = true) by (apply existsb_exists; eauto). congruence.
Qed.

(** X6: liking and unliking.  When the insert of a like of user [u] on
    tweet [t] succeeds, the count of likes of [t] grows by one and every
    other tweet keeps its count, the "has [u] liked [t]" query turns from no
    to yes, the row of [t] in any home timeline shows the new count, and
    deleting the like again ([DELETE FROM likes WHERE user_id = u AND
    tweet_id = t]) gives back the database as it was. *)
Theorem like_then_unlike (now now' : timestamp) (id u t : uuid) (d d' : db) :
  wf d ->
  exec now (InsertLike id (Some u) (Some t)) d = Ok d' ->
  count_likes d' t = S (count_likes d t)
  /\ (forall t', t' <> t -> count_likes d' t' = count_likes d t')
  /\ is_liked_by d u t = false
  /\ is_liked_by d' u t = true
  /\ (forall p r, In r (feed_select d' p p) -> t_id (fr_tweet r) = t ->
        fr_likes_count r = S (count_likes d t))
  /\ exec now' (unlike_stmt u t) d' = Ok d.
Proof.
  intros Hwf H.
  pose proof (exec_wf _ _ Hwf H) as Hwf'.
  destruct (exec_like_db _ _ _ _ _ H) as (Hd' & Hp).
  assert (count_likes d' t = S (count_likes d t)) as Hcount.
  { rewrite Hd'. unfold count_likes. simpl.
    rewrite filter_app, length_app. simpl. rewrite N.eqb_refl. simpl. lia. }
  split; [assumption|]. split; [|split; [assumption|split; [|split]]].
  - intros t' Hne. rewrite Hd'. unfold count_likes. simpl.
    rewrite filter_app, length_app. simpl.
    destruct (N.eqb_spec t t'); [congruence|]. simpl. lia.
  - rewrite Hd'. unfold is_liked_by, has_pair. simpl.
    rewrite existsb_app. simpl. rewrite !N.eqb_refl. simpl.
    apply orb_true_r.
  - intros p r Hin Ht.
    destruct (feed_select_counts _ _ _ Hwf' Hin) as [HL _].
    now rewrite HL, Ht.
  - rewrite Hd'. unfold unlike_stmt. simpl. unfold delete_likes. simpl.
    unfold remaining. rewrite filter_app. simpl. rewrite !N.eqb_refl. simpl.
    rewrite app_nil_r.
    change (filter (fun r => negb ((l_user_id r =? u) && (l_tweet_id r =? t)))
                   (likes d))
      with (remaining (fun r => (l_user_id r =? u) && (l_tweet_id r =? t))
                      (likes d)).
    rewrite remaining_none by exact Hp.
    destruct d. reflexivity.
Qed.

Lemma like_then_unlike_witness :
  count_likes (step 11%Z (InsertLike 33 (Some 2) (Some 11)) sample_db) 11
  = S (count_likes sample_db 11)
  /\ exec 12%Z (unlike_stmt 2 11)
          (step 11%Z (InsertLike 33 (Some 2) (Some 11)) sample_db)
     = Ok sample_db.
Proof.
  destruct (@like_then_unlike 11%Z 12%Z 33 2 11 sample_db
              (step 11%Z (InsertLike 33 (Some 2) (Some 11)) sample_db)
              sample_db_wf ltac:(vm_compute; reflexivity))
    as (H1 & _ & _ & _ & _ & H6).
  split; [exact H1|exact H6].
Defined.

(** ** Unique keys: the second insert *)

(** X7: the database test "follow constraint prevents duplicate follows".
    Once the insert of a follow from [a] to [b] has succeeded, a second
    insert of a follow from [a] to [b] is refused with a unique violation,
    whatever id it carries, and leaves the database as it is. *)
Theorem follow_twice_rejected (now now' : timestamp) (id id' a b : uuid) (d d' : db) :
  exec now (InsertFollow id (Some a) (Some b)) d = Ok d' ->
  (exists c, exec now' (InsertFollow id' (Some a) (Some b)) d'
             = Throw (DbError (UniqueViolation c)))
  /\ step now' (InsertFollow id' (Some a) (Some b)) d' = d'.
Proof.
  intros H. destruct (exec_follow_db _ _ _ _ _ H) as (Hd' & _).
  assert (has_pair f_follower_id f_following_id (follows d') a b = true) as Hp.
  { rewrite Hd'. unfold has_pair. simpl. rewrite existsb_app. simpl.
    rewrite !N.eqb_refl. simpl. apply orb_true_r. }
  assert (exists c, exec now' (InsertFollow id' (Some a) (Some b)) d'
                    = Throw (DbError (UniqueViolation c))) as [c E].
  { simpl. unfold insert_follow, not_null, check. simpl.
    destruct (has_key f_id (follows d') id'); simpl; [eauto|].
    rewrite Hp. simpl. eauto. }
  split; [eauto|]. unfold step. now rewrite E.
Qed.

Lemma follow_twice_rejected_witness :
  (exists c, exec 12%Z (InsertFollow 22 (Some 1) (Some 3))
                  (step 11%Z (InsertFollow 21 (Some 1) (Some 3)) sample_db)
             = Throw (DbError (UniqueViolation c)))
  /\ step 12%Z (InsertFollow 22 (Some 1) (Some 3))
          (step 11%Z (InsertFollow 21 (Some 1) (Some 3)) sample_db)
     = step 11%Z (InsertFollow 21 (Some 1) (Some 3)) sample_db.
Proof.
  apply (@follow_twice_rejected 11%Z 12%Z 21 22 1 3 sample_db).
  vm_compute. reflexivity.
Defined.

Lemma text_eqb_refl (a : text) : text_eqb a a = true.
Proof. unfold text_eqb. destruct (list_eq_dec N.eq_dec a a); congruence. Qed.

Lemma varchar_throws (n : nat) (v : option text) (err : error) :
  varchar n v = Throw err -> err = DbError StringDataRightTruncation.
Proof.
  unfold varchar. destruct v as [s|]; [|discriminate].
  destruct (length (characters s) <=? n)%nat; [discriminate|].
  destruct (forallb _ _); [discriminate|]. congruence.
Qed.

(** An INSERT into [users] whose email, as stored, is taken never succeeds. *)
Lemma insert_user_email_taken (now : timestamp) (id : uuid)
    (email e0 : text) (p n a b w : option text) (d : db) :
  varchar 255 (Some email) = Ok (Some e0) ->
  existsb (fun u => text_eqb (u_email u) e0) (users d) = true ->
  exists err, insert_user now id (Some email) p n a b w d = Throw (DbError err).
Proof.
  intros V X. unfold insert_user. rewrite V. cbn [bind].
  destruct (varchar 255 p) as [p0|ep] eqn:Vp; cbn [bind];
    [|apply varchar_throws in Vp; subst; eauto].
  destruct (varchar 255 n) as [n0|en] eqn:Vn; cbn [bind];
    [|apply varchar_throws in Vn; subst; eauto].
  destruct (varchar 255 w) as [w0|ew] eqn:Vw; cbn [bind];
    [|apply varchar_throws in Vw; subst; eauto].
  unfold not_null. cbn [bind].
  destruct p0 as [p0|]; cbn [bind]; [|eauto].
  destruct n0 as [n0|]; cbn [bind]; [|eauto].
  unfold check.
  destruct (has_key u_id (users d) id); cbn [negb bind]; [eauto|].
  rewrite X. cbn [negb bind]. eauto.
Qed.

(** X8: the test "should reject duplicate email".  Once a user with email
    [e] has been inserted, no further insert of a user with that email
    succeeds, whatever its id and its other columns (NULLs included): the
    database answers with an error and stays as it is.  For the same values
    under an id that is not in use, as in the test, the error is the unique
    violation of the email. *)
Theorem duplicate_email_rejected (now : timestamp) (id : uuid)
    (e p n : text) (a b w : option text) (d d' : db) :
  exec now (InsertUser id (Some e) (Some p) (Some n) a b w) d = Ok d' ->
  (forall now' id' p' n' a' b' w',
     (exists err, exec now' (InsertUser id' (Some e) p' n' a' b' w') d'
                  = Throw (DbError err))
     /\ step now' (InsertUser id' (Some e) p' n' a' b' w') d' = d')
  /\ (forall now' id',
        id' <> id -> has_key u_id (users d) id' = false ->
        exec now' (InsertUser id' (Some e) (Some p) (Some n) a b w) d'
        = Throw (DbError (UniqueViolation "users_email_key"))).
Proof.
  intros H. cbn [exec] in *. unfold insert_user in H.
  destruct (varchar 255 (Some e)) as [oe|] eqn:Ve; cbn [bind] in H;
    [|discriminate].
  destruct (varchar 255 (Some p)) as [op|] eqn:Vp; cbn [bind] in H;
    [|discriminate].
  destruct (varchar 255 (Some n)) as [on|] eqn:Vn; cbn [bind] in H;
    [|discriminate].
  destruct (varchar 255 w) as [ow|] eqn:Vw; cbn [bind] in H; [|discriminate].
  unfold not_null, check in H.
  destruct oe as [e0|]; cbn [bind] in H; [|discriminate].
  destruct op as [p0|]; cbn [bind] in H; [|discriminate].
  destruct on as [n0|]; cbn [bind] in H; [|discriminate].
  destruct (has_key u_id (users d) id) eqn:K; cbn [negb bind] in H;
    [discriminate|].
  destruct (existsb (fun u => text_eqb (u_email u) e0) (users d)) eqn:X;
    cbn [negb bind] in H; [discriminate|].
  injection H as <-.
  assert (forall us : list user,
            existsb (fun u => text_eqb (u_email u) e0)
              (us ++ [{| u_id := id; u_email := e0; u_password_hash := p0;
                         u_name := n0; u_avatar_url := a; u_bio := b;
                         u_website := ow;
                         u_created_at := now; u_updated_at := now |}]) = true)
    as Htaken.
  { intros us. rewrite existsb_app. cbn [existsb u_email].
    rewrite text_eqb_refl. cbn [orb]. apply orb_true_r. }
  split.
  - intros now' id' p' n' a' b' w'.
    destruct (@insert_user_email_taken now' id' e e0 p' n' a' b' w'
                {| users := users d ++
                     [{| u_id := id; u_email := e0; u_password_hash := p0;
                         u_name := n0; u_avatar_url := a; u_bio := b;
                         u_website := ow;
                         u_created_at := now; u_updated_at := now |}];
                   tweets := tweets d; follows := follows d;
                   likes := likes d; retweets := retweets d |}
                Ve (Htaken (users d))) as [err E].
    split; [eauto|]. unfold step. cbn [exec]. now rewrite E.
  - intros now' id' Hid Hfresh. unfold insert_user.
    rewrite Ve, Vp, Vn, Vw. cbn [bind not_null users].
    unfold check.
    assert (has_key u_id
              (users d ++
               [{| u_id := id; u_email := e0; u_password_hash := p0;
                   u_name := n0; u_avatar_url := a; u_bio := b;
                   u_website := ow;
                   u_created_at := now; u_updated_at := now |}]) id'
            = false) as ->.
    { unfold has_key in *. rewrite existsb_app, Hfresh. cbn [existsb u_id orb].
      rewrite orb_false_r. apply N.eqb_neq. congruence. }
    cbn [negb bind]. rewrite Htaken. reflexivity.
Qed.

Lemma duplicate_email_rejected_witness :
  exec 12%Z (signup_stmt 5 "dan") (step 11%Z (signup_stmt 5 "dan") sample_db)
  = Throw (DbError (UniqueViolation "users_pkey"))
  /\ exec 12%Z (signup_stmt 6 "dan") (step 11%Z (signup_stmt 5 "dan") sample_db)
     = Throw (DbError (UniqueViolation "users_email_key")).
Proof.
  split; [vm_compute; reflexivity|].
  assert (exec 11%Z (signup_stmt 5 "dan") sample_db
          = Ok (step 11%Z (signup_stmt 5 "dan") sample_db)) as H
    by (vm_compute; reflexivity).
  destruct (@duplicate_email_rejected 11%Z 5 (JS.lit "dan@test.com")
              (JS.lit "$2a$10$hash") (JS.lit "dan") None None None
              sample_db _ H) as [_ Hsame].
  apply (Hsame 12%Z 6); [discriminate|vm_compute; reflexivity].
Defined.

(** ** Deleting a user *)

Lemma gone_user_key (us : list user) (p x : uuid) :
  has_key u_id us x = true ->
  has_key u_id (filter (fun u => u_id u =? p) us) x = (x =? p).
Proof.
  intros Hx. destruct (N.eqb_spec x p) as [->|Hne].
  - rewrite has_key_filter_eqb by assumption. apply N.eqb_refl.
  - apply has_key_false. intros Hin.
    apply in_map_iff in Hin as (u & E & Hin).
    apply filter_In in Hin as [_ Hin]. apply N.eqb_eq in Hin. congruence.
Qed.

Lemma references_has_key {A} (fk : A -> uuid) (rows : list A)
    {B} (key : B -> uuid) (target : list B) (r : A) :
  references fk rows key target -> In r rows ->
  has_key key target (fk r) = true.
Proof.
  intros Href Hin. destruct (Href r Hin) as (x & Hx & E).
  apply has_key_true. eauto.
Qed.

(** X9: deleting a user.  After [DELETE FROM users WHERE id = p] the users
    table has lost the user [p] and nothing else; the tweets table has lost
    the tweets of [p] and nothing else; the follows table has lost the rows
    from or to [p]; the likes and the retweets tables have lost the rows of
    [p] and the rows on tweets of [p]; and no other row is touched. *)
Theorem delete_user_cascades (now : timestamp) (p : uuid) (d : db) :
  wf d ->
  (forall u, In u (users (step now (delete_user_stmt p) d)) <->
             In u (users d) /\ u_id u <> p)
  /\ (forall t, In t (tweets (step now (delete_user_stmt p) d)) <->
                In t (tweets d) /\ t_user_id t <> p)
  /\ (forall f, In f (follows (step now (delete_user_stmt p) d)) <->
                In f (follows d) /\ f_follower_id f <> p /\ f_following_id f <> p)
  /\ (forall l, In l (likes (step now (delete_user_stmt p) d)) <->
                In l (likes d) /\ l_user_id l <> p
                /\ forall t, In t (tweets d) -> t_id t = l_tweet_id l ->
                             t_user_id t <> p)
  /\ (forall r, In r (retweets (step now (delete_user_stmt p) d)) <->
                In r (retweets d) /\ r_user_id r <> p
                /\ forall t, In t (tweets d) -> t_id t = r_tweet_id r ->
                             t_user_id t <> p).
Proof.
  intros Hwf. unfold step, delete_user_stmt. simpl.
  assert (forall t, In t (tweets d) ->
            has_key u_id (filter (fun u => u_id u =? p) (users d)) (t_user_id t)
            = (t_user_id t =? p)) as Htw.
  { intros t Hin. apply gone_user_key.
    eapply references_has_key; [apply (tweets_user_id_fkey Hwf)|assumption]. }
  assert (forall x,
            has_key t_id
              (filter (fun t => has_key u_id
                                  (filter (fun u => u_id u =? p) (users d))
                                  (t_user_id t)) (tweets d)) x = false <->
            forall t, In t (tweets d) -> t_id t = x -> t_user_id t <> p) as Hgone.
  { intros x. rewrite has_key_false, in_map_iff. split.
    - intros H t Hin E Hp. apply H. exists t. split; [assumption|].
      apply filter_In. split; [assumption|]. rewrite Htw by assumption.
      now apply N.eqb_eq.
    - intros H (t & E & Hin). apply filter_In in Hin as [Hin Hk].
      rewrite Htw in Hk by assumption. apply N.eqb_eq in Hk.
      exact (H t Hin E Hk). }
  split; [|split; [|split; [|split]]].
  - intros u. rewrite remaining_In, N.eqb_neq. reflexivity.
  - intros t. rewrite remaining_In. split.
    + intros [Hin Hk]. rewrite Htw in Hk by assumption.
      apply N.eqb_neq in Hk. auto.
    + intros [Hin Hne]. split; [assumption|]. rewrite Htw by assumption.
      now apply N.eqb_neq.
  - intros f. rewrite remaining_In, orb_false_iff. split.
    + intros [Hin [H1 H2]].
      rewrite gone_user_key in H1, H2
        by (eapply references_has_key;
            [first [apply (follows_follower_id_fkey Hwf)
                   |apply (follows_following_id_fkey Hwf)]|assumption]).
      apply N.eqb_neq in H1, H2. auto.
    + intros (Hin & H1 & H2). split; [assumption|].
      rewrite !gone_user_key
        by (eapply references_has_key;
            [first [apply (follows_follower_id_fkey Hwf)
                   |apply (follows_following_id_fkey Hwf)]|assumption]).
      now rewrite !N.eqb_neq.
  - intros l. rewrite !remaining_In, Hgone. split.
    + intros [[Hin Ht] Hu].
      rewrite gone_user_key in Hu
        by (eapply references_has_key;
            [apply (likes_user_id_fkey Hwf)|assumption]).
      apply N.eqb_neq in Hu. auto.
    + intros (Hin & Hu & Ht). split; [auto|].
      rewrite gone_user_key
        by (eapply references_has_key;
            [apply (likes_user_id_fkey Hwf)|assumption]).
      now apply N.eqb_neq.
  - intros r. rewrite !remaining_In, Hgone. split.
    + intros [[Hin Ht] Hu].
      rewrite gone_user_key in Hu
        by (eapply references_has_key;
            [apply (retweets_user_id_fkey Hwf)|assumption]).
      apply N.eqb_neq in Hu. auto.
    + intros (Hin & Hu & Ht). split; [auto|].
      rewrite gone_user_key
        by (eapply references_has_key;
            [apply (retweets_user_id_fkey Hwf)|assumption]).
      now apply N.eqb_neq.
Qed.

Lemma delete_user_cascades_witness :
  map t_id (tweets (step 11%Z (delete_user_stmt 2) sample_db)) = [10; 12; 13]
  /\ (forall l, In l (likes (step 11%Z (delete_user_stmt 2) sample_db)) <->
                In l (likes sample_db) /\ l_user_id l <> 2
                /\ forall t, In t (tweets sample_db) -> t_id t = l_tweet_id l ->
                             t_user_id t <> 2).
Proof.
  split; [vm_compute; reflexivity|].
  destruct (@delete_user_cascades 11%Z 2 sample_db sample_db_wf)
    as (_ & _ & _ & Hl & _).
  exact Hl.
Defined.

(** ** The arguments of homeFeed *)

(** X10: the arguments of [homeFeed] at their edges.  An explicit [null]
    for both arguments lifts the pagination and returns the whole timeline
    (the default 20 replaces a missing limit only); a negative offset, and
    a negative limit with a proper offset, make the query fail with the
    database's error; an offset at or past the end gives the empty page; and
    a page has [min l (n - o)] rows, for a timeline of [n] rows. *)
Theorem homeFeed_arguments (l o : Z) (limit : arg Z) (d : db) (me : user) :
  homeFeed Null Null d (Some me) = Ok (feed_select d (u_id me) (u_id me))
  /\ homeFeed Absent Null d (Some me)
     = Ok (firstn 20 (feed_select d (u_id me) (u_id me)))
  /\ ((o < 0)%Z ->
      homeFeed limit (Val o) d (Some me)
      = Throw (DbError (InvalidRowCount "OFFSET")))
  /\ ((l < 0)%Z -> (0 <= o)%Z ->
      homeFeed (Val l) (Val o) d (Some me)
      = Throw (DbError (InvalidRowCount "LIMIT")))
  /\ ((0 <= l)%Z -> (0 <= o)%Z ->
      (length (feed_select d (u_id me) (u_id me)) <= Z.to_nat o)%nat ->
      homeFeed (Val l) (Val o) d (Some me) = Ok [])
  /\ ((0 <= l)%Z -> (0 <= o)%Z ->
      exists page,
        homeFeed (Val l) (Val o) d (Some me) = Ok page
        /\ length page
           = Nat.min (Z.to_nat l)
                     (length (feed_select d (u_id me) (u_id me)) - Z.to_nat o)).
Proof.
  split; [reflexivity|]. split; [reflexivity|].
  split; [|split; [|split]].
  - intros Ho. unfold homeFeed, feed_query, limit_offset, row_count. simpl.
    destruct (Z.ltb_spec o 0); [reflexivity|lia].
  - intros Hl Ho. unfold homeFeed, feed_query, limit_offset, row_count. simpl.
    destruct (Z.ltb_spec o 0); [lia|]. simpl.
    destruct (Z.ltb_spec l 0); [reflexivity|lia].
  - intros Hl Ho Hlen. rewrite homeFeed_page by assumption.
    rewrite skipn_all2 by assumption. now rewrite firstn_nil.
  - intros Hl Ho. eexists. split; [now apply homeFeed_page|].
    now rewrite length_firstn, length_skipn.
Qed.

Lemma homeFeed_arguments_witness :
  homeFeed (Val 5%Z) (Val 3%Z) sample_db (Some ann) = Ok []
  /\ homeFeed (Val (-1)%Z) (Val 0%Z) sample_db (Some ann)
     = Throw (DbError (InvalidRowCount "LIMIT"))
  /\ map (fun r => t_id (fr_tweet r))
         (rows_of (homeFeed Null Null sample_db (Some ann))) = [13; 11; 10].
Proof.
  destruct (@homeFeed_arguments 5%Z 3%Z Absent sample_db ann)
    as (_ & _ & _ & _ & Hend & _).
  destruct (@homeFeed_arguments (-1)%Z 0%Z Absent sample_db ann)
    as (_ & _ & _ & Hneg & _).
  split; [apply Hend; [lia|lia|vm_compute; lia]|].
  split; [apply Hneg; lia|].
  vm_compute. reflexivity.
Defined.

(** ** Histories *)

(** X11: whatever statements are run, in whatever order and whether they
    succeed or are refused, a database that started empty satisfies every
    constraint of the schema; and so does any database that satisfied them
    before the statements. *)
Theorem reachable_db_wf (history : list (timestamp * stmt)) (d : db) :
  wf (replay history empty_db) /\ (wf d -> wf (replay history d)).
Proof.
  split; [apply replay_wf, wf_empty|apply replay_wf].
Qed.

Lemma reachable_db_wf_witness :
  wf (replay busy_history empty_db)
  /\ wf (replay [(11%Z, delete_user_stmt 2); (12%Z, unfollow_stmt 1 2)] sample_db).
Proof.
  split.
  - apply (proj1 (reachable_db_wf busy_history empty_db)).
  - apply (proj2 (reachable_db_wf [(11%Z, delete_user_stmt 2);
                                   (12%Z, unfollow_stmt 1 2)] sample_db)).
    exact sample_db_wf.
Defined.

(** ** The DataLoader's batch function *)

Lemma find_filter {A} (p q : A -> bool) (l : list A) :
  (forall x, p x = true -> q x = true) ->
  find p (filter q l) = find p l.
Proof.
  intros H. induction l as [|x l IH]; simpl; [reflexivity|].
  destruct (q x) eqn:Q; simpl.
  - destruct (p x); auto.
  - destruct (p x) eqn:P; [|assumption].
    rewrite (H x P) in Q. discriminate.
Qed.

Lemma userLoader_batch_lookup (d : db) (userIds : list uuid) :
  userLoader_batch d userIds
  = map (fun id => find (fun u => u_id u =? id) (users d)) userIds.
Proof.
  unfold userLoader_batch, users_whereIn.
  apply map_ext_in. intros id Hin. apply find_filter.
  intros u E. apply N.eqb_eq in E. apply existsb_exists.
  exists id. split; [assumption|]. now apply N.eqb_eq.
Qed.

(** X12: the contract of a DataLoader batch function.  The answer has one
    entry for each requested id, in the order of the ids (repeated ids get
    repeated entries); the entry of an id is a row of the users table with
    that id, the same one that a lookup in the whole table finds, and it is
    [undefined] exactly when no user has that id. *)
Theorem userLoader_batch_contract (d : db) (userIds : list uuid) (i : nat) (id : uuid) :
  length (userLoader_batch d userIds) = length userIds
  /\ (nth_error userIds i = Some id ->
      nth_error (userLoader_batch d userIds) i
      = Some (find (fun u => u_id u =? id) (users d))
      /\ (forall u, nth_error (userLoader_batch d userIds) i = Some (Some u) ->
                    In u (users d) /\ u_id u = id)
      /\ (nth_error (userLoader_batch d userIds) i = Some None <->
          has_key u_id (users d) id = false)).
Proof.
  rewrite userLoader_batch_lookup. split; [apply length_map|].
  intros Hi.
  assert (nth_error (map (fun id => find (fun u => u_id u =? id) (users d)) userIds) i
          = Some (find (fun u => u_id u =? id) (users d))) as E.
  { exact (map_nth_error (fun id => find (fun u => u_id u =? id) (users d))
                         i userIds Hi). }
  rewrite E. split; [reflexivity|]. split.
  - intros u [= Hf]. apply find_some in Hf as [Hin Hid].
    apply N.eqb_eq in Hid. auto.
  - split.
    + intros [= Hf]. apply has_key_false. intros Hin.
      apply in_map_iff in Hin as (u & Eu & Hin).
      pose proof (find_none _ _ Hf u Hin) as Hn. simpl in Hn.
      apply N.eqb_neq in Hn. congruence.
    + intros Hk. f_equal.
      destruct (find (fun u => u_id u =? id) (users d)) as [u|] eqn:Hf;
        [|reflexivity].
      apply find_some in Hf as [Hin Hid]. apply N.eqb_eq in Hid.
      apply has_key_false in Hk. exfalso. apply Hk.
      rewrite <- Hid. now apply in_map.
Qed.

Lemma userLoader_batch_contract_witness :
  nth_error (userLoader_batch sample_db [3; 9; 3]) 1
  = Some (find (fun u => u_id u =? 9) (users sample_db))
  /\ map (option_map u_id) (userLoader_batch sample_db [3; 9; 3])
     = [Some 3; None; Some 3].
Proof.
  split; [|vm_compute; reflexivity].
  destruct (proj2 (userLoader_batch_contract sample_db [3; 9; 3] 1 9) eq_refl)
    as (H & _).
  exact H.
Defined.

(** ** The list of the users that a user follows *)

Lemma length_filter_sum {A} (p : A -> bool) (l : list A) :
  length (filter p l) = list_sum (map (fun x => if p x then 1 else 0)%nat l).
Proof.
  induction l as [|x l IH]; simpl; [reflexivity|].
  destruct (p x); simpl; now rewrite IH.
Qed.

Lemma list_sum_map_add {A} (f g : A -> nat) (l : list A) :
  list_sum (map (fun x => f x + g x)%nat l)
  = (list_sum (map f l) + list_sum (map g l))%nat.
Proof.
  induction l as [|x l IH]; simpl; [reflexivity|]. rewrite IH. lia.
Qed.

(** Counting the matching pairs of a join row by row or column by column. *)
Lemma join_count_swap {A B} (g : A -> B -> bool) (xs : list A) (ys : list B) :
  list_sum (map (fun x => length (filter (g x) ys)) xs)
  = list_sum (map (fun y => length (filter (fun x => g x y) xs)) ys).
Proof.
  induction xs as [|x xs IH]; simpl.
  - induction ys as [|y ys IHy]; simpl; auto.
  - rewrite IH, length_filter_sum, <- list_sum_map_add.
    f_equal. apply map_ext. intros y. destruct (g x y); reflexivity.
Qed.

Lemma length_flat_map_sum {A B} (f : A -> list B) (l : list A) :
  length (flat_map f l) = list_sum (map (fun x => length (f x)) l).
Proof.
  induction l as [|x l IH]; simpl; [reflexivity|].
  now rewrite length_app, IH.
Qed.

Lemma one_match {A} (key : A -> uuid) (rows : list A) (k : uuid) :
  NoDup (map key rows) -> has_key key rows k = true ->
  length (filter (fun r => key r =? k) rows) = 1%nat.
Proof.
  induction rows as [|r rows IH]; simpl; intros Hnd Hk; [discriminate|].
  inversion Hnd as [|? ? Hr Hnd']; subst.
  destruct (N.eqb_spec (key r) k) as [E|E]; simpl.
  - f_equal. rewrite filter_none; [reflexivity|].
    intros r' Hin. apply N.eqb_neq. intros E'.
    apply Hr. rewrite E, <- E'. now apply in_map.
  - apply IH; assumption.
Qed.

Lemma following_query_rows (d : db) (p : uuid) :
  following_query d p
  = flat_map (fun u =>
      map (fun _ => u)
          (filter (fun f => (u_id u =? f_following_id f) && (f_follower_id f =? p))
                  (follows d)))
      (users d).
Proof.
  unfold following_query, inner_join.
  rewrite filter_flat_map, flat_map_concat_map, concat_map, map_map,
          <- flat_map_concat_map.
  apply flat_map_ext. intros u.
  induction (follows d) as [|f fs IH]; simpl; [reflexivity|].
  destruct (u_id u =? f_following_id f); simpl; [|assumption].
  destruct (f_follower_id f =? p); simpl; now rewrite IH.
Qed.

Lemma NoDup_flat_map_key {A B K} (k : A -> K) (k' : B -> K)
    (f : A -> list B) (xs : list A) :
  NoDup (map k xs) ->
  (forall x, In x xs -> (length (f x) <= 1)%nat) ->
  (forall x y, In x xs -> In y (f x) -> k' y = k x) ->
  NoDup (map k' (flat_map f xs)).
Proof.
  induction xs as [|x xs IH]; simpl; intros Hnd Hlen Hkey; [constructor|].
  inversion Hnd as [|? ? Hx Hnd']; subst.
  rewrite map_app. apply NoDup_app.
  - pose proof (Hlen x (or_introl eq_refl)) as L.
    destruct (f x) as [|y [|z l]]; simpl in *; try lia.
    + constructor.
    + constructor; [intros []|constructor].
  - apply IH; auto.
  - intros a Ha Hb.
    apply in_map_iff in Ha as (y & <- & Hy).
    apply in_map_iff in Hb as (y' & E & Hy').
    apply in_flat_map in Hy' as (x' & Hx' & Hy').
    apply Hx. rewrite <- (Hkey x y (or_introl eq_refl) Hy), <- E.
    rewrite (Hkey x' y' (or_intror Hx') Hy'). now apply in_map.
Qed.

Lemma following_query_In (d : db) (p : uuid) (u : user) :
  In u (following_query d p) <-> In u (users d) /\ follows_edge d p (u_id u).
Proof.
  unfold following_query. rewrite in_map_iff. split.
  - intros ([u' f] & <- & Hin). apply filter_In in Hin as [Hin Hf].
    apply in_inner_join in Hin as (Hu & Hfo & E).
    simpl in *. apply N.eqb_eq in E, Hf.
    split; [assumption|]. exists f. auto.
  - intros (Hu & f & Hin & Hf & E). exists (u, f). split; [reflexivity|].
    apply filter_In. simpl. split; [|now apply N.eqb_eq].
    apply in_inner_join. rewrite N.eqb_eq. auto.
Qed.

Lemma following_query_ids (d : db) (p : uuid) :
  wf d -> NoDup (map u_id (following_query d p)).
Proof.
  intros Hwf. rewrite following_query_rows.
  apply NoDup_flat_map_key with (k := u_id); [apply (users_pkey Hwf)| |].
  - intros x Hx. rewrite length_map.
    pose proof (follows_key Hwf p (u_id x)) as Hu.
    unfold rows_with_pair in Hu.
    erewrite filter_ext; [exact Hu|].
    intros f. simpl. rewrite andb_comm. f_equal. apply N.eqb_sym.
  - intros x y Hx Hy. apply in_map_iff in Hy as (f & <- & _). reflexivity.
Qed.

Lemma following_query_length (d : db) (p : uuid) :
  wf d -> length (following_query d p) = count_following d p.
Proof.
  intros Hwf. rewrite following_query_rows, length_flat_map_sum.
  erewrite map_ext; [|intros x; apply length_map].
  rewrite (join_count_swap
             (fun x f => (u_id x =? f_following_id f) && (f_follower_id f =? p))).
  unfold count_following. rewrite length_filter_sum.
  f_equal. apply map_ext_in. intros f Hin.
  destruct (f_follower_id f =? p).
  - erewrite filter_ext; [|intros x; apply andb_true_r].
    apply one_match; [apply (users_pkey Hwf)|].
    eapply references_has_key;
      [apply (follows_following_id_fkey Hwf)|assumption].
  - rewrite filter_none; [reflexivity|]. intros x _. apply andb_false_r.
Qed.

(** X13: the list of the users that [p] follows
    ([SELECT u.* FROM users u JOIN follows f ON u.id = f.following_id WHERE
    f.follower_id = p]) holds exactly the users that [p] follows, each of
    them once, and as many rows as
    [SELECT COUNT( * ) FROM follows WHERE follower_id = p] counts. *)
Theorem following_query_exact (d : db) (p : uuid) (u : user) :
  wf d ->
  (In u (following_query d p) <-> In u (users d) /\ follows_edge d p (u_id u))
  /\ NoDup (map u_id (following_query d p))
  /\ length (following_query d p) = count_following d p.
Proof.
  intros Hwf. split; [apply following_query_In|].
  split; [now apply following_query_ids|now apply following_query_length].
Qed.

Lemma following_query_exact_witness :
  map u_id (following_query sample_db 1) = [2]
  /\ length (following_query sample_db 1) = count_following sample_db 1.
Proof.
  split; [vm_compute; reflexivity|].
  apply (proj2 (proj2 (@following_query_exact sample_db 1 bob sample_db_wf))).
Defined.

(** ** The profile with its statistics *)

Lemma left_join_each {A B} (on : A -> B -> bool) (xs : list A) (ys : list B) :
  left_join on xs ys = flat_map (fun x => left_join on [x] ys) xs.
Proof.
  unfold left_join. apply flat_map_ext. intros x. simpl. now rewrite app_nil_r.
Qed.

Lemma profile_joins_each (us : list user) (d : db) :
  profile_joins us d = flat_map (fun u => profile_joins [u] d) us.
Proof.
  unfold profile_joins.
  rewrite (left_join_each _ us). now rewrite !left_join_flat_map.
Qed.

Lemma in_profile_rows (d : db) (u : user) (x : profile_joined) :
  In x (profile_joins [u] d) ->
  prow_u x = u
  /\ (forall t, prow_t x = Some t -> In t (tweets d) /\ t_user_id t = u_id u)
  /\ (forall f, prow_f1 x = Some f -> In f (follows d) /\ f_following_id f = u_id u)
  /\ (forall f, prow_f2 x = Some f -> In f (follows d) /\ f_follower_id f = u_id u).
Proof.
  destruct x as [[[u' ot] o1] o2].
  unfold profile_joins, prow_u, prow_t, prow_f1, prow_f2. cbn [fst snd].
  intros H2.
  pose proof (in_left_join_fst _ _ _ _ _ H2) as H1.
  pose proof (in_left_join_fst _ _ _ _ _ H1) as H0.
  pose proof (in_left_join_fst _ _ _ _ _ H0) as [<-|[]].
  split; [reflexivity|]. split; [|split].
  - intros t ->. apply in_left_join_some in H0 as (_ & Ht & E).
    apply N.eqb_eq in E. auto.
  - intros f ->. apply in_left_join_some in H1 as (_ & Hf & E).
    cbn [fst] in E. apply N.eqb_eq in E. auto.
  - intros f ->. apply in_left_join_some in H2 as (_ & Hf & E).
    cbn [fst] in E. apply N.eqb_eq in E. auto.
Qed.

Lemma profile_rows_tweet (d : db) (u : user) (t : tweet) :
  In t (tweets d) -> t_user_id t = u_id u ->
  exists x, In x (profile_joins [u] d) /\ prow_t x = Some t.
Proof.
  intros Ht E.
  assert (In (u, Some t)
             (left_join (fun u t => u_id u =? t_user_id t) [u] (tweets d))) as H0.
  { apply in_left_join_some. simpl. rewrite N.eqb_eq. auto. }
  destruct (left_join_total (fun x f1 => u_id (fst x) =? f_following_id f1)
              _ (follows d) _ H0) as [o1 H1].
  destruct (left_join_total (fun x f2 => u_id (fst (fst x)) =? f_follower_id f2)
              _ (follows d) _ H1) as [o2 H2].
  exists (u, Some t, o1, o2). auto.
Qed.

Lemma profile_rows_follower (d : db) (u : user) (f : follow) :
  In f (follows d) -> f_following_id f = u_id u ->
  exists x, In x (profile_joins [u] d) /\ prow_f1 x = Some f.
Proof.
  intros Hf E.
  destruct (left_join_total (fun u t => u_id u =? t_user_id t)
              [u] (tweets d) u (or_introl eq_refl)) as [ot H0].
  assert (In (u, ot, Some f)
             (left_join (fun x f1 => u_id (fst x) =? f_following_id f1)
                (left_join (fun u t => u_id u =? t_user_id t) [u] (tweets d))
                (follows d))) as H1.
  { apply in_left_join_some. cbn [fst]. rewrite N.eqb_eq. auto. }
  destruct (left_join_total (fun x f2 => u_id (fst (fst x)) =? f_follower_id f2)
              _ (follows d) _ H1) as [o2 H2].
  exists (u, ot, Some f, o2). auto.
Qed.

Lemma profile_rows_following (d : db) (u : user) (f : follow) :
  In f (follows d) -> f_follower_id f = u_id u ->
  exists x, In x (profile_joins [u] d) /\ prow_f2 x = Some f.
Proof.
  intros Hf E.
  destruct (left_join_total (fun u t => u_id u =? t_user_id t)
              [u] (tweets d) u (or_introl eq_refl)) as [ot H0].
  destruct (left_join_total (fun x f1 => u_id (fst x) =? f_following_id f1)
              _ (follows d) _ H0) as [o1 H1].
  exists (u, ot, o1, Some f). split; [|reflexivity].
  unfold profile_joins. apply in_left_join_some.
  cbn [fst]. rewrite N.eqb_eq. auto.
Qed.

Lemma profile_rows_nonempty (d : db) (u : user) : profile_joins [u] d <> [].
Proof.
  destruct (left_join_total (fun u t => u_id u =? t_user_id t)
              [u] (tweets d) u (or_introl eq_refl)) as [ot H0].
  destruct (left_join_total (fun x f1 => u_id (fst x) =? f_following_id f1)
              _ (follows d) _ H0) as [o1 H1].
  destruct (left_join_total (fun x f2 => u_id (fst (fst x)) =? f_follower_id f2)
              _ (follows d) _ H1) as [o2 H2].
  intros E. unfold profile_joins in E. rewrite E in H2. contradiction.
Qed.

Lemma filter_key_one {A} (key : A -> uuid) (rows : list A) (r : A) :
  NoDup (map key rows) -> In r rows ->
  filter (fun y => key y =? key r) rows = [r].
Proof.
  induction rows as [|y rows IH]; simpl; intros Hnd Hin; [contradiction|].
  inversion Hnd as [|? ? Hy Hnd']; subst.
  destruct Hin as [->|Hin].
  - rewrite N.eqb_refl. f_equal. apply filter_none.
    intros z Hz. apply N.eqb_neq. intros E. apply Hy. rewrite <- E.
    now apply in_map.
  - destruct (N.eqb_spec (key y) (key r)) as [E|E]; [|auto].
    exfalso. apply Hy. rewrite E. now apply in_map.
Qed.

Lemma profile_query_groups (d : db) (p : uuid) :
  wf d ->
  group_by N.eqb (fun x => u_id (prow_u x))
    (filter (fun x => u_id (prow_u x) =? p) (profile_joins (users d) d))
  = map (fun u => profile_joins [u] d) (filter (fun u => u_id u =? p) (users d)).
Proof.
  intros Hwf.
  assert (filter (fun x => u_id (prow_u x) =? p) (profile_joins (users d) d)
          = flat_map (fun u => profile_joins [u] d)
                     (filter (fun u => u_id u =? p) (users d))) as ->.
  { rewrite profile_joins_each, filter_flat_map, <- flat_map_where.
    apply flat_map_ext. intros u.
    destruct (u_id u =? p) eqn:E.
    - apply filter_all. intros x Hx.
      apply in_profile_rows in Hx as (-> & _). assumption.
    - apply filter_none. intros x Hx.
      apply in_profile_rows in Hx as (-> & _). assumption. }
  apply group_by_flat_map with (k := u_id).
  - apply N.eqb_eq.
  - apply NoDup_map_filter, (users_pkey Hwf).
  - intros u _. split; [apply profile_rows_nonempty|].
    intros x Hx. apply in_profile_rows in Hx as (-> & _). reflexivity.
Qed.

(** X14: the profile query with its statistics.  For a user of the
    database the query returns one row: that user, with [tweets_count] the
    number of the user's tweets, [followers_count] the number of follows
    rows that point to the user and [following_count] the number that start
    from the user, as the stand-alone COUNT queries compute them; the three
    left joins multiply rows and the DISTINCT counts are exact all the same.
    For an id that no user has the query returns no row. *)
Theorem profile_query_exact (d : db) (u : user) (p : uuid) :
  wf d ->
  (In u (users d) ->
   profile_query d (u_id u)
   = [{| pr_user := u;
         pr_tweets_count := length (user_tweets d (u_id u));
         pr_followers_count := count_followers d (u_id u);
         pr_following_count := count_following d (u_id u) |}])
  /\ (has_key u_id (users d) p = false -> profile_query d p = []).
Proof.
  intros Hwf. unfold profile_query. rewrite !profile_query_groups by assumption.
  split.
  - intros Hu. rewrite (filter_key_one u_id _ _ (users_pkey Hwf) Hu).
    simpl. rewrite app_nil_r.
    pose proof (profile_rows_nonempty d u) as Hne.
    pose proof (in_profile_rows d u) as Hrows.
    pose proof (profile_rows_tweet d u) as Ht.
    pose proof (profile_rows_follower d u) as H1.
    pose proof (profile_rows_following d u) as H2.
    destruct (profile_joins [u] d) as [|x rows]; [congruence|].
    unfold profile_aggregate. f_equal.
    destruct (Hrows x (or_introl eq_refl)) as (-> & _).
    f_equal.
    + unfold count_distinct, user_tweets. rewrite <- (length_map t_id).
      apply length_distinct; [apply N.eqb_eq| |].
      * apply NoDup_map_filter, (tweets_pkey Hwf).
      * intros i. rewrite in_non_null, !in_map_iff. split.
        -- intros (y & E & Hy). destruct (prow_t y) as [t|] eqn:R; [|discriminate].
           injection E as <-. destruct (Hrows y Hy) as (_ & Hin & _).
           destruct (Hin t R) as [Hin1 Hin2].
           exists t. split; auto. apply filter_In. split; auto.
           now apply N.eqb_eq.
        -- intros (t & <- & Hin). apply filter_In in Hin as [Hin E].
           apply N.eqb_eq in E. destruct (Ht t Hin E) as (y & Hy & R).
           exists y. rewrite R. auto.
    + unfold count_distinct, count_followers. rewrite <- (length_map f_id).
      apply length_distinct; [apply N.eqb_eq| |].
      * apply NoDup_map_filter, (follows_pkey Hwf).
      * intros i. rewrite in_non_null, !in_map_iff. split.
        -- intros (y & E & Hy). destruct (prow_f1 y) as [f|] eqn:R; [|discriminate].
           injection E as <-. destruct (Hrows y Hy) as (_ & _ & Hin & _).
           destruct (Hin f R) as [Hin1 Hin2].
           exists f. split; auto. apply filter_In. split; auto.
           now apply N.eqb_eq.
        -- intros (f & <- & Hin). apply filter_In in Hin as [Hin E].
           apply N.eqb_eq in E. destruct (H1 f Hin E) as (y & Hy & R).
           exists y. rewrite R. auto.
    + unfold count_distinct, count_following. rewrite <- (length_map f_id).
      apply length_distinct; [apply N.eqb_eq| |].
      * apply NoDup_map_filter, (follows_pkey Hwf).
      * intros i. rewrite in_non_null, !in_map_iff. split.
        -- intros (y & E & Hy). destruct (prow_f2 y) as [f|] eqn:R; [|discriminate].
           injection E as <-. destruct (Hrows y Hy) as (_ & _ & _ & Hin).
           destruct (Hin f R) as [Hin1 Hin2].
           exists f. split; auto. apply filter_In. split; auto.
           now apply N.eqb_eq.
        -- intros (f & <- & Hin). apply filter_In in Hin as [Hin E].
           apply N.eqb_eq in E. destruct (H2 f Hin E) as (y & Hy & R).
           exists y. rewrite R. auto.
  - intros Hk. rewrite filter_none; [reflexivity|].
    intros x Hx. apply N.eqb_neq. intros E.
    apply has_key_false in Hk. apply Hk. rewrite <- E. now apply in_map.
Qed.

Lemma profile_query_exact_witness :
  map (fun r => (u_id (pr_user r), pr_tweets_count r, pr_followers_count r,
                 pr_following_count r))
      (profile_query sample_db 1)
  = [(1, 2%nat, 0%nat, 1%nat)]
  /\ profile_query sample_db 9 = [].
Proof.
  split; [vm_compute; reflexivity|].
  apply (proj2 (@profile_query_exact sample_db ann 9 sample_db_wf)).
  vm_compute. reflexivity.
Defined.

(** ** The two validations of a tweet's content *)

Lemma trim_start_nil (s : text) :
  trim_start s = [] <-> forallb is_white_space s = true.
Proof.
  induction s as [|c s IH]; simpl; [tauto|].
  destruct (is_white_space c); simpl; [assumption|].
  split; discriminate.
Qed.

Lemma forallb_rev {A} (p : A -> bool) (l : list A) :
  forallb p (rev l) = true <-> forallb p l = true.
Proof.
  rewrite !forallb_forall. split; intros H x Hx; apply H.
  - now apply in_rev in Hx.
  - now apply in_rev.
Qed.

Lemma trim_start_white (s : text) :
  forallb is_white_space (trim_start s) = true <-> forallb is_white_space s = true.
Proof.
  induction s as [|c s IH]; simpl; [tauto|].
  destruct (is_white_space c) eqn:W; simpl; [assumption|].
  rewrite W. simpl. tauto.
Qed.

Lemma trim_blank (s : text) :
  length (trim s) = 0%nat <-> forallb is_white_space s = true.
Proof.
  unfold trim. rewrite length_rev, length_zero_iff_nil, trim_start_nil,
    forallb_rev. apply trim_start_white.
Qed.

(** X15: the validation of [createTweet] passes a content exactly when it
    has at most 280 characters and at least one of them is not white space.
    It is stricter than the middleware [validateTweet]: what it passes the
    middleware passes, while a content of 1 to 280 white-space characters
    passes the middleware and is turned away by [createTweet] with "Content
    is required". *)
Theorem createTweet_validate_spec (ToNumber : value -> option number)
    (c : text) :
  (createTweet_validate c = Valid <->
   (length c <= 280)%nat /\ exists ch, In ch c /\ is_white_space ch = false)
  /\ (createTweet_validate c = Valid ->
      validateTweet ToNumber (VString c) = Next)
  /\ (forallb is_white_space c = true -> (1 <= length c <= 280)%nat ->
      validateTweet ToNumber (VString c) = Next
      /\ createTweet_validate c = Invalid "Content is required").
Proof.
  assert (createTweet_validate c = Valid <->
          (length c <= 280)%nat /\ forallb is_white_space c = false) as Hspec.
  { unfold createTweet_validate.
    destruct (Nat.eqb_spec (length c) 0) as [E|E]; simpl.
    - apply length_zero_iff_nil in E. subst c. simpl.
      split; [discriminate|intros [_ H]; discriminate].
    - destruct (Nat.eqb_spec (length (trim c)) 0) as [T|T].
      + apply trim_blank in T. rewrite T.
        split; [discriminate|intros [_ H]; discriminate].
      + assert (forallb is_white_space c = false) as W.
        { apply not_true_iff_false. now rewrite <- trim_blank. }
        destruct (Nat.ltb_spec 280 (length c)).
        * split; [discriminate|lia].
        * split; [auto|reflexivity]. }
  split; [|split].
  - rewrite Hspec. split; intros [L H]; (split; [assumption|]).
    + apply not_true_iff_false in H.
      destruct (existsb (fun ch => negb (is_white_space ch)) c) eqn:X.
      * apply existsb_exists in X as (ch & Hin & Hw).
        apply negb_true_iff in Hw. eauto.
      * exfalso. apply H. apply forallb_forall. intros ch Hin.
        destruct (is_white_space ch) eqn:W; [reflexivity|].
        assert (existsb (fun ch => negb (is_white_space ch)) c = true);
          [|congruence].
        apply existsb_exists. exists ch. now rewrite W.
    + destruct H as (ch & Hin & Hw). apply not_true_iff_false. intros Hall.
      rewrite forallb_forall in Hall. rewrite (Hall ch Hin) in Hw. discriminate.
  - intros H. apply validateTweet_next.
    apply createTweet_validate_valid in H. exact H.
  - intros W L. split; [now apply validateTweet_next|].
    unfold createTweet_validate.
    apply trim_blank in W. rewrite W. simpl. now rewrite orb_true_r.
Qed.

Lemma createTweet_validate_spec_witness :
  validateTweet (fun _ => None) (VString (JS.lit "   ")) = Next
  /\ createTweet_validate (JS.lit "   ") = Invalid "Content is required".
Proof.
  apply (proj2 (proj2 (createTweet_validate_spec (fun _ => None)
                         (JS.lit "   "))));
    [reflexivity|simpl; lia].
Defined.

(** ** More about encodeURIComponent *)

Module URIFacts.
Import JS JSFacts.

Lemma utf8_nonempty (cp : N) : utf8 cp <> [].
Proof.
  unfold utf8.
  destruct (cp <? 128); [discriminate|].
  destruct (cp <? 2048); [discriminate|].
  destruct (cp <? 65536); discriminate.
Qed.

Lemma length_escape_code_point (cp : N) :
  length (escape_code_point cp) = (3 * length (utf8 cp))%nat.
Proof.
  unfold escape_code_point.
  induction (utf8 cp) as [|b l IH]; simpl; [reflexivity|]. rewrite IH. lia.
Qed.

Lemma length_utf8 (cp : N) :
  (1 <= length (utf8 cp) <= 4)%nat
  /\ (cp < 65536 -> (length (utf8 cp) <= 3)%nat).
Proof.
  unfold utf8.
  destruct (N.ltb_spec cp 128); [simpl; lia|].
  destruct (N.ltb_spec cp 2048); [simpl; lia|].
  destruct (N.ltb_spec cp 65536); simpl; lia.
Qed.

Lemma escape_code_point_head (cp : N) :
  exists tl, escape_code_point cp = percent :: tl.
Proof.
  unfold escape_code_point. pose proof (utf8_nonempty cp) as H.
  destruct (utf8 cp) as [|b l]; [congruence|]. simpl. eauto.
Qed.

(** One step of [encodeURIComponent]: a copied character, an escaped code
    unit, or an escaped surrogate pair. *)
Lemma encodeURIComponent_step (c : code_unit) (rest r : jsstring) :
  encodeURIComponent (c :: rest) = Ok r ->
  (is_unreserved c = true
   /\ exists r', encodeURIComponent rest = Ok r' /\ r = c :: r')
  \/ (is_unreserved c = false /\ is_low_surrogate c = false
      /\ is_high_surrogate c = false
      /\ exists r', encodeURIComponent rest = Ok r'
                    /\ r = escape_code_point c ++ r')
  \/ (is_unreserved c = false /\ is_high_surrogate c = true
      /\ exists d rest' r',
           rest = d :: rest' /\ is_low_surrogate d = true
           /\ encodeURIComponent rest' = Ok r'
           /\ r = escape_code_point (surrogate_pair c d) ++ r').
Proof.
  rewrite encodeURIComponent_cons. intros H.
  destruct (is_unreserved c) eqn:U.
  - left. bind_case H. eauto.
  - right. destruct (is_low_surrogate c) eqn:L; [discriminate|].
    destruct (is_high_surrogate c) eqn:Hi.
    + right. destruct rest as [|d rest']; [discriminate|].
      destruct (is_low_surrogate d) eqn:Ld; [|discriminate].
      bind_case H. split; [reflexivity|]. split; [reflexivity|].
      exists d, rest'. eauto.
    + left. bind_case H. eauto 6.
Qed.

(** The output is the input when nothing had to be escaped, and longer
    otherwise. *)
Lemma encodeURIComponent_grows (s : jsstring) :
  forall r, encodeURIComponent s = Ok r ->
    (forallb is_unreserved s = true /\ r = s)
    \/ (forallb is_unreserved s = false /\ (length s < length r)%nat).
Proof.
  induction s as [| c | c d s IH1 IH2] using jsstring_ind2; intros r H.
  - injection H as <-. auto.
  - destruct (encodeURIComponent_step _ _ H)
      as [(U & r' & E & ->)|[(U & _ & _ & r' & E & ->)|(U & _ & dd & rr & r' & E & _)]].
    + injection E as <-. left. simpl. now rewrite U.
    + injection E as <-. right. simpl. rewrite U. split; [reflexivity|].
      rewrite app_nil_r, length_escape_code_point.
      pose proof (length_utf8 c). lia.
    + discriminate.
  - destruct (encodeURIComponent_step _ _ H)
      as [(U & r' & E & ->)|[(U & _ & _ & r' & E & ->)
                            |(U & _ & dd & rr & r' & Er & _ & E & ->)]].
    + destruct (IH2 _ E) as [[Hall ->]|[Hall Hlen]].
      * left. split; [|reflexivity].
        change (forallb is_unreserved (c :: d :: s))
          with (is_unreserved c && forallb is_unreserved (d :: s)).
        now rewrite U, Hall.
      * right.
        change (forallb is_unreserved (c :: d :: s))
          with (is_unreserved c && forallb is_unreserved (d :: s)).
        rewrite U, Hall. split; [reflexivity|]. simpl in *. lia.
    + right.
      change (forallb is_unreserved (c :: d :: s))
        with (is_unreserved c && forallb is_unreserved (d :: s)).
      rewrite U. split; [reflexivity|].
      rewrite length_app, length_escape_code_point.
      pose proof (length_utf8 c).
      destruct (IH2 _ E) as [[_ ->]|[_ Hlen]]; simpl in *; lia.
    + injection Er as <- <-. right.
      change (forallb is_unreserved (c :: d :: s))
        with (is_unreserved c && forallb is_unreserved (d :: s)).
      rewrite U. split; [reflexivity|].
      rewrite length_app, length_escape_code_point.
      pose proof (length_utf8 (surrogate_pair c d)).
      destruct (IH1 _ E) as [[_ ->]|[_ Hlen]]; simpl in *; lia.
Qed.

(** At most nine characters for each code unit of the input. *)
Lemma encodeURIComponent_length (s : jsstring) :
  Forall is_code_unit s ->
  forall r, encodeURIComponent s = Ok r ->
    (length s <= length r <= 9 * length s)%nat.
Proof.
  induction s as [| c | c d s IH1 IH2] using jsstring_ind2; intros Hs r H.
  - injection H as <-. simpl. lia.
  - inversion Hs as [|? ? Hc _]; subst.
    destruct (encodeURIComponent_step _ _ H)
      as [(U & r' & E & ->)|[(U & _ & _ & r' & E & ->)|(U & _ & dd & rr & r' & E & _)]].
    + injection E as <-. simpl. lia.
    + injection E as <-. rewrite app_nil_r, length_escape_code_point.
      destruct (length_utf8 c) as [L1 L2]. specialize (L2 Hc). simpl. lia.
    + discriminate.
  - inversion Hs as [|? ? Hc Hs']; subst.
    inversion Hs' as [|? ? Hd Hs'']; subst.
    destruct (encodeURIComponent_step _ _ H)
      as [(U & r' & E & ->)|[(U & _ & _ & r' & E & ->)
                            |(U & _ & dd & rr & r' & Er & _ & E & ->)]].
    + specialize (IH2 Hs' _ E). simpl in *. lia.
    + specialize (IH2 Hs' _ E).
      rewrite length_app, length_escape_code_point.
      destruct (length_utf8 c) as [L1 L2]. specialize (L2 Hc). simpl in *. lia.
    + injection Er as <- <-. specialize (IH1 Hs'' _ E).
      rewrite length_app, length_escape_code_point.
      destruct (length_utf8 (surrogate_pair c d)) as [L1 _]. simpl in *. lia.
Qed.

Lemma unreserved_well_formed (s : jsstring) :
  forallb is_unreserved s = true -> well_formed s = true.
Proof.
  induction s as [|c s IH]; [reflexivity|].
  simpl forallb. intros H. apply andb_true_iff in H as [U Hall].
  destruct (unreserved_not_surrogate _ U) as [L Hi].
  rewrite well_formed_cons, L, Hi. auto.
Qed.

End URIFacts.

(** X16: the avatar URL carries the email verbatim exactly when every
    character of the email is unreserved (a letter, a digit or one of
    [- _ . ! ~ * ' ( )]); any other character makes the seed, and so the
    URL, longer than the email it encodes. *)
Theorem createUserAvatarUrl_verbatim (email : JS.jsstring) :
  (createUserAvatarUrl email = Ok (avatar_prefix ++ email ++ avatar_suffix) <->
   forallb JS.is_unreserved email = true)
  /\ (forall url, createUserAvatarUrl email = Ok url ->
        forallb JS.is_unreserved email = false ->
        (length avatar_prefix + length email + length avatar_suffix
         < length url)%nat).
Proof.
  unfold createUserAvatarUrl. split.
  - split.
    + intros H.
      destruct (JS.encodeURIComponent email) as [seed|] eqn:E; [|discriminate].
      cbv beta iota delta [bind] in H.
      assert (avatar_prefix ++ seed ++ avatar_suffix
              = avatar_prefix ++ email ++ avatar_suffix) as H' by congruence.
      apply app_inv_head, app_inv_tail in H'. subst seed.
      destruct (URIFacts.encodeURIComponent_grows _ E) as [[Hall _]|[_ Hlen]];
        [assumption|lia].
    + intros Hall.
      destruct (JSFacts.encodeURIComponent_returns email) as [Hok _].
      destruct (Hok (URIFacts.unreserved_well_formed _ Hall)) as [seed E].
      rewrite E. cbv beta iota delta [bind].
      destruct (URIFacts.encodeURIComponent_grows _ E) as [[_ ->]|[Hf _]];
        [reflexivity|congruence].
  - intros url H Hnot.
    destruct (JS.encodeURIComponent email) as [seed|] eqn:E; [|discriminate].
    cbv beta iota delta [bind] in H.
    assert (url = avatar_prefix ++ seed ++ avatar_suffix) as -> by congruence.
    destruct (URIFacts.encodeURIComponent_grows _ E) as [[Hall _]|[_ Hlen]];
      [congruence|].
    rewrite !length_app. lia.
Qed.

Lemma createUserAvatarUrl_verbatim_witness :
  createUserAvatarUrl (JS.lit "ann.b_c")
  = Ok (avatar_prefix ++ JS.lit "ann.b_c" ++ avatar_suffix).
Proof.
  apply (proj1 (createUserAvatarUrl_verbatim (JS.lit "ann.b_c"))).
  vm_compute. reflexivity.
Defined.

(** X17: the length of the avatar URL.  For an email of [n] code units the
    URL has at least [57 + n] and at most [57 + 9 n] characters: the 48 of
    the prefix, the 9 of the suffix, and one to nine for each code unit. *)
Theorem createUserAvatarUrl_length (email url : JS.jsstring) :
  Forall JS.is_code_unit email ->
  createUserAvatarUrl email = Ok url ->
  (57 + length email <= length url <= 57 + 9 * length email)%nat.
Proof.
  intros Hs H. unfold createUserAvatarUrl in H.
  destruct (JS.encodeURIComponent email) as [seed|] eqn:E; [|discriminate].
  cbv beta iota delta [bind] in H.
  assert (url = avatar_prefix ++ seed ++ avatar_suffix) as -> by congruence.
  pose proof (URIFacts.encodeURIComponent_length Hs E) as L.
  rewrite !length_app.
  change (length avatar_prefix) with 48%nat.
  change (length avatar_suffix) with 9%nat. lia.
Qed.

Lemma createUserAvatarUrl_length_witness :
  (57 + length (JS.lit "a+b@x.io")
   <= length (avatar_prefix ++ JS.lit "a%2Bb%40x.io" ++ avatar_suffix)
   <= 57 + 9 * length (JS.lit "a+b@x.io"))%nat.
Proof.
  apply (@createUserAvatarUrl_length (JS.lit "a+b@x.io")).
  - repeat constructor.
  - vm_compute. reflexivity.
Defined.

(** ** encodeURIComponent is injective *)

Module URIInjective.
Import JS JSFacts URIFacts.

Lemma hex_digits_distinct : NoDup (lit "0123456789ABCDEF").
Proof.
  vm_compute.
  repeat (constructor;
          [simpl; intros H;
           repeat (destruct H as [H|H]; [discriminate H|]); exact H|]).
  constructor.
Qed.

Lemma hex_digit_inj (a b : N) :
  a < 16 -> b < 16 -> hex_digit a = hex_digit b -> a = b.
Proof.
  intros Ha Hb H. unfold hex_digit in H.
  assert (length (lit "0123456789ABCDEF") = 16%nat) as L
    by (vm_compute; reflexivity).
  apply N2Nat.inj.
  apply (proj1 (NoDup_nth (lit "0123456789ABCDEF") 48) hex_digits_distinct);
    [rewrite L; lia|rewrite L; lia|exact H].
Qed.

Lemma escape_octet_inj (b b' : N) :
  b < 256 -> b' < 256 -> escape_octet b = escape_octet b' -> b = b'.
Proof.
  intros Hb Hb'. unfold escape_octet. intros [= H1 H2].
  assert (b / 16 < 16) by (apply N.Div0.div_lt_upper_bound; lia).
  assert (b' / 16 < 16) by (apply N.Div0.div_lt_upper_bound; lia).
  pose proof (N.mod_lt b 16 ltac:(lia)).
  pose proof (N.mod_lt b' 16 ltac:(lia)).
  apply hex_digit_inj in H1; [|assumption|assumption].
  apply hex_digit_inj in H2; [|assumption|assumption].
  rewrite (N.Div0.div_mod b 16), (N.Div0.div_mod b' 16). congruence.
Qed.

(** Escaped octets, read back three characters at a time. *)
Lemma escape_octets_inj (os os' : list N) (r r' : jsstring) :
  Forall (fun b => b < 256) os -> Forall (fun b => b < 256) os' ->
  length os = length os' ->
  flat_map escape_octet os ++ r = flat_map escape_octet os' ++ r' ->
  os = os' /\ r = r'.
Proof.
  revert os'. induction os as [|b os IH]; intros [|b' os'] Hb Hb' L H;
    try discriminate L.
  - auto.
  - inversion Hb as [|? ? Bb Bos]; subst.
    inversion Hb' as [|? ? Bb' Bos']; subst.
    simpl in H. injection H as E1 E2 E3.
    assert (b = b') as ->.
    { apply escape_octet_inj; auto. unfold escape_octet. congruence. }
    destruct (IH os') as [-> ->]; auto.
Qed.

Lemma utf8_bytes (cp : N) : cp < 1114112 -> Forall (fun b => b < 256) (utf8 cp).
Proof.
  intros H. apply Forall_forall. intros b Hb. eapply utf8_octets; eauto.
Qed.

Ltac utf8_facts cp :=
  pose proof (N.Div0.div_mod cp 64);
  pose proof (N.Div0.div_mod (cp / 64) 64);
  pose proof (N.Div0.div_mod (cp / 4096) 64);
  pose proof (N.mod_lt cp 64 ltac:(lia));
  pose proof (N.mod_lt (cp / 64) 64 ltac:(lia));
  pose proof (N.mod_lt (cp / 4096) 64 ltac:(lia));
  pose proof (N.Div0.div_div cp 64 64);
  pose proof (N.Div0.div_div cp 4096 64);
  change (64 * 64) with 4096 in *;
  change (4096 * 64) with 262144 in *.

(** The UTF-8 form of a code point, by the range of the code point. *)
Lemma utf8_cases (cp : N) :
  cp < 1114112 ->
  (cp < 128 /\ utf8 cp = [cp])
  \/ (128 <= cp < 2048
      /\ utf8 cp = [192 + cp / 64; 128 + cp mod 64]
      /\ 2 <= cp / 64 < 32)
  \/ (2048 <= cp < 65536
      /\ utf8 cp = [224 + cp / 4096; 128 + (cp / 64) mod 64; 128 + cp mod 64]
      /\ cp / 4096 < 16)
  \/ (65536 <= cp
      /\ utf8 cp = [240 + cp / 262144; 128 + (cp / 4096) mod 64;
                    128 + (cp / 64) mod 64; 128 + cp mod 64]
      /\ cp / 262144 < 8).
Proof.
  intros Hcp. unfold utf8.
  destruct (N.ltb_spec cp 128); [auto|].
  destruct (N.ltb_spec cp 2048).
  - right. left. split; [lia|]. split; [reflexivity|].
    split; [apply N.div_le_lower_bound; lia
           |apply N.Div0.div_lt_upper_bound; lia].
  - destruct (N.ltb_spec cp 65536).
    + right. right. left. split; [lia|]. split; [reflexivity|].
      apply N.Div0.div_lt_upper_bound; lia.
    + right. right. right. split; [lia|]. split; [reflexivity|].
      apply N.Div0.div_lt_upper_bound; lia.
Qed.

Lemma cons_inj (A : Type) (a a' : A) (l l' : list A) :
  a :: l = a' :: l' -> a = a' /\ l = l'.
Proof. intros H. injection H. auto. Qed.

Lemma utf8_inj (cp cp' : N) :
  cp < 1114112 -> cp' < 1114112 ->
  hd 0 (utf8 cp) = hd 0 (utf8 cp') ->
  length (utf8 cp) = length (utf8 cp')
  /\ (utf8 cp = utf8 cp' -> cp = cp').
Proof.
  intros Hcp Hcp'.
  utf8_facts cp. utf8_facts cp'.
  destruct (utf8_cases Hcp) as [[R ->]|[(R & -> & Q)|[(R & -> & Q)|(R & -> & Q)]]];
    destruct (utf8_cases Hcp')
      as [[R' ->]|[(R' & -> & Q')|[(R' & -> & Q')|(R' & -> & Q')]]];
    cbn [hd length]; intros Hhd;
    try (exfalso; lia);
    (split; [reflexivity|]); intros E;
    repeat (apply cons_inj in E as [? E]); lia.
Qed.

(** The escapes of a code point can be told from what follows them. *)
Lemma escape_code_point_inj (cp cp' : N) (r r' : jsstring) :
  cp < 1114112 -> cp' < 1114112 ->
  escape_code_point cp ++ r = escape_code_point cp' ++ r' ->
  cp = cp' /\ r = r'.
Proof.
  intros Hcp Hcp' H. unfold escape_code_point in H.
  pose proof (utf8_bytes Hcp) as Hb. pose proof (utf8_bytes Hcp') as Hb'.
  assert (hd 0 (utf8 cp) = hd 0 (utf8 cp')) as Hhd.
  { pose proof (utf8_nonempty cp) as N1. pose proof (utf8_nonempty cp') as N2.
    destruct (utf8 cp) as [|b tl]; [congruence|].
    destruct (utf8 cp') as [|b' tl']; [congruence|].
    inversion Hb as [|? ? Bb Btl]; subst.
    inversion Hb' as [|? ? Bb' Btl']; subst.
    simpl in H. injection H as E1 E2 _. simpl.
    apply escape_octet_inj; auto. unfold escape_octet. congruence. }
  destruct (utf8_inj Hcp Hcp' Hhd) as [L Hinj].
  destruct (@escape_octets_inj _ _ r r' Hb Hb' L H) as [E ->].
  auto.
Qed.

Lemma high_surrogate_range (c : code_unit) :
  is_high_surrogate c = true -> 55296 <= c <= 56319.
Proof.
  unfold is_high_surrogate, in_range.
  rewrite andb_true_iff, !N.leb_le. tauto.
Qed.

Lemma low_surrogate_range (c : code_unit) :
  is_low_surrogate c = true -> 56320 <= c <= 57343.
Proof.
  unfold is_low_surrogate, in_range.
  rewrite andb_true_iff, !N.leb_le. tauto.
Qed.

Lemma unreserved_not_percent (c : code_unit) :
  is_unreserved c = true -> c <> percent.
Proof. intros U ->. vm_compute in U. discriminate. Qed.

Lemma encodeURIComponent_nil (s : jsstring) :
  encodeURIComponent s = Ok [] -> s = [].
Proof.
  destruct s as [|c rest]; [reflexivity|]. intros H.
  destruct (encodeURIComponent_step _ _ H)
    as [(_ & r' & _ & E)|[(_ & _ & _ & r' & _ & E)
                         |(_ & _ & d & rest' & r' & _ & _ & _ & E)]];
    [discriminate| |];
    destruct (escape_code_point_head
                (match rest with d' :: _ => surrogate_pair c d' | [] => c end))
      as [tl Htl];
    match type of E with
    | [] = escape_code_point ?cp ++ _ =>
        destruct (escape_code_point_head cp) as [tl' Htl']; rewrite Htl' in E
    end; discriminate.
Qed.

Lemma encodeURIComponent_inj_upto (n : nat) :
  forall s1, (length s1 <= n)%nat ->
  forall s2 r,
    Forall is_code_unit s1 -> Forall is_code_unit s2 ->
    encodeURIComponent s1 = Ok r -> encodeURIComponent s2 = Ok r ->
    s1 = s2.
Proof.
  induction n as [|n IH]; intros s1 Hlen s2 r V1 V2 H1 H2.
  - destruct s1; [|simpl in Hlen; lia].
    injection H1 as <-. symmetry. now apply encodeURIComponent_nil.
  - destruct s1 as [|c1 rest1].
    { injection H1 as <-. symmetry. now apply encodeURIComponent_nil. }
    destruct s2 as [|c2 rest2].
    { injection H2 as <-. now apply encodeURIComponent_nil. }
    simpl in Hlen.
    inversion V1 as [|? ? Hc1 V1']; subst.
    inversion V2 as [|? ? Hc2 V2']; subst.
    unfold is_code_unit in Hc1, Hc2.
    destruct (encodeURIComponent_step _ _ H1)
      as [(U1 & r1 & E1 & R1)|[(U1 & L1 & G1 & r1 & E1 & R1)
                              |(U1 & G1 & d1 & t1 & r1 & -> & Ld1 & E1 & R1)]];
      destruct (encodeURIComponent_step _ _ H2)
        as [(U2 & r2 & E2 & R2)|[(U2 & L2 & G2 & r2 & E2 & R2)
                                |(U2 & G2 & d2 & t2 & r2 & -> & Ld2 & E2 & R2)]];
      subst r.
    + injection R2 as -> ->. f_equal. apply (IH rest1 ltac:(lia) rest2 r2); auto.
    + destruct (escape_code_point_head c2) as [tl Htl]. rewrite Htl in R2.
      injection R2 as -> _. now apply unreserved_not_percent in U1.
    + destruct (escape_code_point_head (surrogate_pair c2 d2)) as [tl Htl].
      rewrite Htl in R2. injection R2 as -> _.
      now apply unreserved_not_percent in U1.
    + destruct (escape_code_point_head c1) as [tl Htl]. rewrite Htl in R2.
      injection R2 as <- _. now apply unreserved_not_percent in U2.
    + apply escape_code_point_inj in R2 as [-> ->]; [|lia|lia].
      f_equal. apply (IH rest1 ltac:(lia) rest2 r2); auto.
    + apply high_surrogate_range in G2. apply low_surrogate_range in Ld2.
      apply escape_code_point_inj in R2 as [E _];
        [|lia|unfold surrogate_pair; lia].
      unfold surrogate_pair in E. lia.
    + destruct (escape_code_point_head (surrogate_pair c1 d1)) as [tl Htl].
      rewrite Htl in R2. injection R2 as <- _.
      now apply unreserved_not_percent in U2.
    + apply high_surrogate_range in G1. apply low_surrogate_range in Ld1.
      apply escape_code_point_inj in R2 as [E _];
        [|unfold surrogate_pair; lia|lia].
      unfold surrogate_pair in E. lia.
    + pose proof (high_surrogate_range _ G1). pose proof (low_surrogate_range _ Ld1).
      pose proof (high_surrogate_range _ G2). pose proof (low_surrogate_range _ Ld2).
      apply escape_code_point_inj in R2 as [E ->];
        [|unfold surrogate_pair; lia|unfold surrogate_pair; lia].
      unfold surrogate_pair in E.
      assert (c2 = c1 /\ d2 = d1) as [-> ->] by lia.
      inversion V1'; subst. inversion V2'; subst.
      do 2 f_equal. simpl in Hlen.
      apply (IH t1 ltac:(lia) t2 r2); auto.
Qed.

Lemma encodeURIComponent_inj (s1 s2 r : jsstring) :
  Forall is_code_unit s1 -> Forall is_code_unit s2 ->
  encodeURIComponent s1 = Ok r -> encodeURIComponent s2 = Ok r ->
  s1 = s2.
Proof.
  intros. eapply encodeURIComponent_inj_upto with (n := length s1); eauto.
Qed.

End URIInjective.

(** X18: two emails never share an avatar URL: when [createUserAvatarUrl]
    returns the same URL for two strings, the two strings are the same (so
    are, in particular, their seeds: [encodeURIComponent] loses nothing of
    the email). *)
Theorem createUserAvatarUrl_injective (email1 email2 url : JS.jsstring) :
  Forall JS.is_code_unit email1 -> Forall JS.is_code_unit email2 ->
  createUserAvatarUrl email1 = Ok url ->
  createUserAvatarUrl email2 = Ok url ->
  email1 = email2.
Proof.
  unfold createUserAvatarUrl. intros V1 V2 H1 H2.
  destruct (JS.encodeURIComponent email1) as [seed1|] eqn:E1; [|discriminate].
  destruct (JS.encodeURIComponent email2) as [seed2|] eqn:E2; [|discriminate].
  cbv beta iota delta [bind] in H1, H2.
  assert (avatar_prefix ++ seed1 ++ avatar_suffix
          = avatar_prefix ++ seed2 ++ avatar_suffix) as H by congruence.
  apply app_inv_head, app_inv_tail in H. subst seed2.
  eapply URIInjective.encodeURIComponent_inj; eauto.
Qed.

Lemma createUserAvatarUrl_injective_witness :
  JS.lit "a+b@x.io" = [97; 43; 98; 64; 120; 46; 105; 111].
Proof.
  apply (@createUserAvatarUrl_injective
           (JS.lit "a+b@x.io") [97; 43; 98; 64; 120; 46; 105; 111]
           (JS.lit "https://api.dicebear.com/7.x/avataaars/svg?seed=a%2Bb%40x.io&scale=80"));
    try (vm_compute; reflexivity);
    repeat constructor.
Defined.

(** ** The session check *)

Lemma feed_query_not_unauthorized (d : db) (p1 p2 : uuid) (l o : option Z) :
  feed_query d p1 p2 l o <> Throw Unauthorized.
Proof.
  unfold feed_query, limit_offset, row_count.
  destruct o as [o|]; [destruct (o <? 0)%Z|];
    (destruct l as [l|]; [destruct (l <? 0)%Z|]); simpl; discriminate.
Qed.

(** X19: the resolvers check the session themselves, and as the middleware
    [isAuthenticated] does: [homeFeed] throws "Unauthorized" exactly for the
    requests that [isAuthenticated] answers with 401, before it looks at its
    arguments, and [createTweet] leaves the database as it was for them. *)
Theorem isAuthenticated_guards (req_user : option user) :
  (isAuthenticated req_user = Next <->
   forall limit offset d, homeFeed limit offset d req_user <> Throw Unauthorized)
  /\ (isAuthenticated req_user <> Next ->
      (forall limit offset d,
         homeFeed limit offset d req_user = Throw Unauthorized)
      /\ (forall sanitizeHTML content new_id now d,
            createTweet sanitizeHTML content new_id now d req_user
            = (d, Throw Unauthorized))).
Proof.
  destruct req_user as [me|]; simpl.
  - split.
    + split; [|reflexivity]. intros _ limit offset d.
      apply feed_query_not_unauthorized.
    + intros H. now destruct H.
  - split.
    + split; [discriminate|]. intros H.
      now destruct (H Absent Absent empty_db).
    + intros _. split; reflexivity.
Qed.

Lemma isAuthenticated_guards_witness :
  homeFeed (Val (-1)%Z) (Val (-1)%Z) sample_db None = Throw Unauthorized.
Proof.
  destruct (@isAuthenticated_guards None) as [_ H].
  destruct H as [H _]; [discriminate|].
  apply H.
Defined.

(** ** Who liked a tweet *)

Lemma join_filter_rows {A B} (on : A -> B -> bool) (q : B -> bool)
    (xs : list A) (ys : list B) :
  map fst (filter (fun x => q (snd x)) (inner_join on xs ys))
  = flat_map (fun x => map (fun _ => x) (filter (fun y => on x y && q y) ys)) xs.
Proof.
  unfold inner_join.
  rewrite filter_flat_map, flat_map_concat_map, concat_map, map_map,
          <- flat_map_concat_map.
  apply flat_map_ext. intros x.
  induction ys as [|y ys IH]; simpl; [reflexivity|].
  destruct (on x y); simpl; [|assumption].
  destruct (q y); simpl; now rewrite IH.
Qed.

(** X20: the users who liked a tweet
    ([SELECT u.* FROM users u JOIN likes l ON u.id = l.user_id WHERE
    l.tweet_id = t ORDER BY l.created_at DESC]) are exactly the users with
    a like on [t], each of them once, and as many as
    [SELECT COUNT( * ) FROM likes WHERE tweet_id = t] counts. *)
Theorem likers_query_exact (d : db) (t : uuid) (u : user) :
  wf d ->
  (In u (likers_query d t) <-> In u (users d) /\ is_liked_by d (u_id u) t = true)
  /\ NoDup (map u_id (likers_query d t))
  /\ length (likers_query d t) = count_likes d t.
Proof.
  intros Hwf.
  set (rows := filter (fun x => l_tweet_id (snd x) =? t)
                 (inner_join (fun u l => u_id u =? l_user_id l)
                    (users d) (likes d))).
  assert (Permutation (likers_query d t) (map fst rows)) as Hp.
  { unfold likers_query. apply Permutation_map, order_by_desc_perm. }
  assert (map fst rows
          = flat_map (fun u =>
              map (fun _ => u)
                (filter (fun l => (u_id u =? l_user_id l) && (l_tweet_id l =? t))
                        (likes d)))
              (users d)) as Hrows.
  { unfold rows.
    apply (join_filter_rows (fun u l => u_id u =? l_user_id l)
                            (fun l => l_tweet_id l =? t)). }
  split; [|split].
  - split.
    + intros H. apply (Permutation_in _ Hp) in H.
      apply in_map_iff in H as ([u' l] & <- & Hin).
      apply filter_In in Hin as [Hin Hl].
      apply in_inner_join in Hin as (Hu & Hlk & E).
      simpl in *. apply N.eqb_eq in E, Hl.
      split; [assumption|]. unfold is_liked_by. apply has_pair_true.
      exists l. auto.
    + intros (Hu & Hl). unfold is_liked_by in Hl.
      apply has_pair_true in Hl as (l & Hin & E1 & E2).
      apply (Permutation_in _ (Permutation_sym Hp)).
      apply in_map_iff. exists (u, l). split; [reflexivity|].
      apply filter_In. simpl. split; [|now apply N.eqb_eq].
      apply in_inner_join. rewrite N.eqb_eq. auto.
  - eapply Permutation_NoDup;
      [apply Permutation_map, Permutation_sym, Hp|].
    rewrite Hrows.
    apply NoDup_flat_map_key with (k := u_id); [apply (users_pkey Hwf)| |].
    + intros x Hx. rewrite length_map.
      pose proof (likes_key Hwf (u_id x) t) as Hu.
      unfold rows_with_pair in Hu.
      erewrite filter_ext; [exact Hu|].
      intros l. simpl. f_equal. apply N.eqb_sym.
    + intros x y Hx Hy. apply in_map_iff in Hy as (l & <- & _). reflexivity.
  - rewrite (Permutation_length Hp), Hrows, length_flat_map_sum.
    erewrite map_ext; [|intros x; apply length_map].
    rewrite (join_count_swap
               (fun x l => (u_id x =? l_user_id l) && (l_tweet_id l =? t))).
    unfold count_likes. rewrite length_filter_sum.
    f_equal. apply map_ext_in. intros l Hin.
    destruct (l_tweet_id l =? t).
    + erewrite filter_ext; [|intros x; apply andb_true_r].
      apply one_match; [apply (users_pkey Hwf)|].
      eapply references_has_key;
        [apply (likes_user_id_fkey Hwf)|assumption].
    + rewrite filter_none; [reflexivity|]. intros x _. apply andb_false_r.
Qed.

Lemma likers_query_exact_witness :
  map u_id (likers_query sample_db 11) = [1; 3]
  /\ length (likers_query sample_db 11) = count_likes sample_db 11.
Proof.
  split; [vm_compute; reflexivity|].
  apply (proj2 (proj2 (@likers_query_exact sample_db 11 ann sample_db_wf))).
Defined.

(** ** Mutual followers *)

(** X21: "Get Mutual Followers" with the parameters [p1] and [p2] lists
    exactly the users whom [p1] follows and who follow [p2], each once and
    all of them among the users that [p1] follows; asked for one and the same
    user on both sides it is symmetric: [u] is a mutual follower of [v]
    exactly when [v] is one of [u]. *)
Theorem mutual_followers_exact (d : db) (p1 p2 : uuid) (u v : user) :
  wf d ->
  (In u (mutual_followers d p1 p2) <->
   In u (users d) /\ follows_edge d p1 (u_id u) /\ follows_edge d (u_id u) p2)
  /\ NoDup (map u_id (mutual_followers d p1 p2))
  /\ incl (mutual_followers d p1 p2) (following_query d p1)
  /\ (length (mutual_followers d p1 p2) <= count_following d p1)%nat
  /\ (In u (users d) -> In v (users d) ->
      (In u (mutual_followers d (u_id v) (u_id v)) <->
       In v (mutual_followers d (u_id u) (u_id u)))).
Proof.
  intros Hwf.
  assert (forall a b w,
            In w (mutual_followers d a b) <->
            In w (users d) /\ follows_edge d a (u_id w)
            /\ follows_edge d (u_id w) b) as Hin.
  { intros a b w. unfold mutual_followers, is_following.
    rewrite filter_In, andb_true_iff, <- !follows_edge_has_pair. tauto. }
  assert (NoDup (map u_id (mutual_followers d p1 p2))) as Hnd.
  { apply NoDup_map_filter, (users_pkey Hwf). }
  assert (incl (mutual_followers d p1 p2) (following_query d p1)) as Hincl.
  { intros w Hw. apply Hin in Hw as (Hu & H1 & _).
    apply following_query_In. auto. }
  split; [apply Hin|]. split; [exact Hnd|]. split; [exact Hincl|]. split.
  - rewrite <- (following_query_length p1 Hwf).
    apply NoDup_incl_length; [|exact Hincl].
    eapply NoDup_map_inv, Hnd.
  - intros Hu Hv. rewrite !Hin. tauto.
Qed.

Lemma mutual_followers_exact_witness :
  map u_id (mutual_followers
              (step 11%Z (InsertFollow 21 (Some 2) (Some 1)) sample_db) 1 1)
  = [2]
  /\ (length (mutual_followers sample_db 1%N 1%N)
      <= count_following sample_db 1%N)%nat.
Proof.
  split; [vm_compute; reflexivity|].
  destruct (@mutual_followers_exact sample_db 1 1 ann bob sample_db_wf)
    as (_ & _ & _ & H & _).
  exact H.
Defined.

(** ** Trending tweets *)

Section OrderTwoFacts.
Context {A : Type}.
Variables k1 k2 : A -> Z.

Lemma desc2_leb_true (y x : A) :
  desc2_leb k1 k2 y x = true <->
  (k1 y < k1 x \/ (k1 y = k1 x /\ k2 y <= k2 x))%Z.
Proof.
  unfold desc2_leb.
  rewrite orb_true_iff, andb_true_iff, Z.ltb_lt, Z.eqb_eq, Z.leb_le. tauto.
Qed.

Lemma insert_desc2_perm (x : A) (l : list A) :
  Permutation (insert_desc2 k1 k2 x l) (x :: l).
Proof.
  induction l as [|y l IH]; simpl; [reflexivity|].
  destruct (desc2_leb k1 k2 y x); [reflexivity|].
  rewrite IH. apply perm_swap.
Qed.

Lemma order_by_desc2_perm (l : list A) :
  Permutation (order_by_desc2 k1 k2 l) l.
Proof.
  induction l as [|x l IH]; simpl; [reflexivity|].
  rewrite insert_desc2_perm. now constructor.
Qed.

Lemma insert_desc2_sorted (x : A) (l : list A) :
  StronglySorted
    (fun x y => (k1 y < k1 x \/ (k1 y = k1 x /\ k2 y <= k2 x))%Z) l ->
  StronglySorted
    (fun x y => (k1 y < k1 x \/ (k1 y = k1 x /\ k2 y <= k2 x))%Z)
    (insert_desc2 k1 k2 x l).
Proof.
  induction l as [|y l IH]; simpl; intros Hs.
  - constructor; constructor.
  - inversion Hs as [|? ? Hl Hy]; subst.
    destruct (desc2_leb k1 k2 y x) eqn:L.
    + apply desc2_leb_true in L.
      constructor; [assumption|].
      constructor; [exact L|].
      rewrite Forall_forall in *. intros z Hz.
      specialize (Hy z Hz). simpl in *. lia.
    + assert (~ (k1 y < k1 x \/ (k1 y = k1 x /\ k2 y <= k2 x))%Z) as L'.
      { rewrite <- desc2_leb_true, L. discriminate. }
      constructor; [auto|].
      rewrite Forall_forall in *. intros z Hz.
      apply (Permutation_in _ (insert_desc2_perm x l)) in Hz.
      destruct Hz as [<-|Hz]; [lia|auto].
Qed.

Lemma order_by_desc2_sorted (l : list A) :
  StronglySorted
    (fun x y => (k1 y < k1 x \/ (k1 y = k1 x /\ k2 y <= k2 x))%Z)
    (order_by_desc2 k1 k2 l).
Proof.
  induction l as [|x l IH]; simpl; [constructor|].
  now apply insert_desc2_sorted.
Qed.

End OrderTwoFacts.

Section SortedFacts.
Context {A : Type}.
Variable R : A -> A -> Prop.

Lemma StronglySorted_app_cross (l1 l2 : list A) (x y : A) :
  StronglySorted R (l1 ++ l2) -> In x l1 -> In y l2 -> R x y.
Proof.
  induction l1 as [|a l1 IH]; simpl; intros Hs Hx Hy; [contradiction|].
  inversion Hs as [|? ? Hs' Ha]; subst.
  destruct Hx as [->|Hx]; [|auto].
  rewrite Forall_forall in Ha. apply Ha, in_or_app. auto.
Qed.

Lemma StronglySorted_app_l (l1 l2 : list A) :
  StronglySorted R (l1 ++ l2) -> StronglySorted R l1.
Proof.
  induction l1 as [|a l1 IH]; simpl; intros Hs; [constructor|].
  inversion Hs as [|? ? Hs' Ha]; subst.
  constructor; [auto|].
  rewrite Forall_forall in *. intros z Hz. apply Ha, in_or_app. auto.
Qed.

End SortedFacts.

Lemma StronglySorted_weaken {A} (R R' : A -> A -> Prop) (l : list A) :
  (forall x y, R x y -> R' x y) -> StronglySorted R l -> StronglySorted R' l.
Proof.
  intros HR. induction 1 as [|a l Hs IH Ha]; constructor; [assumption|].
  rewrite Forall_forall in *. auto.
Qed.

Lemma length_non_null_some {A B} (f : A -> B) (l : list A) :
  length (non_null (map (fun y => Some (f y)) l)) = length l.
Proof. induction l as [|x l IH]; simpl; [reflexivity|]. now rewrite IH. Qed.

Lemma trending_from_each (ts : list tweet) (d : db) :
  trending_from ts d = flat_map (fun t => trending_from [t] d) ts.
Proof.
  unfold trending_from.
  rewrite (inner_join_each _ ts). now rewrite left_join_flat_map.
Qed.

(** The rows of the FROM clause that stem from one tweet: one for each of
    its likes, or a single one with NULLs when it has none. *)
Lemma trending_from_tweet (d : db) (t : tweet) (u : user) :
  wf d -> In u (users d) -> u_id u = t_user_id t ->
  trending_from [t] d
  = match filter (fun l => l_tweet_id l =? t_id t) (likes d) with
    | [] => [(t, u, None)]
    | ls => map (fun l => (t, u, Some l)) ls
    end.
Proof.
  intros Hwf Hu Eu. unfold trending_from, inner_join. simpl.
  rewrite app_nil_r.
  assert (filter (fun u' => t_user_id t =? u_id u') (users d) = [u]) as ->.
  { rewrite <- (filter_key_one u_id (users d) u (users_pkey Hwf) Hu).
    apply filter_ext. intros u'. rewrite Eu. apply N.eqb_sym. }
  unfold left_join. simpl. rewrite app_nil_r.
  assert (filter (fun l => t_id t =? l_tweet_id l) (likes d)
          = filter (fun l => l_tweet_id l =? t_id t) (likes d)) as ->.
  { apply filter_ext. intros l. apply N.eqb_sym. }
  destruct (filter (fun l => l_tweet_id l =? t_id t) (likes d)); reflexivity.
Qed.

(** The select list over the group of one tweet: one row, for that tweet and
    its author, with the number of its likes. *)
Lemma trending_aggregate_tweet (d : db) (t : tweet) :
  wf d -> In t (tweets d) ->
  exists u x rows,
    In u (users d) /\ u_id u = t_user_id t
    /\ trending_from [t] d = x :: rows
    /\ (forall y, In y (x :: rows) -> fst y = (t, u))
    /\ trending_aggregate (trending_from [t] d)
       = [{| tr_tweet := t;
             tr_name := u_name u;
             tr_avatar_url := u_avatar_url u;
             tr_like_count := count_likes d (t_id t) |}].
Proof.
  intros Hwf Hin.
  destruct (tweets_user_id_fkey Hwf t Hin) as (u & Hu & Eu).
  exists u. rewrite (@trending_from_tweet d t u Hwf Hu Eu).
  unfold count_likes.
  destruct (filter (fun l => l_tweet_id l =? t_id t) (likes d)) as [|l ls].
  - exists (t, u, None), []. repeat split; auto.
    intros y [<-|[]]. reflexivity.
  - exists (t, u, Some l), (map (fun l => (t, u, Some l)) ls).
    repeat split; auto.
    + intros y Hy. change (In y (map (fun l => (t, u, Some l)) (l :: ls))) in Hy.
      apply in_map_iff in Hy as (l' & <- & _). reflexivity.
    + change (map (fun l0 => (t, u, Some l0)) (l :: ls))
        with ((t, u, Some l) :: map (fun l0 => (t, u, Some l0)) ls).
      unfold trending_aggregate. cbn [fst snd]. do 2 f_equal.
      change ((t, u, Some l) :: map (fun l0 => (t, u, Some l0)) ls)
        with (map (fun l0 : like => (t, u, Some l0)) (l :: ls)).
      rewrite map_map. cbn [snd option_map].
      apply (length_non_null_some l_id).
Qed.

Lemma flat_map_ext_In {A B} (f g : A -> list B) (l : list A) :
  (forall x, In x l -> f x = g x) -> flat_map f l = flat_map g l.
Proof.
  induction l as [|x l IH]; simpl; intros H; [reflexivity|].
  rewrite (H x) by auto. f_equal. auto.
Qed.

Lemma trending_where_rows (now : timestamp) (d : db) :
  wf d ->
  filter (fun x => trending_where now (fst (fst x))) (trending_from (tweets d) d)
  = flat_map (fun t => trending_from [t] d)
      (filter (trending_where now) (tweets d)).
Proof.
  intros Hwf.
  rewrite trending_from_each, filter_flat_map, <- flat_map_where.
  apply flat_map_ext_In. intros t Hin.
  destruct (trending_aggregate_tweet t Hwf Hin)
    as (u & x & rows & _ & _ & -> & Hkey & _).
  destruct (trending_where now t) eqn:W.
  - apply filter_all. intros y Hy. now rewrite (Hkey y Hy).
  - apply filter_none. intros y Hy. now rewrite (Hkey y Hy).
Qed.

Lemma trending_groups (d : db) (q : tweet -> bool) :
  wf d ->
  group_by key_eqb trending_key
    (flat_map (fun t => trending_from [t] d) (filter q (tweets d)))
  = map (fun t => trending_from [t] d) (filter q (tweets d)).
Proof.
  intros Hwf.
  apply group_by_flat_map with (k := fun t => (t_id t, t_user_id t)).
  - apply key_eqb_eq.
  - apply (NoDup_map_inv fst). rewrite map_map. simpl.
    apply NoDup_map_filter, (tweets_pkey Hwf).
  - intros t Hin. apply filter_In in Hin as [Hin _].
    destruct (trending_aggregate_tweet t Hwf Hin)
      as (u & x & rows & _ & Eu & -> & Hkey & _).
    split; [discriminate|].
    intros y Hy. unfold trending_key. rewrite (Hkey y Hy). simpl.
    now rewrite Eu.
Qed.

(** The rows of the query before LIMIT, under the schema's constraints. *)
Lemma trending_select_rows (now : timestamp) (d : db) :
  wf d ->
  trending_select now d
  = order_by_desc2 (fun r => Z.of_nat (tr_like_count r))
                   (fun r => t_created_at (tr_tweet r))
      (flat_map (fun t => trending_aggregate (trending_from [t] d))
                (filter (trending_where now) (tweets d))).
Proof.
  intros Hwf. unfold trending_select.
  rewrite trending_where_rows, trending_groups by assumption.
  now rewrite flat_map_concat_map, map_map, <- flat_map_concat_map.
Qed.

Lemma trending_rows_tweets (d : db) (ts : list tweet) :
  wf d -> (forall t, In t ts -> In t (tweets d)) ->
  map tr_tweet (flat_map (fun t => trending_aggregate (trending_from [t] d)) ts)
  = ts.
Proof.
  intros Hwf. induction ts as [|t ts IH]; simpl; intros Hts; [reflexivity|].
  destruct (trending_aggregate_tweet t Hwf (Hts t (or_introl eq_refl)))
    as (u & x & rows & _ & _ & _ & _ & ->).
  simpl. f_equal. apply IH. auto.
Qed.

Lemma trending_select_tweets (now : timestamp) (d : db) :
  wf d ->
  Permutation (map tr_tweet (trending_select now d))
              (filter (trending_where now) (tweets d)).
Proof.
  intros Hwf. rewrite trending_select_rows by assumption.
  rewrite (Permutation_map tr_tweet (order_by_desc2_perm _ _ _)).
  rewrite trending_rows_tweets; [reflexivity|assumption|].
  intros t Ht. apply filter_In in Ht. tauto.
Qed.

Lemma in_trending_select (now : timestamp) (d : db) (r : trending_row) :
  wf d -> In r (trending_select now d) ->
  In (tr_tweet r) (tweets d)
  /\ trending_where now (tr_tweet r) = true
  /\ tr_like_count r = count_likes d (t_id (tr_tweet r))
  /\ exists u, In u (users d) /\ u_id u = t_user_id (tr_tweet r)
               /\ tr_name r = u_name u /\ tr_avatar_url r = u_avatar_url u.
Proof.
  intros Hwf Hin. rewrite trending_select_rows in Hin by assumption.
  apply (Permutation_in _ (order_by_desc2_perm _ _ _)) in Hin.
  apply in_flat_map in Hin as (t & Ht & Hr).
  apply filter_In in Ht as [Ht W].
  destruct (trending_aggregate_tweet t Hwf Ht)
    as (u & x & rows & Hu & Eu & _ & _ & E).
  rewrite E in Hr. destruct Hr as [<-|[]]. simpl.
  repeat split; auto. exists u. auto.
Qed.

Lemma trending_select_sorted (now : timestamp) (d : db) :
  StronglySorted more_trending (trending_select now d).
Proof.
  unfold trending_select.
  eapply StronglySorted_weaken;
    [|apply (order_by_desc2_sorted (fun r => Z.of_nat (tr_like_count r))
                                   (fun r => t_created_at (tr_tweet r)))].
  intros r1 r2 H. unfold more_trending. simpl in H. lia.
Qed.

(** X22: the trending list.  It has at most 50 rows, one for a tweet; a row
    is a tweet of the last 24 hours with its author's name and avatar and
    the number of its likes; the rows come with more likes first and, among
    equals, the newer tweet first; and a tweet of the last 24 hours that is
    not listed has no more likes than any listed one, the list being full. *)
Theorem trending_query_exact (now : timestamp) (d : db) :
  wf d ->
  (length (trending_query now d) <= 50)%nat
  /\ NoDup (map (fun r => t_id (tr_tweet r)) (trending_query now d))
  /\ (forall r, In r (trending_query now d) ->
        In (tr_tweet r) (tweets d)
        /\ (now - 86400 < t_created_at (tr_tweet r))%Z
        /\ tr_like_count r = count_likes d (t_id (tr_tweet r))
        /\ exists u, In u (users d) /\ u_id u = t_user_id (tr_tweet r)
                     /\ tr_name r = u_name u
                     /\ tr_avatar_url r = u_avatar_url u)
  /\ StronglySorted more_trending (trending_query now d)
  /\ (forall t, In t (tweets d) -> (now - 86400 < t_created_at t)%Z ->
        (exists r, In r (trending_query now d) /\ tr_tweet r = t)
        \/ (length (trending_query now d) = 50%nat
            /\ forall r, In r (trending_query now d) ->
                 (count_likes d (t_id t) <= tr_like_count r)%nat)).
Proof.
  intros Hwf. unfold trending_query.
  pose proof (firstn_skipn 50 (trending_select now d)) as Hsplit.
  pose proof (trending_select_sorted now d) as Hsorted.
  split; [apply firstn_le_length|]. split; [|split; [|split]].
  - assert (NoDup (map (fun r => t_id (tr_tweet r)) (trending_select now d)))
      as Hnd.
    { rewrite <- (map_map tr_tweet t_id).
      eapply Permutation_NoDup.
      - symmetry. apply Permutation_map, trending_select_tweets. assumption.
      - apply NoDup_map_filter, (tweets_pkey Hwf). }
    rewrite <- Hsplit, map_app in Hnd. eapply NoDup_app_remove_r, Hnd.
  - intros r Hr. apply in_firstn in Hr.
    destruct (in_trending_select now r Hwf Hr) as (H1 & H2 & H3 & H4).
    unfold trending_where in H2. apply Z.ltb_lt in H2. auto.
  - rewrite <- Hsplit in Hsorted. eapply StronglySorted_app_l, Hsorted.
  - intros t Ht Hrecent.
    assert (In t (map tr_tweet (trending_select now d))) as Hin.
    { apply (Permutation_in _ (Permutation_sym (trending_select_tweets now Hwf))).
      apply filter_In. split; [assumption|].
      unfold trending_where. now apply Z.ltb_lt. }
    apply in_map_iff in Hin as (rt & Et & Hrt).
    pose proof Hrt as Hrt'. rewrite <- Hsplit in Hrt'.
    apply in_app_or in Hrt' as [Hfirst|Hrest]; [left; eauto|right].
    split.
    + apply firstn_length_le.
      destruct (Nat.le_gt_cases 50 (length (trending_select now d)))
        as [L|L]; [assumption|].
      rewrite skipn_all2 in Hrest by lia. contradiction.
    + intros r Hr. rewrite <- Hsplit in Hsorted.
      pose proof (@StronglySorted_app_cross _ _ _ _ r rt Hsorted Hr Hrest) as Hcmp.
      destruct (in_trending_select now rt Hwf Hrt) as (_ & _ & E & _).
      rewrite <- Et, <- E. unfold more_trending in Hcmp. lia.
Qed.

Lemma trending_query_exact_witness :
  map (fun r => (t_id (tr_tweet r), tr_like_count r))
      (trending_query 86404%Z sample_db)
  = [(11, 2%nat); (13, 0%nat); (12, 0%nat)]
  /\ (length (trending_query 86404%Z sample_db) <= 50)%nat.
Proof.
  split; [vm_compute; reflexivity|].
  destruct (@trending_query_exact 86404%Z sample_db sample_db_wf) as [H _].
  exact H.
Defined.
